(** * topo_order_commits: a shallow embedding and its verified properties

    The program reads the branch heads of a git repository, loads the commit
    graph from the loose object store, sorts it topologically and prints it.
    This file embeds [topo_order_commits.py] function by function and proves
    properties of the embedding.

    Conventions.
    - A Python [str] is a list of code points ([pystr]); [bytes] is a list of
      [byte].
    - A Python [list] is a Rocq list in the same order: [append] adds at the
      end and [pop()] removes the last element.
    - A Python [dict] is an association list in insertion order.
    - A Python [set] that is only tested for membership or emptiness is a
      [gset]; a set that is iterated ([CommitNode.children]) is the list of its
      elements in insertion order, and iterating it goes through the order
      chosen by the interpreter for this run ([SetOrder]).
    - The file system is what the calls of the program meet: the [.git]
      entry of the working directory and of each ancestor, the outcome of
      the traversal of [refs/heads], the text of the reference files, and
      what the open of an object path reads or how it fails. The working
      directory exists, every reference file is read as text, and standard
      output takes what is written: the errors of [Path.cwd], of [is_file],
      of the open and the decoding of a reference file and of
      [sys.stdout.write] are outside the model. *)

From Stdlib Require Import Strings.String Strings.Ascii Strings.Byte NArith.
From stdpp Require Import gmap list sorting.

Abbreviation pystr := (list N).

(** String literals of the source, as code points. *)
Definition py (s : string) : pystr := map N_of_ascii (list_ascii_of_string s).

Definition NL : pystr := [10%N].

(** [' '.join(l)] and friends. *)
Fixpoint join (sep : pystr) (l : list pystr) : pystr :=
  match l with
  | [] => []
  | [x] => x
  | x :: r => x ++ sep ++ join sep r
  end.

(** [l.pop()]: the last element and the list without it. *)
Definition pop {A} (l : list A) : option (A * list A) :=
  match reverse l with
  | [] => None
  | x :: r => Some (x, reverse r)
  end.

(** ** Text: whitespace, [str.strip], [readline] *)

(** [Py_UNICODE_ISSPACE]: the characters [\s] and [str.strip] treat as
    whitespace. *)
Definition is_space (c : N) : bool :=
  ((9 <=? c) && (c <=? 13) || (28 <=? c) && (c <=? 32)
   || (c =? 0x85) || (c =? 0xA0) || (c =? 0x1680)
   || (0x2000 <=? c) && (c <=? 0x200A)
   || (c =? 0x2028) || (c =? 0x2029) || (c =? 0x202F)
   || (c =? 0x205F) || (c =? 0x3000))%N.

Fixpoint lstrip (s : pystr) : pystr :=
  match s with
  | [] => []
  | c :: r => if is_space c then lstrip r else s
  end.

Definition strip (s : pystr) : pystr := reverse (lstrip (reverse (lstrip s))).

(** [file.readline()] on a file opened in text mode: the first line with its
    terminator, where a terminator is a line feed or a carriage return, and
    is handed over as a line feed. *)
Fixpoint readline (s : pystr) : pystr :=
  match s with
  | [] => []
  | c :: r => if ((c =? 10) || (c =? 13))%N then NL else c :: readline r
  end.

(** ** [bytes.decode('utf-8', errors=...)] *)

Module Utf8.

Inductive errors := strict | ignore | replace.

Definition cont (b : byte) : bool :=
  ((0x80 <=? Byte.to_N b) && (Byte.to_N b <=? 0xBF))%N.

Definition low6 (b : byte) : N := N.land (Byte.to_N b) 0x3F.

(** A well-formed sequence yields its code point. *)
Definition emit (cp : N) (k : option pystr) : option pystr := (cp ::.) <$> k.

(** A malformed sequence goes to the error handler: [strict] raises,
    [ignore] resumes after it, [replace] puts U+FFFD in its place. *)
Definition bad (h : errors) (k : option pystr) : option pystr :=
  match h with
  | strict => None
  | ignore => k
  | replace => (0xFFFD%N ::.) <$> k
  end.

(** The decoder loop. A malformed sequence ends where the first byte that
    cannot continue it stands (or at the end of the input, if it is cut
    short), and decoding resumes from there. Overlong forms, surrogates and
    values above U+10FFFF are refused at the second byte. *)
Fixpoint decode (h : errors) (s : list byte) : option pystr :=
  match s with
  | [] => Some []
  | b0 :: r0 =>
    let c := Byte.to_N b0 in
    if (c <? 0x80)%N then emit c (decode h r0)
    else if (c <? 0xC2)%N then bad h (decode h r0)
    else if (c <? 0xE0)%N then
      match r0 with
      | [] => bad h (Some [])
      | b1 :: r1 =>
        if cont b1
        then emit (N.lor (N.shiftl (N.land c 0x1F) 6) (low6 b1)) (decode h r1)
        else bad h (decode h r0)
      end
    else if (c <? 0xF0)%N then
      match r0 with
      | [] => bad h (Some [])
      | b1 :: r1 =>
        if negb (cont b1)
           || (if (Byte.to_N b1 <? 0xA0)%N then (c =? 0xE0)%N else (c =? 0xED)%N)
        then bad h (decode h r0)
        else
          match r1 with
          | [] => bad h (Some [])
          | b2 :: r2 =>
            if cont b2
            then emit (N.lor (N.shiftl (N.land c 0x0F) 12)
                        (N.lor (N.shiftl (low6 b1) 6) (low6 b2)))
                      (decode h r2)
            else bad h (decode h r1)
          end
      end
    else if (c <? 0xF5)%N then
      match r0 with
      | [] => bad h (Some [])
      | b1 :: r1 =>
        if negb (cont b1)
           || (if (Byte.to_N b1 <? 0x90)%N then (c =? 0xF0)%N else (c =? 0xF4)%N)
        then bad h (decode h r0)
        else
          match r1 with
          | [] => bad h (Some [])
          | b2 :: r2 =>
            if negb (cont b2) then bad h (decode h r1)
            else
              match r2 with
              | [] => bad h (Some [])
              | b3 :: r3 =>
                if cont b3
                then emit (N.lor (N.shiftl (N.land c 0x07) 18)
                            (N.lor (N.shiftl (low6 b1) 12)
                              (N.lor (N.shiftl (low6 b2) 6) (low6 b3))))
                          (decode h r3)
                else bad h (decode h r2)
              end
          end
      end
    else bad h (decode h r0)
  end.

(** The well-formed UTF-8 byte sequences, as the Unicode standard lists
    them (table 3-7). The first byte gives the length of the sequence. *)
Definition lead (b0 : byte) : nat :=
  let c := Byte.to_N b0 in
  if (c <=? 0x7F)%N then 1
  else if ((0xC2 <=? c) && (c <=? 0xDF))%N then 2
  else if ((0xE0 <=? c) && (c <=? 0xEF))%N then 3
  else if ((0xF0 <=? c) && (c <=? 0xF4))%N then 4
  else 0.

(** The second byte is in [80..BF], but in [A0..BF] after [E0], [80..9F]
    after [ED], [90..BF] after [F0] and [80..8F] after [F4]. *)
Definition second (b0 b1 : byte) : bool :=
  let c := Byte.to_N b0 in
  let lo := if (c =? 0xE0)%N then 0xA0%N else if (c =? 0xF0)%N then 0x90%N else 0x80%N in
  let hi := if (c =? 0xED)%N then 0x9F%N else if (c =? 0xF4)%N then 0x8F%N else 0xBF%N in
  ((lo <=? Byte.to_N b1) && (Byte.to_N b1 <=? hi))%N.

(** The bits of the code point that a byte after the first carries. *)
Definition tail_bits (b : byte) : N := (Byte.to_N b - 0x80)%N.

(** The well-formed sequence at the head of [s], if there is one: its code
    point and its length. *)
Definition well_formed (s : list byte) : option (N * nat) :=
  match s with
  | [] => None
  | b0 :: r =>
    match lead b0, r with
    | 1, _ => Some (Byte.to_N b0, 1)
    | 2, b1 :: _ =>
      if cont b1
      then Some (((Byte.to_N b0 - 0xC0) * 64 + tail_bits b1)%N, 2)
      else None
    | 3, b1 :: b2 :: _ =>
      if second b0 b1 && cont b2
      then Some (((Byte.to_N b0 - 0xE0) * 4096 + tail_bits b1 * 64 + tail_bits b2)%N, 3)
      else None
    | 4, b1 :: b2 :: b3 :: _ =>
      if second b0 b1 && cont b2 && cont b3
      then Some (((Byte.to_N b0 - 0xF0) * 262144 + tail_bits b1 * 4096
                  + tail_bits b2 * 64 + tail_bits b3)%N, 4)
      else None
    | _, _ => None
    end
  end.

(** Decoding that drops exactly what is malformed: where a well-formed
    sequence starts, its code point is kept and the text goes on behind
    the sequence ([skip] counts the bytes of it that are still to pass); a
    byte at which no well-formed sequence starts is dropped, alone. *)
Fixpoint drop_malformed (skip : nat) (s : list byte) : pystr :=
  match s with
  | [] => []
  | b :: r =>
    match skip with
    | S k => drop_malformed k r
    | O =>
      match well_formed s with
      | Some (cp, n) => cp :: drop_malformed (n - 1) r
      | None => drop_malformed 0 r
      end
    end
  end.

End Utf8.

(** ** [re.compile(r'^parent\s([0-9a-f]{40})$', re.I | re.M)] *)

Module Re.

(** Case folding under [re.I]: of the characters that fold to a letter of
    the pattern or to a hexadecimal digit only the ASCII capitals do. *)
Definition lower (c : N) : N :=
  if ((65 <=? c) && (c <=? 90))%N then (c + 32)%N else c.

(** [[0-9a-f]] under [re.I]. *)
Definition is_hex (c : N) : bool :=
  ((48 <=? c) && (c <=? 57) || (97 <=? lower c) && (lower c <=? 102))%N.

(** [$] under [re.M]: at the end of the text or before a line feed. *)
Definition at_eol (s : pystr) : bool :=
  match s with
  | [] => true
  | c :: _ => (c =? 10)%N
  end.

(** The pattern after [^], tried at the head of [s]; the result is group 1. *)
Definition match_here (s : pystr) : option pystr :=
  if bool_decide (lower <$> take 6 s = py "parent") then
    match drop 6 s with
    | ws :: s2 =>
      if is_space ws
         && bool_decide (length (take 40 s2) = 40)
         && forallb is_hex (take 40 s2)
         && at_eol (drop 40 s2)
      then Some (take 40 s2)
      else None
    | [] => None
    end
  else None.

(** The search loop of [findall]: [bol] says whether the current position
    is at the beginning of a line ([^] under [re.M]); after a match the
    search resumes behind it, [skip] counting the characters still covered
    by the last match. *)
Fixpoint scan (skip : nat) (bol : bool) (s : pystr) : list pystr :=
  match s with
  | [] => []
  | c :: r =>
    match skip with
    | S k => scan k (c =? 10)%N r
    | O =>
      match (if bol then match_here s else None) with
      | Some grp => grp :: scan 46 (c =? 10)%N r
      | None => scan 0 (c =? 10)%N r
      end
    end
  end.

Definition findall (s : pystr) : list pystr := scan 0 true s.

(** The same search read position by position: position [i] of [text] is
    at the beginning of a line, and the pattern matches there. *)
Definition bol (text : pystr) (i : nat) : bool :=
  match i with
  | O => true
  | S j => bool_decide (text !! j = Some 10%N)
  end.

Definition match_at (text : pystr) (i : nat) : option pystr :=
  if bol text i then match_here (drop i text) else None.

(** What a match at position [i] with group [h] looks like. *)
Definition parent_line_at (text : pystr) (i : nat) (h : pystr) : Prop :=
  ∃ kw ws rest,
    drop i text = kw ++ ws :: h ++ rest
    ∧ (i = 0 ∨ text !! (i - 1) = Some 10%N)
    ∧ lower <$> kw = py "parent"
    ∧ is_space ws = true
    ∧ length h = 40
    ∧ Forall (λ c, is_hex c = true) h
    ∧ (rest = [] ∨ ∃ rest', rest = 10%N :: rest').

(** The search without the jump over the last match. *)
Fixpoint scan_all (bol : bool) (s : pystr) : list pystr :=
  match s with
  | [] => []
  | c :: r =>
    option_list (if bol then match_here s else None) ++ scan_all (c =? 10)%N r
  end.

(** The narrower reading: the lines made of the word parent in lower case,
    one space and 40 hexadecimal digits. *)
Fixpoint lines_from (cur : pystr) (s : pystr) : list pystr :=
  match s with
  | [] => [cur]
  | c :: r => if (c =? 10)%N then cur :: lines_from [] r else lines_from (cur ++ [c]) r
  end.

Definition is_parent_line (l : pystr) : bool :=
  bool_decide (take 7 l = py "parent ")
  && bool_decide (length (drop 7 l) = 40)
  && forallb is_hex (drop 7 l).

Definition claimed_parents (text : pystr) : list pystr :=
  drop 7 <$> filter (λ l, is_parent_line l = true) (lines_from [] text).

End Re.

(** ** Outcomes *)

Inductive exn :=
| SystemExit (status : nat)
| OSError (path : pystr * pystr)
| PermissionError
| ValueError
| ZlibError
| UnicodeDecodeError
| KeyError (key : pystr)
| Exception (msg : string).

(** A call returns, raises, or is still running when the step budget of the
    model is used up. *)
Inductive result (A : Type) :=
| Ok (a : A)
| Raise (e : exn)
| OutOfFuel.
Arguments Ok {A} a.
Arguments Raise {A} e.
Arguments OutOfFuel {A}.

Instance result_bind : MBind result := λ A B k r,
  match r with
  | Ok a => k a
  | Raise e => Raise e
  | OutOfFuel => OutOfFuel
  end.

(** [for x in l: s = f(s, x)], where the body may raise. *)
Fixpoint for_each {A S} (f : S → A → result S) (l : list A) (s : S) : result S :=
  match l with
  | [] => Ok s
  | x :: r => s' ← f s x ; for_each f r s'
  end.

(** ** Dictionaries in insertion order *)

Section dict.
Context {V : Type}.

Fixpoint dict_get (k : pystr) (d : list (pystr * V)) : option V :=
  match d with
  | [] => None
  | (k', v) :: r => if decide (k' = k) then Some v else dict_get k r
  end.

Definition dict_mem (k : pystr) (d : list (pystr * V)) : bool :=
  bool_decide (is_Some (dict_get k d)).

(** [d[k] = v]: a known key keeps its place, a new one goes to the end. *)
Fixpoint dict_set (k : pystr) (v : V) (d : list (pystr * V)) : list (pystr * V) :=
  match d with
  | [] => [(k, v)]
  | (k', v') :: r =>
    if decide (k' = k) then (k', v) :: r else (k', v') :: dict_set k v r
  end.

(** [d[k].method(...)]: the object stored under [k] is changed in place. *)
Fixpoint dict_alter (f : V → V) (k : pystr) (d : list (pystr * V)) : list (pystr * V) :=
  match d with
  | [] => []
  | (k', v) :: r =>
    if decide (k' = k) then (k', f v) :: r else (k', v) :: dict_alter f k r
  end.
End dict.

(** ** Sorting ([sorted]) *)

Fixpoint lex_leb {A} (eqb leb : A → A → bool) (x y : list A) : bool :=
  match x, y with
  | [], _ => true
  | _ :: _, [] => false
  | a :: x', b :: y' => if eqb a b then lex_leb eqb leb x' y' else leb a b
  end.

(** [str] comparison: by code point. *)
Definition str_leb : pystr → pystr → bool := lex_leb N.eqb N.leb.
Definition str_le (x y : pystr) : Prop := str_leb x y = true.
Instance str_le_dec : RelDecision str_le := λ x y, decide (str_leb x y = true).

(** [Path] comparison: by the list of path components. *)
Definition path_leb : list pystr → list pystr → bool :=
  lex_leb (λ a b, bool_decide (a = b)) str_leb.
Definition path_le {A} (p q : list pystr * A) : Prop := path_leb p.1 q.1 = true.
Instance path_le_dec {A} : RelDecision (@path_le A) :=
  λ p q, decide (path_leb p.1 q.1 = true).

(** ** The repository on disk *)

Inductive fs_entry :=
| File (content : pystr)
| Dir.

Definition is_file (e : fs_entry) : bool :=
  match e with File _ => true | Dir => false end.

(** What [Path(git_dir / 'refs/heads').rglob('*')] meets: the entries below
    [refs/heads], each with its path relative to it; or no such directory;
    or an error [e] that the traversal raises, as it raises
    [PermissionError] when [refs/heads] cannot be reached. A [File] is a
    regular file with the text that is read from it: the errors of
    [is_file] and of the open and the decoding of a reference file are
    outside the model. *)
Inductive heads_tree :=
| Listed (entries : list (list pystr * fs_entry))
| Absent
| Raises (e : exn).

(** A [.git] directory: what lies below [refs/heads], and what the open of
    [objects / d / f] reads for the pairs [(d, f)] for which it succeeds
    (see [get_graph_loop]). *)
Record GitDir := {
  refs_heads : heads_tree;
  objects : gmap (pystr * pystr) (list byte)
}.

(** ** [find_git] *)

(** [chain] lists the working directory and its ancestors up to the root,
    each with its [.git] entry if it has one; [len(abs_dir.parents)] is the
    number of ancestors. *)
Fixpoint find_git_loop (levels : nat) (chain : list (option GitDir)) : result GitDir :=
  match levels with
  | O => Raise (SystemExit 1)
  | S n =>
    match chain with
    | [] => Raise (SystemExit 1)
    | Some git :: _ => Ok git
    | None :: up => find_git_loop n up
    end
  end.

Definition find_git (chain : list (option GitDir)) : result GitDir :=
  find_git_loop (length chain - 1) chain.

(** ** [get_branches] and [first_line] *)

Definition first_line (e : fs_entry) : pystr :=
  match e with
  | File content => strip (readline content)
  | Dir => []
  end.

(** [list(Path.rglob('*'))]: nothing when the directory does not exist;
    the error of the traversal is not caught. *)
Definition rglob (tree : heads_tree) : result (list (list pystr * fs_entry)) :=
  match tree with
  | Listed entries => Ok entries
  | Absent => Ok []
  | Raises e => Raise e
  end.

Definition as_posix (parts : list pystr) : pystr := join (py "/") parts.

Definition get_branches (git_dir : GitDir) : result (list (pystr * pystr)) :=
  possible_paths ← rglob (refs_heads git_dir) ;
  let paths := merge_sort path_le (filter (λ p, is_file p.2 = true) possible_paths) in
  Ok (foldl (λ d p, dict_set (as_posix p.1) (first_line p.2) d) [] paths).

(** ** [CommitNode] *)

Record CommitNode := {
  commit_hash : pystr;
  parents : gset pystr;
  children : list pystr
}.

Definition new_node (h : pystr) : CommitNode :=
  {| commit_hash := h; parents := ∅; children := [] |}.

Definition rm_parent (parent_hash : pystr) (n : CommitNode) : CommitNode :=
  {| commit_hash := commit_hash n;
     parents := parents n ∖ {[parent_hash]};
     children := children n |}.

Definition add_child (child_hash : pystr) (n : CommitNode) : CommitNode :=
  {| commit_hash := commit_hash n;
     parents := parents n;
     children := if bool_decide (child_hash ∈ children n)
                 then children n else children n ++ [child_hash] |}.

Definition set_parents (parent_hashes : list pystr) (n : CommitNode) : CommitNode :=
  {| commit_hash := commit_hash n;
     parents := list_to_set parent_hashes;
     children := children n |}.

Abbreviation graph := (list (pystr * CommitNode)).

(** The order in which this run of the interpreter iterates over a set of
    strings, given its elements in insertion order. It follows from the
    string hashes, which are salted per process, so it is a parameter of the
    run; every element comes up once. *)
Record SetOrder := {
  set_iter : list pystr → list pystr;
  set_iter_perm : ∀ l, set_iter l ≡ₚ l
}.

(** [objects / commit_hash[0:2] / commit_hash[2:]] *)
Definition object_path (commit_hash : pystr) : pystr * pystr :=
  (take 2 commit_hash, drop 2 commit_hash).

(** ** The program *)

Section program.
(** [zlib.decompress]: [None] when it raises [zlib.error]. *)
Variable decompress : list byte → option (list byte).
Variable order : SetOrder.

(** *** [get_graph] *)

(** Lines 125 to 128: decompress, decode, find the parents. *)
Definition parse_parents (compressed_contents : list byte) : result (list pystr) :=
  match decompress compressed_contents with
  | None => Raise ZlibError
  | Some raw =>
    match Utf8.decode Utf8.ignore raw with
    | None => Raise UnicodeDecodeError
    | Some decompressed_contents => Ok (Re.findall decompressed_contents)
    end
  end.

Record loader := {
  l_graph : graph;
  to_visit : list pystr;
  visited : gset pystr
}.

(** [if (h not in graph): graph[h] = CommitNode(h)] *)
Definition ensure_node (h : pystr) (g : graph) : graph :=
  if dict_mem h g then g else dict_set h (new_node h) g.

(** The body of [for parent in parent_hashes]. *)
Definition link_parent (commit_hash : pystr) (visited : gset pystr)
    (s : graph * list pystr) (parent : pystr) : graph * list pystr :=
  let to_visit :=
    if bool_decide (parent ∈ visited) then s.2 else s.2 ++ [parent] in
  (dict_alter (add_child commit_hash) parent (ensure_node parent s.1), to_visit).

(** Lines 129 to 141, once the parents are known. *)
Definition expand (st : loader) (commit_hash : pystr) (rest : list pystr)
    (parent_hashes : list pystr) : loader :=
  let g :=
    dict_alter (set_parents parent_hashes) commit_hash
      (ensure_node commit_hash (l_graph st)) in
  let s := foldl (link_parent commit_hash (visited st)) (g, rest) parent_hashes in
  {| l_graph := s.1; to_visit := s.2; visited := {[commit_hash]} ∪ visited st |}.

(** The [while to_visit] loop. [opened] records every [open] of an object
    file, in order, whether it succeeded or not.

    [open(objects / commit_hash[0:2] / commit_hash[2:], 'rb')] and
    [file.read()]: a name with a NUL character is refused with a
    [ValueError] before the file system is asked; otherwise [store] says
    what the open of the path made of the two parts reads, and has no entry
    where it fails with an [OSError] (no such file, a directory, no
    permission). For a name that is not a plain identifier the path need
    not lie below [objects]: a second part that starts with [/] restarts
    it, and [..] goes up; [store] has the file the path leads to. *)
Fixpoint get_graph_loop (fuel : nat) (store : gmap (pystr * pystr) (list byte))
    (st : loader) (opened : list pystr) : list pystr * result loader :=
  match fuel with
  | O => (opened, OutOfFuel)
  | S fuel' =>
    match pop (to_visit st) with
    | None => (opened, Ok st)
    | Some (commit_hash, rest) =>
      if bool_decide (commit_hash ∈ visited st) then
        get_graph_loop fuel' store
          {| l_graph := l_graph st; to_visit := rest; visited := visited st |}
          opened
      else
        let opened := opened ++ [commit_hash] in
        if bool_decide (0%N ∈ commit_hash) then (opened, Raise ValueError)
        else
          match store !! object_path commit_hash with
          | None => (opened, Raise (OSError (object_path commit_hash)))
          | Some compressed_contents =>
            match parse_parents compressed_contents with
            | Ok parent_hashes =>
              get_graph_loop fuel' store
                (expand st commit_hash rest parent_hashes) opened
            | Raise e => (opened, Raise e)
            | OutOfFuel => (opened, OutOfFuel)
            end
          end
    end
  end.

(** What one stored object can cost the loop: its own turn and one turn for
    each parent it puts on the work list. *)
Definition object_cost (entry : pystr * pystr * list byte) : nat :=
  match parse_parents entry.2 with
  | Ok parent_hashes => 2 + length parent_hashes
  | _ => 2
  end.

(** The step budget of the loader; [get_graph_loop_terminates] shows it is never
    used up. *)
Definition loader_fuel (heads : list (pystr * pystr))
    (store : gmap (pystr * pystr) (list byte)) : nat :=
  S (length heads + sum_list_with object_cost (map_to_list store)).

Definition loader_init (heads : list (pystr * pystr)) : loader :=
  {| l_graph := []; to_visit := heads.*2; visited := ∅ |}.

(** [get_graph] with the record of the files it opened. *)
Definition get_graph_traced (heads : list (pystr * pystr))
    (store : gmap (pystr * pystr) (list byte)) : list pystr * result graph :=
  let run := get_graph_loop (loader_fuel heads store) store (loader_init heads) [] in
  (run.1,
   st ← run.2 ;
   if bool_decide (size (visited st) ≠ length (l_graph st)) then
     if bool_decide (size (visited st) < length (l_graph st))
     then Raise (Exception "Not all nodes visited")
     else Raise (Exception "Visited more nodes than in graph")
   else Ok (l_graph st)).

Definition get_graph (heads : list (pystr * pystr)) (git_dir : GitDir) : result graph :=
  (get_graph_traced heads (objects git_dir)).2.

(** *** The sort *)

(** The body of [for child_hash in parent.get_children()]. *)
Definition release (parent : CommitNode) (s : graph * list CommitNode)
    (child_hash : pystr) : result (graph * list CommitNode) :=
  match dict_get child_hash s.1 with
  | None => Raise (KeyError child_hash)
  | Some child_node =>
    let child_node := rm_parent (commit_hash parent) child_node in
    Ok (dict_alter (rm_parent (commit_hash parent)) child_hash s.1,
        if bool_decide (parents child_node = ∅)
        then s.2 ++ [child_node] else s.2)
  end.

(** The [while root_nodes] loop. The nodes on [root_nodes] and
    [topo_sorted] are the objects of [commit_nodes]; through these two lists
    the program reads only their hash and their children, which the loop
    never changes, and it reads and prunes the parents through
    [commit_nodes]. *)
Fixpoint sort_loop (fuel : nat) (commit_nodes : graph)
    (root_nodes topo_sorted : list CommitNode) : result (graph * list CommitNode) :=
  match fuel with
  | O => OutOfFuel
  | S fuel' =>
    match pop root_nodes with
    | None => Ok (commit_nodes, topo_sorted)
    | Some (parent, root_nodes) =>
      let topo_sorted := topo_sorted ++ [parent] in
      s ← for_each (release parent) (set_iter order (children parent))
            (commit_nodes, root_nodes) ;
      sort_loop fuel' s.1 s.2 topo_sorted
    end
  end.

(** Lines 215 to 231. The loop gets one step per node and one to leave,
    which is enough on every graph the loader returns ([topo_sort_spec]). *)
Definition topo_sort (commit_nodes : graph) : result (list CommitNode) :=
  let root_nodes :=
    filter (λ node, parents node = ∅) commit_nodes.*2 in
  s ← sort_loop (S (length commit_nodes)) commit_nodes root_nodes [] ;
  if bool_decide (length s.2 ≠ length s.1)
  then Raise (Exception "Sort is not a bijection")
  else Ok (reverse s.2).

(** *** The report *)

Definition branch_names (branch_heads : list (pystr * pystr)) (node_hash : pystr)
  : list pystr :=
  (filter (λ kv, kv.2 = node_hash) branch_heads).*1.

(** Lines 234 to 252: what one turn of the printing loop writes to
    [sys.stdout], appended to what is already there. *)
Definition write_commit (branch_heads : list (pystr * pystr))
    (topo_sorted : list CommitNode) (out : pystr)
    (pair : CommitNode * option CommitNode) : pystr :=
  let node_hash := commit_hash pair.1 in
  let out := out ++ node_hash in
  let out :=
    if bool_decide (node_hash ∈ branch_heads.*2) then
      foldl (λ out name, out ++ (py " " ++ name)) out
        (merge_sort str_le (branch_names branch_heads node_hash))
    else out in
  let out :=
    match pair.2 with
    | Some next_node =>
      if bool_decide (node_hash ∉ children next_node) then
        let parent_hashes :=
          commit_hash <$> filter (λ n, node_hash ∈ children n) topo_sorted in
        let out := out ++ (NL ++ join (py " ") parent_hashes ++ py "=" ++ NL) in
        out ++ (NL ++ py "=" ++ join (py " ") (set_iter order (children next_node)))
      else out
    | None => out
    end in
  out ++ NL.

Definition print_commits (branch_heads : list (pystr * pystr))
    (topo_sorted : list CommitNode) : pystr :=
  foldl (write_commit branch_heads topo_sorted) []
    (zip topo_sorted ((Some <$> drop 1 topo_sorted) ++ [None])).

(** *** [topo_order_commits] *)

(** The standard output of a run that ends normally. *)
Definition topo_order_commits (cwd : list (option GitDir)) : result pystr :=
  git_dir ← find_git cwd ;
  branch_heads ← get_branches git_dir ;
  commit_nodes ← get_graph branch_heads git_dir ;
  topo_sorted ← topo_sort commit_nodes ;
  Ok (print_commits branch_heads topo_sorted).

End program.

(** * The vocabulary of the properties *)

Definition hashes (l : list CommitNode) : list pystr := commit_hash <$> l.

Section vocabulary.
Variable decompress : list byte → option (list byte).
Variable store : gmap (pystr * pystr) (list byte).
Variable heads : list (pystr * pystr).

(** The parents the object of [h] declares, if its file can be opened and
    decodes. *)
Definition declared (h : pystr) : option (list pystr) :=
  if bool_decide (0%N ∈ h) then None
  else
    match store !! object_path h with
    | Some contents =>
      match parse_parents decompress contents with
      | Ok parent_hashes => Some parent_hashes
      | _ => None
      end
    | None => None
    end.

(** Transitive parent traversal from the branch tips. *)
Inductive reachable : pystr → Prop :=
| reach_tip tip : tip ∈ heads.*2 → reachable tip
| reach_parent c ps p :
    reachable c → declared c = Some ps → p ∈ ps → reachable p.

(** The invariant of the [while to_visit] loop. *)
Record loader_inv (st : loader) : Prop := {
  inv_nodup : NoDup (l_graph st).*1;
  inv_visited : ∀ h, h ∈ visited st →
    ∃ ps node, declared h = Some ps
      ∧ dict_get h (l_graph st) = Some node
      ∧ parents node = list_to_set ps
      ∧ ∀ p, p ∈ ps → ∃ pn, dict_get p (l_graph st) = Some pn ∧ h ∈ children pn;
  inv_pending : ∀ k, k ∈ (l_graph st).*1 → k ∈ visited st ∨ k ∈ to_visit st;
  inv_heads : ∀ tip, tip ∈ heads.*2 → tip ∈ visited st ∨ tip ∈ to_visit st;
  inv_children : ∀ p pn c, dict_get p (l_graph st) = Some pn → c ∈ children pn →
    c ∈ visited st ∧ ∃ ps, declared c = Some ps ∧ p ∈ ps;
  inv_nodes : ∀ k node, dict_get k (l_graph st) = Some node →
    commit_hash node = k ∧ NoDup (children node);
  inv_reach : ∀ k, k ∈ (l_graph st).*1 ∨ k ∈ to_visit st → reachable k
}.

(** How a run of the loader that raises has ended: at the file opened
    last, whose name holds a NUL character, or which cannot be opened, or
    which [zlib] refuses. *)
Definition raised_by (opened : list pystr) (e : exn) : Prop :=
  ∃ h, last opened = Some h
    ∧ ((e = ValueError ∧ 0%N ∈ h)
       ∨ (e = OSError (object_path h) ∧ (0%N ∉ h) ∧ store !! object_path h = None)
       ∨ (e = ZlibError ∧ (0%N ∉ h)
          ∧ ∃ contents, store !! object_path h = Some contents
                        ∧ decompress contents = None)).

Definition store_cost (m : gmap (pystr * pystr) (list byte)) : nat :=
  sum_list_with (object_cost decompress) (map_to_list m).
End vocabulary.

Definition node_or_new (g : graph) (k : pystr) : CommitNode :=
  default (new_node k) (dict_get k g).


(** A graph in which every child edge has its parent edge. *)
Record well_linked (g : graph) : Prop := {
  wl_nodup : NoDup g.*1;
  wl_nodes : ∀ k n, dict_get k g = Some n → commit_hash n = k ∧ NoDup (children n);
  wl_children : ∀ p pn c, dict_get p g = Some pn → c ∈ children pn →
    ∃ cn, dict_get c g = Some cn ∧ p ∈ parents cn
}.

Section sort_vocabulary.
(** The graph as the sort received it. *)
Variable g0 : graph.

(** What is left of the parent sets: nothing has been removed but the
    hashes of [gone] and, from the nodes outside [todo], the hash [cur]. *)
Definition pruned (g : graph) (gone : list pystr) (cur : option pystr)
    (todo : list pystr) : Prop :=
  g.*1 = g0.*1
  ∧ ∀ k n, dict_get k g = Some n →
      ∃ n0, dict_get k g0 = Some n0
        ∧ children n = children n0 ∧ commit_hash n = k
        ∧ ∀ q, q ∈ parents n0 → q ∉ gone → (Some q ≠ cur ∨ k ∈ todo) → q ∈ parents n.

(** The nodes of [l] are nodes of the graph, and have no parent left. *)
Definition settled (g : graph) (l : list CommitNode) : Prop :=
  ∀ n, n ∈ l →
    ∃ n0 cur, dict_get (commit_hash n) g0 = Some n0 ∧ children n = children n0
      ∧ dict_get (commit_hash n) g = Some cur ∧ parents cur = ∅.

(** Every parent stands before its child. *)
Definition ordered (E : list CommitNode) : Prop :=
  ∀ i n n0 p, E !! i = Some n → dict_get (commit_hash n) g0 = Some n0 →
    p ∈ parents n0 → ∃ j, j < i ∧ hashes E !! j = Some p.

(** The invariant of the [while root_nodes] loop. *)
Record sort_inv (g : graph) (R E : list CommitNode) : Prop := {
  si_pruned : pruned g (hashes E) None [];
  si_nodup : NoDup (hashes (E ++ R));
  si_settled : settled g (E ++ R);
  si_ordered : ordered E
}.
End sort_vocabulary.

Section report_vocabulary.
Variable order : SetOrder.

Definition annotation (branch_heads : list (pystr * pystr)) (node_hash : pystr)
  : pystr :=
  mjoin ((λ name, py " " ++ name) <$>
           merge_sort str_le (branch_names branch_heads node_hash)).

Definition block (topo_sorted : list CommitNode) (node : CommitNode)
    (next : option CommitNode) : pystr :=
  match next with
  | Some next_node =>
    if bool_decide (commit_hash node ∈ children next_node) then []
    else NL ++ join (py " ")
                (commit_hash <$> filter (λ n, commit_hash node ∈ children n) topo_sorted)
            ++ py "=" ++ NL ++ NL ++ py "="
            ++ join (py " ") (set_iter order (children next_node))
  | None => []
  end.

(** What the report holds for the commit at position [i]. *)
Definition entry (branch_heads : list (pystr * pystr)) (topo_sorted : list CommitNode)
    (i : nat) (node : CommitNode) : pystr :=
  commit_hash node ++ annotation branch_heads (commit_hash node)
    ++ block topo_sorted node (topo_sorted !! S i) ++ NL.

(** The block without its empty line: a newline, the parents, [=], a
    newline, then [=] and the children. *)
Definition claimed_block (topo_sorted : list CommitNode) (node : CommitNode)
    (next : option CommitNode) : pystr :=
  match next with
  | Some next_node =>
    if bool_decide (commit_hash node ∈ children next_node) then []
    else NL ++ join (py " ")
                (commit_hash <$> filter (λ n, commit_hash node ∈ children n) topo_sorted)
            ++ py "=" ++ NL ++ py "="
            ++ join (py " ") (set_iter order (children next_node))
  | None => []
  end.

Definition claimed_report (branch_heads : list (pystr * pystr))
    (topo_sorted : list CommitNode) : pystr :=
  mjoin (imap (λ i node,
           commit_hash node ++ annotation branch_heads (commit_hash node)
             ++ claimed_block topo_sorted node (topo_sorted !! S i) ++ NL)
         topo_sorted).
End report_vocabulary.

(** ** The sort, seen from the parents *)

(** Every parent edge has its child edge. *)
Definition parents_linked (g : graph) : Prop :=
  ∀ c cn p, dict_get c g = Some cn → p ∈ parents cn →
    ∃ pn, dict_get p g = Some pn ∧ c ∈ children pn.

(** A numbering of the commits that goes down along every parent edge. *)
Definition ranked (g : graph) (rank : pystr → nat) : Prop :=
  ∀ c cn p, dict_get c g = Some cn → p ∈ parents cn → rank p < rank c.

(** What the parent sets still hold: only parents the node had, none of
    [gone], and [cur] only in the nodes of [todo]; and a node without
    parents left is one of [roots]. *)
Definition kept (g0 g : graph) (gone : list pystr) (cur : option pystr)
    (todo roots : list pystr) : Prop :=
  ∀ k n, dict_get k g = Some n →
    (commit_hash n = k)
    ∧ (∀ q, q ∈ parents n →
         (∃ n0, dict_get k g0 = Some n0 ∧ q ∈ parents n0)
         ∧ (q ∉ gone) ∧ (Some q = cur → k ∈ todo))
    ∧ (parents n = ∅ → k ∈ roots).

(** * Example repositories *)

Module Samples.

(** The codec of the examples stands in for [zlib]: an object file holds
    its text as it is, and an empty file is refused, as [zlib.decompress]
    refuses it. *)
Definition stored (contents : list byte) : option (list byte) :=
  match contents with
  | [] => None
  | _ => Some contents
  end.

(** Two orders of iteration, as two runs of the interpreter may have them. *)
Definition fwd : SetOrder :=
  {| set_iter := λ l, l; set_iter_perm := λ l, reflexivity l |}.
Definition bwd : SetOrder :=
  {| set_iter := reverse; set_iter_perm := reverse_Permutation |}.

Definition hex40 (digit : string) : pystr := mjoin (replicate 40 (py digit)).
Definition hA : pystr := hex40 "a".
Definition hB : pystr := hex40 "b".
Definition hC : pystr := hex40 "c".
Definition hD : pystr := hex40 "d".

Definition ascii_bytes (s : pystr) : list byte := omap Byte.of_N s.

Definition commit (parent_hashes : list pystr) : list byte :=
  ascii_bytes (py "tree 0" ++ NL
               ++ mjoin ((λ p, py "parent " ++ p ++ NL) <$> parent_hashes)
               ++ py "author x" ++ NL).

Definition put (h : pystr) (parent_hashes : list pystr)
    (m : gmap (pystr * pystr) (list byte)) : gmap (pystr * pystr) (list byte) :=
  <[object_path h := commit parent_hashes]> m.

Definition ref (name : list pystr) (h : pystr) : list pystr * fs_entry :=
  (name, File (h ++ NL)).

Definition two_heads : heads_tree :=
  Listed [ref [py "main"] hA; ([py "feat"], Dir); ref [py "feat"; py "x"] hC].

(** [main] at A and [feat/x] at C, both children of the root B. *)
Definition fork : GitDir :=
  {| refs_heads := two_heads;
     objects := put hA [hB] (put hC [hB] (put hB [] ∅)) |}.

(** A and C are both merges of the roots B and D. *)
Definition diamond : GitDir :=
  {| refs_heads := two_heads;
     objects := put hA [hB; hD] (put hC [hB; hD] (put hB [] (put hD [] ∅))) |}.

(** No [refs/heads] below [.git]. *)
Definition headless : GitDir :=
  {| refs_heads := Absent; objects := put hB [] ∅ |}.



(** A lists itself as a parent. *)
Definition selfish : GitDir :=
  {| refs_heads := Listed [ref [py "main"] hA]; objects := put hA [hA] ∅ |}.

(** [refs/heads] cannot be reached. *)
Definition locked : GitDir :=
  {| refs_heads := Raises PermissionError; objects := put hB [] ∅ |}.

(** [main] holds a name with a NUL character. *)
Definition nul_name : pystr := [97; 0; 98]%N.
Definition odd : GitDir :=
  {| refs_heads := Listed [ref [py "main"] nul_name]; objects := ∅ |}.

(** [main] holds a name whose second part starts with [/]: the path of its
    object restarts there, and leads to a file that is not below
    [objects]. *)
Definition outside_name : pystr := py "ab/tmp/c".
Definition outside : GitDir :=
  {| refs_heads := Listed [ref [py "main"] outside_name];
     objects := <[object_path outside_name := commit []]> ∅ |}.

(** The branch mapping of a repository whose [refs/heads] is traversed. *)
Definition branches_at (git_dir : GitDir) : list (pystr * pystr) :=
  match get_branches git_dir with
  | Ok branch_heads => branch_heads
  | _ => []
  end.

(** The working directory is the top of the repository, below the root. *)
Definition at_top (git_dir : GitDir) : list (option GitDir) := [Some git_dir; None].

(** The sorted nodes of [fork] once the sort has pruned them. *)
Definition fork_sorted : list CommitNode :=
  [new_node hA; new_node hC; add_child hC (add_child hA (new_node hB))].

(** The graph of [fork] as the loader leaves it. *)
Definition fork_graph : graph :=
  [(hA, set_parents [hB] (new_node hA));
   (hB, add_child hC (add_child hA (new_node hB)));
   (hC, set_parents [hB] (new_node hC))].

Definition upper_tab_commit : pystr :=
  py "tree 0" ++ NL ++ py "PARENT" ++ [9%N] ++ hA ++ NL ++ py "author x" ++ NL.

(** [main] at A, whose parent is the root B. *)
Definition straight : GitDir :=
  {| refs_heads := Listed [ref [py "main"] hA];
     objects := put hA [hB] (put hB [] ∅) |}.

End Samples.

(** * Lists, dictionaries and nodes *)

Section lists.
Context {A : Type}.

Lemma pop_nil : pop (@nil A) = None.
Proof. done. Qed.

Lemma pop_snoc (l : list A) x : pop (l ++ [x]) = Some (x, l).
Proof. unfold pop. by rewrite reverse_snoc, reverse_involutive. Qed.

Lemma pop_Some (l : list A) x r : pop l = Some (x, r) ↔ l = r ++ [x].
Proof.
  split; [|intros ->; apply pop_snoc].
  destruct l as [|y l _] using rev_ind; [done|].
  rewrite pop_snoc. by intros [= -> ->].
Qed.

Lemma pop_None (l : list A) : pop l = None ↔ l = [].
Proof.
  split; [|by intros ->].
  destruct l as [|y l _] using rev_ind; [done|]. by rewrite pop_snoc.
Qed.
End lists.

Section dict.
Context {V : Type}.
Implicit Types (d : list (pystr * V)) (k : pystr).

Lemma dict_get_None k d : dict_get k d = None ↔ k ∉ d.*1.
Proof.
  induction d as [|[k' v] d IH]; simpl.
  - split; [intros _; apply not_elem_of_nil|done].
  - rewrite not_elem_of_cons. case_decide as Hk; [|rewrite IH; split; [split; [congruence|done]|tauto]].
    split; [done|]. intros [Hne _]. by subst.
Qed.

Lemma dict_get_is_Some k d : is_Some (dict_get k d) ↔ k ∈ d.*1.
Proof.
  rewrite <- not_eq_None_Some, dict_get_None.
  destruct (decide (k ∈ d.*1)); tauto.
Qed.

Lemma dict_get_Some_key k d v : dict_get k d = Some v → k ∈ d.*1.
Proof. intros H. apply dict_get_is_Some. eauto. Qed.

Lemma dict_get_elem k d v : dict_get k d = Some v → (k, v) ∈ d.
Proof.
  induction d as [|[k' v'] d IH]; simpl; [done|].
  case_decide; [intros [= ->]; subst; left|right; auto].
Qed.

Lemma dict_elem_get k d v : NoDup d.*1 → (k, v) ∈ d → dict_get k d = Some v.
Proof.
  induction d as [|[k' v'] d IH]; simpl; [by intros _ ?%elem_of_nil|].
  rewrite NoDup_cons. intros [Hk Hd] [[= -> ->]|Hin]%elem_of_cons.
  - by rewrite decide_True.
  - rewrite decide_False; [auto|]. intros ->. apply Hk.
    apply list_elem_of_fmap. by exists (k, v).
Qed.

Lemma dict_mem_true k d : dict_mem k d = true ↔ k ∈ d.*1.
Proof. unfold dict_mem. by rewrite bool_decide_eq_true, dict_get_is_Some. Qed.

Lemma dict_mem_false k d : dict_mem k d = false ↔ k ∉ d.*1.
Proof. unfold dict_mem. by rewrite bool_decide_eq_false, dict_get_is_Some. Qed.

Lemma dict_set_fresh k v d : k ∉ d.*1 → dict_set k v d = d ++ [(k, v)].
Proof.
  induction d as [|[k' v'] d IH]; simpl; [done|].
  rewrite not_elem_of_cons. intros [Hne Hk]. rewrite decide_False by done.
  by rewrite IH.
Qed.

Lemma dict_get_snoc k k' v d :
  dict_get k (d ++ [(k', v)])
  = match dict_get k d with
    | Some x => Some x
    | None => if decide (k' = k) then Some v else None
    end.
Proof. induction d as [|[k'' v'] d IH]; simpl; [done|]. destruct (decide (k'' = k)); [done|apply IH]. Qed.

Lemma dict_alter_get f k' k d :
  dict_get k (dict_alter f k' d)
  = if decide (k' = k) then f <$> dict_get k d else dict_get k d.
Proof.
  induction d as [|[k'' v] d IH]; simpl; [by case_decide|].
  repeat (case_decide; simplify_eq/=); try done.
  all: rewrite IH; by repeat (case_decide; simplify_eq/=).
Qed.

Lemma dict_alter_keys f k d : (dict_alter f k d).*1 = d.*1.
Proof.
  induction d as [|[k' v] d IH]; simpl; [done|].
  destruct (decide (k' = k)); rewrite !fmap_cons; simpl; by rewrite ?IH.
Qed.

Lemma dict_alter_length f k d : length (dict_alter f k d) = length d.
Proof. by rewrite <- (length_fmap fst), dict_alter_keys, length_fmap. Qed.
End dict.

Section nodes.
Implicit Types (g : graph) (k h c p : pystr).

Lemma ensure_node_get k h g :
  dict_get k (ensure_node h g)
  = if decide (h = k) then Some (default (new_node h) (dict_get h g))
    else dict_get k g.
Proof.
  unfold ensure_node. destruct (dict_mem h g) eqn:Hm.
  - apply dict_mem_true, dict_get_is_Some in Hm as [n Hn].
    case_decide; subst; by rewrite ?Hn.
  - apply dict_mem_false in Hm. rewrite dict_set_fresh, dict_get_snoc by done.
    case_decide; subst.
    + apply dict_get_None in Hm. by rewrite Hm.
    + by destruct (dict_get k g).
Qed.

Lemma ensure_node_keys h g :
  (ensure_node h g).*1 = if decide (h ∈ g.*1) then g.*1 else g.*1 ++ [h].
Proof.
  unfold ensure_node. destruct (dict_mem h g) eqn:Hm.
  - apply dict_mem_true in Hm. by rewrite decide_True.
  - apply dict_mem_false in Hm. rewrite decide_False, dict_set_fresh by done.
    by rewrite fmap_app.
Qed.

Lemma ensure_node_NoDup h g : NoDup g.*1 → NoDup (ensure_node h g).*1.
Proof.
  rewrite ensure_node_keys. case_decide; [done|]. intros Hg.
  apply NoDup_app. split_and!; [done| |apply NoDup_singleton].
  intros x Hx ->%list_elem_of_singleton. done.
Qed.

Lemma ensure_node_elem k h g : k ∈ (ensure_node h g).*1 ↔ k ∈ g.*1 ∨ k = h.
Proof.
  rewrite ensure_node_keys. case_decide as Hh; [|].
  { split; [tauto|]. intros [?| ->]; done. }
  rewrite elem_of_app, list_elem_of_singleton. done.
Qed.

Lemma add_child_idemp c n : add_child c (add_child c n) = add_child c n.
Proof.
  unfold add_child. cbn [commit_hash parents children]. f_equal.
  destruct (decide (c ∈ children n)) as [Hin|Hin].
  - rewrite (bool_decide_true (c ∈ children n)) by done.
    by rewrite bool_decide_true.
  - rewrite (bool_decide_false (c ∈ children n)) by done.
    rewrite bool_decide_true; [done|]. apply elem_of_app. right. by left.
Qed.

Lemma add_child_children c n x :
  x ∈ children (add_child c n) ↔ x ∈ children n ∨ x = c.
Proof.
  unfold add_child. simpl. case_bool_decide as Hc.
  { split; [tauto|]. intros [?| ->]; done. }
  rewrite elem_of_app, list_elem_of_singleton. done.
Qed.

Lemma add_child_NoDup c n : NoDup (children n) → NoDup (children (add_child c n)).
Proof.
  unfold add_child. simpl. case_bool_decide; [done|]. intros Hn.
  apply NoDup_app. split_and!; [done| |apply NoDup_singleton].
  intros x Hx ->%list_elem_of_singleton. done.
Qed.

Lemma link_parent_get c vis s p k :
  dict_get k (link_parent c vis s p).1
  = if decide (p = k) then Some (add_child c (default (new_node p) (dict_get p s.1)))
    else dict_get k s.1.
Proof.
  unfold link_parent. cbn [fst]. rewrite dict_alter_get, ensure_node_get.
  by case_decide.
Qed.

Lemma link_parent_keys c vis s p :
  (link_parent c vis s p).1.*1 = (ensure_node p s.1).*1.
Proof. unfold link_parent. cbn [fst]. by rewrite dict_alter_keys. Qed.

Lemma foldl_link_parent_get c vis ps s k :
  dict_get k (foldl (link_parent c vis) s ps).1
  = if decide (k ∈ ps)
    then Some (add_child c (default (new_node k) (dict_get k s.1)))
    else dict_get k s.1.
Proof.
  revert s. induction ps as [|p ps IH]; intros s.
  - cbn [foldl]. rewrite decide_False; [done|apply not_elem_of_nil].
  - cbn [foldl]. rewrite IH, link_parent_get.
    destruct (decide (k ∈ ps)) as [Hin|Hin],
      (decide (k ∈ p :: ps)) as [Hin'|Hin'], (decide (p = k)) as [Heq|Hne];
      subst; simpl; rewrite ?add_child_idemp; try done.
    all: rewrite elem_of_cons in Hin'; try tauto.
    destruct Hin'; [congruence|done].
Qed.

Lemma foldl_link_parent_keys c vis ps s :
  NoDup s.1.*1 →
  NoDup (foldl (link_parent c vis) s ps).1.*1
  ∧ ∀ k, k ∈ (foldl (link_parent c vis) s ps).1.*1 ↔ k ∈ s.1.*1 ∨ k ∈ ps.
Proof.
  revert s. induction ps as [|p ps IH]; intros s Hs.
  - simpl. split; [done|]. intros k. rewrite elem_of_nil. tauto.
  - cbn [foldl].
    destruct (IH (link_parent c vis s p)) as [Hnd Hk].
    { rewrite link_parent_keys. by apply ensure_node_NoDup. }
    split; [done|]. intros k. rewrite Hk, link_parent_keys, ensure_node_elem, elem_of_cons.
    tauto.
Qed.

Lemma foldl_link_parent_to_visit c (vis : gset pystr) ps s :
  (foldl (link_parent c vis) s ps).2 = s.2 ++ filter (λ p, p ∉ vis) ps.
Proof.
  revert s. induction ps as [|p ps IH]; intros s.
  - simpl. by rewrite app_nil_r.
  - cbn [foldl]. rewrite IH. unfold link_parent. cbn [snd].
    destruct (decide (p ∈ vis)).
    + rewrite bool_decide_true, filter_cons_False by auto. done.
    + rewrite bool_decide_false, filter_cons_True by auto. by rewrite <- app_assoc.
Qed.
End nodes.

(** * The decoder *)

Section utf8.
Import Utf8.

Lemma list_suffix_ind {A} (P : list A → Prop) :
  (∀ s, (∀ s', length s' < length s → P s') → P s) → ∀ s, P s.
Proof.
  intros step s. remember (length s) as n eqn:Hn. revert s Hn.
  induction n as [n IH] using lt_wf_ind. intros s ->.
  apply step. intros s' Hlt. by eapply IH.
Qed.

Ltac decode_cases :=
  repeat match goal with
  | |- context [if ?b then _ else _] => destruct b eqn:?
  | |- context [match ?r with [] => _ | _ :: _ => _ end] => destruct r as [|? ?]
  end.

Lemma decode_ignore_is_Some s : is_Some (decode ignore s).
Proof.
  induction s as [s IH] using list_suffix_ind.
  destruct s as [|b0 r0]; [by eexists|].
  cbn [decode]. cbv zeta.
  decode_cases; unfold emit, bad; rewrite ?fmap_is_Some; try (by eexists);
    apply IH; simpl; lia.
Qed.

Lemma decode_strict_ignore s t :
  decode strict s = Some t → decode ignore s = Some t.
Proof.
  revert t. induction s as [s IH] using list_suffix_ind. intros t.
  destruct s as [|b0 r0]; [done|].
  cbn [decode]. cbv zeta.
  decode_cases; unfold emit, bad; try done;
    (intros (t' & Ht & ->)%fmap_Some; erewrite IH; [done| simpl; lia | done]).
Qed.

Ltac sub_tail :=
  first [ done | apply sublist_cons; sub_tail ].
Ltac use_tests :=
  repeat match goal with
  | H : ?b = _ |- context [?b] => rewrite H
  end.
Ltac keep_with pre kept Hsub Hk :=
  exists (pre ++ kept); split;
  [ simpl; repeat apply sublist_skip; exact Hsub
  | cbn [app decode]; cbv zeta; use_tests; done ].

Lemma decode_ignore_sublist s t :
  decode ignore s = Some t →
  ∃ kept, kept `sublist_of` s ∧ decode strict kept = Some t.
Proof.
  revert t. induction s as [s IH] using list_suffix_ind. intros t.
  destruct s as [|b0 r0]; [intros [= <-]; by exists []|].
  cbn [decode]. cbv zeta.
  decode_cases; unfold emit, bad.
  all: try (intros [= <-]; exists []; split; [apply sublist_nil_l|done]).
  all: try (intros (t' & Ht & ->)%fmap_Some).
  all: try (intros Ht).
  all: apply IH in Ht as (kept & Hsub & Hk); [|simpl; lia].
  all: try (exists kept; split; [sub_tail | done]).
  all: match goal with
       | |- ∃ _, _ `sublist_of` ?b0 :: ?b1 :: ?b2 :: ?b3 :: _ ∧ _ =>
         keep_with [b0; b1; b2; b3] kept Hsub Hk
       | |- ∃ _, _ `sublist_of` ?b0 :: ?b1 :: ?b2 :: _ ∧ _ =>
         keep_with [b0; b1; b2] kept Hsub Hk
       | |- ∃ _, _ `sublist_of` ?b0 :: ?b1 :: _ ∧ _ =>
         keep_with [b0; b1] kept Hsub Hk
       | |- ∃ _, _ `sublist_of` ?b0 :: _ ∧ _ =>
         keep_with [b0] kept Hsub Hk
       end.
Qed.
Lemma low6_cont b : cont b = true → low6 b = tail_bits b.
Proof. destruct b; vm_compute; congruence. Qed.

Lemma land_shift_small a k l :
  (l < 2 ^ k)%N → N.land (a * 2 ^ k) l = 0%N.
Proof.
  intros Hl. apply N.bits_inj_0. intros n. rewrite N.land_spec.
  destruct (N.lt_ge_cases n k) as [Hn|Hn].
  - by rewrite N.mul_pow2_bits_low.
  - assert (N.testbit l n = false) as ->; [|apply andb_false_r].
    destruct (N.eq_dec l 0%N) as [->|Hl0]; [apply N.bits_0|].
    apply N.bits_above_log2, N.log2_lt_pow2; [lia|].
    eapply N.lt_le_trans; [exact Hl|]. apply N.pow_le_mono_r; lia.
Qed.

Lemma lor_shift a k l :
  (l < 2 ^ k)%N → N.lor (N.shiftl a k) l = (a * 2 ^ k + l)%N.
Proof.
  intros Hl. rewrite N.shiftl_mul_pow2.
  pose proof (land_shift_small a k l Hl) as Hland.
  by rewrite <- N.lxor_lor, <- N.add_nocarry_lxor.
Qed.

Ltac ncmp :=
  repeat match goal with
  | H : (_ <? _)%N = true |- _ => apply N.ltb_lt in H
  | H : (_ <? _)%N = false |- _ => apply N.ltb_ge in H
  | H : (_ <=? _)%N = true |- _ => apply N.leb_le in H
  | H : (_ <=? _)%N = false |- _ => apply N.leb_gt in H
  | H : (_ =? _)%N = true |- _ => apply N.eqb_eq in H
  | H : (_ =? _)%N = false |- _ => apply N.eqb_neq in H
  end;
  repeat match goal with
  | |- context [(?a =? ?b)%N] => destruct (N.eqb_spec a b); simpl
  end;
  repeat match goal with
  | |- context [(?a <? ?b)%N] => destruct (N.ltb_spec a b); simpl
  end;
  repeat match goal with
  | |- context [(?a <=? ?b)%N] => destruct (N.leb_spec a b); simpl
  end;
  try done; try lia; try (exfalso; lia).

Lemma lead_one b : (Byte.to_N b <? 0x80)%N = true → lead b = 1.
Proof. intros H. unfold lead. cbv zeta. ncmp. Qed.

Lemma lead_two b :
  (Byte.to_N b <? 0xC2)%N = false → (Byte.to_N b <? 0xE0)%N = true → lead b = 2.
Proof. intros H1 H2. unfold lead. cbv zeta. ncmp. Qed.

Lemma lead_three b :
  (Byte.to_N b <? 0xE0)%N = false → (Byte.to_N b <? 0xF0)%N = true → lead b = 3.
Proof. intros H1 H2. unfold lead. cbv zeta. ncmp. Qed.

Lemma lead_four b :
  (Byte.to_N b <? 0xF0)%N = false → (Byte.to_N b <? 0xF5)%N = true → lead b = 4.
Proof. intros H1 H2. unfold lead. cbv zeta. ncmp. Qed.

Lemma lead_none b :
  (Byte.to_N b <? 0x80)%N = false →
  (Byte.to_N b <? 0xC2)%N = true ∨ (Byte.to_N b <? 0xF5)%N = false →
  lead b = 0.
Proof. intros H1 [H2|H2]; unfold lead; cbv zeta; ncmp. Qed.

Lemma lead_cont b : cont b = true → lead b = 0.
Proof.
  unfold cont. intros [H1 H2]%andb_true_iff. apply lead_none; [|left]; ncmp.
Qed.

Lemma second_three b0 b1 :
  (Byte.to_N b0 <? 0xE0)%N = false → (Byte.to_N b0 <? 0xF0)%N = true →
  second b0 b1
  = negb (negb (cont b1)
          || (if (Byte.to_N b1 <? 0xA0)%N then (Byte.to_N b0 =? 0xE0)%N
              else (Byte.to_N b0 =? 0xED)%N)).
Proof. intros H1 H2. unfold second, cont. cbv zeta. ncmp. Qed.

Lemma second_four b0 b1 :
  (Byte.to_N b0 <? 0xF0)%N = false → (Byte.to_N b0 <? 0xF5)%N = true →
  second b0 b1
  = negb (negb (cont b1)
          || (if (Byte.to_N b1 <? 0x90)%N then (Byte.to_N b0 =? 0xF0)%N
              else (Byte.to_N b0 =? 0xF4)%N)).
Proof. intros H1 H2. unfold second, cont. cbv zeta. ncmp. Qed.

Lemma tail_bits_small b : cont b = true → (tail_bits b < 64)%N.
Proof. unfold cont, tail_bits. intros [H1 H2]%andb_true_iff. ncmp. Qed.

Lemma land_lead b mask base :
  (mask, base) = (0x1F, 0xC0)%N ∨ (mask, base) = (0x0F, 0xE0)%N
    ∨ (mask, base) = (0x07, 0xF0)%N →
  (base <=? Byte.to_N b)%N = true → (Byte.to_N b <=? base + mask)%N = true →
  N.land (Byte.to_N b) mask = (Byte.to_N b - base)%N.
Proof.
  intros [[= -> ->]|[[= -> ->]|[= -> ->]]]; destruct b; vm_compute; congruence.
Qed.

Lemma code_point_two b0 b1 :
  (Byte.to_N b0 <? 0xC2)%N = false → (Byte.to_N b0 <? 0xE0)%N = true →
  cont b1 = true →
  N.lor (N.shiftl (N.land (Byte.to_N b0) 0x1F) 6) (low6 b1)
  = ((Byte.to_N b0 - 0xC0) * 64 + tail_bits b1)%N.
Proof.
  intros H1 H2 Hc. rewrite low6_cont by done.
  rewrite (land_lead b0 0x1F 0xC0) by (auto; ncmp).
  apply (lor_shift _ 6). by apply tail_bits_small.
Qed.

Lemma code_point_three b0 b1 b2 :
  (Byte.to_N b0 <? 0xE0)%N = false → (Byte.to_N b0 <? 0xF0)%N = true →
  cont b1 = true → cont b2 = true →
  N.lor (N.shiftl (N.land (Byte.to_N b0) 0x0F) 12)
    (N.lor (N.shiftl (low6 b1) 6) (low6 b2))
  = ((Byte.to_N b0 - 0xE0) * 4096 + tail_bits b1 * 64 + tail_bits b2)%N.
Proof.
  intros H1 H2 Hc1 Hc2. rewrite !low6_cont by done.
  pose proof (tail_bits_small b1 Hc1). pose proof (tail_bits_small b2 Hc2).
  rewrite (land_lead b0 0x0F 0xE0) by (auto; ncmp).
  rewrite (lor_shift _ 6) by done. rewrite (lor_shift _ 12) by (simpl; lia).
  simpl. lia.
Qed.

Lemma code_point_four b0 b1 b2 b3 :
  (Byte.to_N b0 <? 0xF0)%N = false → (Byte.to_N b0 <? 0xF5)%N = true →
  cont b1 = true → cont b2 = true → cont b3 = true →
  N.lor (N.shiftl (N.land (Byte.to_N b0) 0x07) 18)
    (N.lor (N.shiftl (low6 b1) 12) (N.lor (N.shiftl (low6 b2) 6) (low6 b3)))
  = ((Byte.to_N b0 - 0xF0) * 262144 + tail_bits b1 * 4096
     + tail_bits b2 * 64 + tail_bits b3)%N.
Proof.
  intros H1 H2 Hc1 Hc2 Hc3. rewrite !low6_cont by done.
  pose proof (tail_bits_small b1 Hc1). pose proof (tail_bits_small b2 Hc2).
  pose proof (tail_bits_small b3 Hc3).
  rewrite (land_lead b0 0x07 0xF0) by (auto; ncmp).
  rewrite (lor_shift _ 6) by done. rewrite (lor_shift _ 12) by (simpl; lia).
  rewrite (lor_shift _ 18) by (simpl; lia).
  simpl. lia.
Qed.

Lemma drop_malformed_skip s : ∀ k,
  drop_malformed k s = drop_malformed 0 (drop k s).
Proof.
  induction s as [|b r IH]; intros [|k]; try done. simpl. apply IH.
Qed.

Lemma drop_malformed_cont b r :
  cont b = true → drop_malformed 0 (b :: r) = drop_malformed 0 r.
Proof. intros Hc. cbn [drop_malformed well_formed]. by rewrite lead_cont. Qed.

Lemma decode_ignore_table s :
  decode ignore s = Some (drop_malformed 0 s).
Proof.
  induction s as [s IH] using list_suffix_ind.
  destruct s as [|b0 r0]; [done|].
  cbn [decode drop_malformed well_formed]. cbv zeta.
  destruct (Byte.to_N b0 <? 0x80)%N eqn:H80.
  { rewrite lead_one by done. unfold emit. rewrite IH by (simpl; lia). done. }
  destruct (Byte.to_N b0 <? 0xC2)%N eqn:HC2.
  { rewrite lead_none by auto. unfold bad. apply IH. simpl. lia. }
  destruct (Byte.to_N b0 <? 0xE0)%N eqn:HE0.
  { rewrite lead_two by done. destruct r0 as [|b1 r1]; [done|].
    destruct (cont b1) eqn:Hc1.
    - unfold emit. rewrite IH by (simpl; lia). rewrite code_point_two by done. done.
    - unfold bad. apply IH. simpl. lia. }
  destruct (Byte.to_N b0 <? 0xF0)%N eqn:HF0.
  { rewrite lead_three by done. destruct r0 as [|b1 r1]; [done|].
    pose proof (second_three b0 b1 HE0 HF0) as Hsec.
    destruct (negb (cont b1) || _) eqn:Hbad; simpl in Hsec.
    - unfold bad. rewrite IH by (simpl; lia). f_equal.
      destruct r1 as [|b2 r2]; [done|]. by rewrite Hsec.
    - apply orb_false_iff in Hbad as [Hc1%negb_false_iff _].
      destruct r1 as [|b2 r2].
      + unfold bad. cbv beta iota. by rewrite drop_malformed_cont.
      + rewrite Hsec. destruct (cont b2) eqn:Hc2; cbn [andb negb]; cbv beta iota.
        * unfold emit. rewrite IH by (simpl; lia).
          rewrite code_point_three by done. done.
        * unfold bad. rewrite IH by (simpl; lia). cbv beta iota.
          by rewrite (drop_malformed_cont b1). }
  destruct (Byte.to_N b0 <? 0xF5)%N eqn:HF5.
  { rewrite lead_four by done. destruct r0 as [|b1 r1]; [done|].
    pose proof (second_four b0 b1 HF0 HF5) as Hsec.
    destruct (negb (cont b1) || _) eqn:Hbad; simpl in Hsec.
    - unfold bad. rewrite IH by (simpl; lia). f_equal.
      destruct r1 as [|b2 [|b3 r3]]; [done..|]. by rewrite Hsec.
    - apply orb_false_iff in Hbad as [Hc1%negb_false_iff _].
      destruct r1 as [|b2 r2].
      + unfold bad. cbv beta iota. by rewrite drop_malformed_cont.
      + destruct (cont b2) eqn:Hc2; cbn [andb negb]; cbv beta iota.
        * destruct r2 as [|b3 r3].
          -- unfold bad. cbv beta iota. by rewrite !drop_malformed_cont.
          -- rewrite Hsec. destruct (cont b3) eqn:Hc3; cbn [andb negb]; cbv beta iota.
             ++ unfold emit. rewrite IH by (simpl; lia).
                rewrite code_point_four by done. done.
             ++ unfold bad. rewrite IH by (simpl; lia). cbv beta iota.
                by rewrite (drop_malformed_cont b1), (drop_malformed_cont b2).
        * unfold bad. rewrite IH by (simpl; lia).
          assert (drop_malformed 0 (b1 :: b2 :: r2) = drop_malformed 0 (b2 :: r2))
            as <- by (by apply drop_malformed_cont).
          destruct r2 as [|b3 r3]; [done|]. rewrite Hsec. by cbn [andb]. }
  rewrite lead_none by auto. unfold bad. apply IH. simpl. lia.
Qed.
End utf8.

(** * The search for parent lines *)

Section re.
Import Re.

Ltac ncases :=
  repeat match goal with
  | H : context [(?a <=? ?b)%N] |- _ => destruct (N.leb_spec a b); simpl in H
  | H : context [(?a =? ?b)%N] |- _ => destruct (N.eqb_spec a b); simpl in H
  | |- context [(?a <=? ?b)%N] => destruct (N.leb_spec a b); simpl
  | |- context [(?a =? ?b)%N] => destruct (N.eqb_spec a b); simpl
  end.

Lemma is_hex_not_nl c : is_hex c = true → (c =? 10)%N = false.
Proof. unfold is_hex, lower. intros H. ncases; try done; lia. Qed.

Lemma is_hex_not_p c : is_hex c = true → lower c ≠ 112%N.
Proof. unfold is_hex, lower. intros H. ncases; try done; lia. Qed.

Lemma lower_nl c : (c =? 10)%N = true → lower c = 10%N.
Proof. intros ->%N.eqb_eq. done. Qed.

Lemma keyword_no_nl kw :
  lower <$> kw = py "parent" → Forall (λ c, (c =? 10)%N = false) kw.
Proof.
  intros H. apply Forall_forall. intros c Hc.
  destruct (c =? 10)%N eqn:E; [|done]. apply lower_nl in E.
  assert (10%N ∈ lower <$> kw) as Hin by (rewrite <- E; by apply list_elem_of_fmap_2).
  rewrite H in Hin. unfold py in Hin. simpl in Hin.
  repeat (apply elem_of_cons in Hin as [?|Hin]; [done|]). by apply elem_of_nil in Hin.
Qed.

Lemma forallb_Forall {A} (f : A → bool) l :
  forallb f l = true ↔ Forall (λ x, f x = true) l.
Proof.
  induction l as [|x l IH]; simpl; [by split|].
  rewrite andb_true_iff, Forall_cons, IH. done.
Qed.

Lemma match_here_Some s h :
  match_here s = Some h ↔
  ∃ kw ws rest,
    s = kw ++ ws :: h ++ rest
    ∧ lower <$> kw = py "parent"
    ∧ is_space ws = true
    ∧ length h = 40
    ∧ Forall (λ c, is_hex c = true) h
    ∧ at_eol rest = true.
Proof.
  unfold match_here. split.
  - case_bool_decide as Hkw; [|done].
    destruct (drop 6 s) as [|ws s2] eqn:Hd; [done|].
    destruct (is_space ws) eqn:Hws; [|done].
    case_bool_decide as Hlen; [|done].
    destruct (forallb is_hex (take 40 s2)) eqn:Hhex; [|done].
    destruct (at_eol (drop 40 s2)) eqn:Heol; [|done].
    intros [= <-]. exists (take 6 s), ws, (drop 40 s2).
    rewrite take_drop, <- Hd, take_drop.
    rewrite forallb_Forall in Hhex. done.
  - intros (kw & ws & rest & -> & Hkw & Hws & Hlen & Hhex & Heol).
    assert (length kw = 6) as Hk.
    { rewrite <- (length_fmap lower), Hkw. done. }
    rewrite take_app_length' by done. rewrite bool_decide_true by done.
    rewrite drop_app_length' by done.
    rewrite take_app_length', drop_app_length' by done.
    rewrite Hws, Heol, bool_decide_true by done.
    apply forallb_Forall in Hhex. by rewrite Hhex.
Qed.

Lemma scan_skip k l r b :
  length l = k →
  scan k b (l ++ r) = scan 0 (from_option (λ c, c =? 10)%N b (last l)) r.
Proof.
  revert k b. induction l as [|c l IH]; intros k b <-; [done|].
  simpl. rewrite IH by done. destruct l as [|x l]; [done|].
  rewrite last_cons_cons. destruct (last (x :: l)) eqn:E; [done|]. by apply last_None in E.
Qed.


Lemma scan_all_quiet l r :
  Forall (λ c, (c =? 10)%N = false) l →
  scan_all false (l ++ r) = scan_all false r.
Proof. induction 1 as [|c l Hc _ IH]; [done|]. simpl. by rewrite Hc. Qed.

Lemma match_here_hex_None h rest :
  Forall (λ c, is_hex c = true) h → length h = 40 → match_here (h ++ rest) = None.
Proof.
  intros Hhex Hlen. destruct h as [|c h]; [done|].
  unfold match_here. rewrite bool_decide_false; [done|].
  apply Forall_cons_1 in Hhex as [Hc _]. apply is_hex_not_p in Hc.
  intros [=]. done.
Qed.

Lemma scan_scan_all s b : scan 0 b s = scan_all b s.
Proof.
  revert b. remember (length s) as n eqn:Hn. revert s Hn.
  induction n as [n IH] using lt_wf_ind. intros s -> b.
  destruct s as [|c r]; [done|]. cbn [scan scan_all].
  destruct (if b then match_here (c :: r) else None) as [h|] eqn:Hm.
  - destruct b; [|done].
    apply match_here_Some in Hm as (kw & ws & rest & Hs & Hkw & Hws & Hlen & Hhex & Heol).
    pose proof (keyword_no_nl _ Hkw) as Hnn.
    destruct kw as [|c' kw]; [done|]. simplify_eq/=.
    apply Forall_cons_1 in Hnn as [Hc Hnn]. rewrite Hc.
    assert (∃ h0 h', h = h' ++ [h0]) as (h0 & h' & ->).
    { destruct h as [|x h] using rev_ind; [done|]. eauto. }
    assert (length kw = 5) as Hk.
    { injection Hkw as _ Hkw. apply (f_equal length) in Hkw.
      by rewrite length_fmap in Hkw. }
    assert ((h0 =? 10)%N = false) as Hh0.
    { apply is_hex_not_nl. rewrite Forall_app, Forall_singleton in Hhex. tauto. }
    f_equal. trans (scan 0 false rest).
    + assert (kw ++ ws :: (h' ++ [h0]) ++ rest
              = ((kw ++ ws :: h') ++ [h0]) ++ rest) as ->.
      { by rewrite <- !app_assoc. }
      rewrite (scan_skip 46), last_snoc; [by simpl; rewrite Hh0|].
      rewrite !length_app in *. simpl in *. lia.
    + rewrite IH with (m := length rest) (s := rest) by
        (rewrite ?length_app; simpl; rewrite ?length_app; simpl; lia || done).
      rewrite scan_all_quiet by done.
      destruct (h' ++ [h0]) as [|x hh] eqn:Hh; [by destruct h'|].
      pose proof (match_here_hex_None _ rest Hhex Hlen) as Hno.
      apply Forall_cons_1 in Hhex as [Hx Hhex].
      cbn [app scan_all] in *. rewrite Hno, (is_hex_not_nl x) by done.
      assert (option_list (if (ws =? 10)%N then None else None) = @nil pystr)
        as -> by (by destruct (ws =? 10)%N).
      symmetry. apply scan_all_quiet. eapply Forall_impl; [exact Hhex|].
      intros ? ?. by apply is_hex_not_nl.
  - simpl. apply (IH (length r)); [simpl; lia|done].
Qed.

Lemma scan_all_positions pre s :
  scan_all (bol (pre ++ s) (length pre)) s
  = omap (match_at (pre ++ s)) (seq (length pre) (length s)).
Proof.
  revert pre. induction s as [|c r IH]; intros pre; [done|].
  cbn [scan_all length seq omap list_omap].
  change (list_omap _ _ ?f ?l) with (omap f l).
  assert (match_at (pre ++ c :: r) (length pre)
          = if bol (pre ++ c :: r) (length pre) then match_here (c :: r) else None)
    as -> by (unfold match_at; by rewrite drop_app_length).
  assert (scan_all (c =? 10)%N r
          = omap (match_at (pre ++ c :: r)) (seq (S (length pre)) (length r))) as ->.
  { specialize (IH (pre ++ [c])). rewrite length_app, <- app_assoc in IH.
    simpl in IH. rewrite Nat.add_1_r in IH. rewrite <- IH. f_equal.
    simpl. rewrite list_lookup_middle by done.
    destruct (N.eqb_spec c 10) as [->|]; [by rewrite bool_decide_true|].
    rewrite bool_decide_false; [done|]. by intros [=]. }
  by destruct (if bol _ _ then _ else _).
Qed.

Lemma findall_positions text :
  findall text = omap (match_at text) (seq 0 (length text)).
Proof.
  unfold findall. rewrite scan_scan_all. apply (scan_all_positions [] text).
Qed.

Lemma match_at_parent_line text i h :
  match_at text i = Some h ↔ parent_line_at text i h.
Proof.
  unfold match_at, parent_line_at. split.
  - destruct (bol text i) eqn:Hb; [|done].
    intros (kw & ws & rest & ? & ? & ? & ? & ? & Heol)%match_here_Some.
    exists kw, ws, rest. repeat split; try done.
    + destruct i; [by left|right]. simpl in *. rewrite Nat.sub_0_r.
      by case_bool_decide.
    + destruct rest as [|c rest]; [by left|right].
      simpl in Heol. apply N.eqb_eq in Heol as ->. eauto.
  - intros (kw & ws & rest & ? & Hb & ? & ? & ? & ? & Heol).
    assert (bol text i = true) as ->.
    { destruct i; [done|]. simpl in *. rewrite Nat.sub_0_r in Hb.
      destruct Hb as [|Hb]; [done|]. by rewrite bool_decide_true. }
    apply match_here_Some. exists kw, ws, rest. repeat split; try done.
    destruct Heol as [->|[? ->]]; done.
Qed.
End re.

(** * Sorting *)

Section sorting.
Lemma str_leb_total x y : str_leb x y = true ∨ str_leb y x = true.
Proof.
  unfold str_leb. revert y. induction x as [|a x IH]; intros [|b y]; simpl; auto.
  rewrite (N.eqb_sym b a). destruct (N.eqb_spec a b) as [->|Hne]; [apply IH|].
  rewrite !N.leb_le. lia.
Qed.

Lemma str_leb_trans x y z :
  str_leb x y = true → str_leb y z = true → str_leb x z = true.
Proof.
  unfold str_leb. revert y z.
  induction x as [|a x IH]; intros [|b y] [|c z]; simpl; try done.
  destruct (N.eqb_spec a b) as [->|Hab]; destruct (N.eqb_spec b c) as [->|Hbc];
    rewrite ?N.eqb_refl; try (destruct (N.eqb_spec a c) as [->|Hac]);
    rewrite ?N.leb_le; eauto; try lia.
  all: try (destruct (N.eqb_spec b c); [done|]); rewrite ?N.leb_le; try lia.
Qed.

Lemma str_leb_antisym x y : str_leb x y = true → str_leb y x = true → x = y.
Proof.
  unfold str_leb. revert y. induction x as [|a x IH]; intros [|b y]; simpl; try done.
  rewrite (N.eqb_sym b a). destruct (N.eqb_spec a b) as [->|Hne].
  - intros. f_equal. by apply IH.
  - rewrite !N.leb_le. lia.
Qed.

Global Instance str_le_total : Total str_le.
Proof. intros x y. apply str_leb_total. Qed.
Global Instance str_le_trans : Transitive str_le.
Proof. intros x y z. apply str_leb_trans. Qed.
Global Instance str_le_antisym : AntiSymm eq str_le.
Proof. intros x y. apply str_leb_antisym. Qed.
End sorting.


(** * The loader *)

Section loader.
Variable decompress : list byte → option (list byte).
Variable store : gmap (pystr * pystr) (list byte).
Variable heads : list (pystr * pystr).

Lemma loader_inv_init : loader_inv decompress store heads (loader_init heads).
Proof.
  split; simpl.
  - apply NoDup_nil_2.
  - intros h Hh. by apply not_elem_of_empty in Hh.
  - intros k Hk. by apply elem_of_nil in Hk.
  - auto.
  - done.
  - done.
  - intros k [Hk|Hk]; [by apply elem_of_nil in Hk|by apply reach_tip].
Qed.

Lemma loader_inv_skip st c rest :
  loader_inv decompress store heads st → to_visit st = rest ++ [c] → c ∈ visited st →
  loader_inv decompress store heads {| l_graph := l_graph st; to_visit := rest; visited := visited st |}.
Proof.
  intros [Hnd Hvis Hpend Hheads Hchild Hnodes Hreach] Htv Hc. split; simpl; try done.
  - intros k Hk. destruct (Hpend k Hk) as [|Hin]; [by left|].
    rewrite Htv, elem_of_app, list_elem_of_singleton in Hin.
    destruct Hin as [? | ->]; auto.
  - intros k Hk. destruct (Hheads k Hk) as [|Hin]; [by left|].
    rewrite Htv, elem_of_app, list_elem_of_singleton in Hin.
    destruct Hin as [? | ->]; auto.
  - intros k Hk. apply Hreach. rewrite Htv, elem_of_app. tauto.
Qed.

Lemma expand_get st c rest ps k :
  dict_get k (l_graph (expand st c rest ps))
  = let base :=
      if decide (c = k) then Some (set_parents ps (node_or_new (l_graph st) c))
      else dict_get k (l_graph st) in
    if decide (k ∈ ps) then Some (add_child c (default (new_node k) base))
    else base.
Proof.
  unfold expand. cbn [l_graph]. rewrite foldl_link_parent_get. cbn [fst].
  rewrite dict_alter_get, ensure_node_get. cbv zeta.
  destruct (decide (c = k)) as [-> |Hne]; done.
Qed.

Lemma expand_keys st c rest ps :
  NoDup (l_graph st).*1 →
  NoDup (l_graph (expand st c rest ps)).*1
  ∧ ∀ k, k ∈ (l_graph (expand st c rest ps)).*1
         ↔ k ∈ (l_graph st).*1 ∨ k = c ∨ k ∈ ps.
Proof.
  intros Hnd. unfold expand. cbn [l_graph].
  edestruct foldl_link_parent_keys as [Hnd' Hk]; [|split; [exact Hnd'|]].
  { cbn [fst]. rewrite dict_alter_keys. by apply ensure_node_NoDup. }
  intros k. rewrite Hk. cbn [fst]. rewrite dict_alter_keys, ensure_node_elem. tauto.
Qed.

Lemma expand_to_visit st c rest ps :
  to_visit (expand st c rest ps) = rest ++ filter (λ p, p ∉ visited st) ps.
Proof. unfold expand. cbn [to_visit]. by rewrite foldl_link_parent_to_visit. Qed.

Lemma expand_visited st c rest ps :
  visited (expand st c rest ps) = {[c]} ∪ visited st.
Proof. done. Qed.

Lemma node_or_new_hash g k :
  (∀ k node, dict_get k g = Some node → commit_hash node = k ∧ NoDup (children node)) →
  commit_hash (node_or_new g k) = k ∧ NoDup (children (node_or_new g k)).
Proof.
  intros Hg. unfold node_or_new. destruct (dict_get k g) eqn:E; simpl; [by apply Hg|].
  split; [done|apply NoDup_nil_2].
Qed.

Lemma loader_inv_expand st c rest ps :
  loader_inv decompress store heads st → to_visit st = rest ++ [c] → c ∉ visited st →
  declared decompress store c = Some ps →
  loader_inv decompress store heads (expand st c rest ps).
Proof.
  intros [Hnd0 Hvis Hpend Hheads Hchild Hnodes Hreach] Htv Hc Hps.
  destruct (expand_keys st c rest ps Hnd0) as [Hnd Hkeys].
  assert (reachable decompress store heads c) as Hrc.
  { apply Hreach. right. rewrite Htv, elem_of_app, list_elem_of_singleton. auto. }
  split.
  - done.
  - (* visited *)
    intros h. rewrite expand_visited, elem_of_union, elem_of_singleton.
    intros [-> |Hh].
    + assert (∀ p, p ∈ ps → ∃ pn, dict_get p (l_graph (expand st c rest ps)) = Some pn
                                 ∧ c ∈ children pn) as Hlinks; cycle 1.
      { exists ps. rewrite expand_get. cbv zeta.
        rewrite (decide_True (P := c = c)) by done.
        destruct (decide (c ∈ ps)); eexists; (split; [done|]); (split; [done|]);
          (split; [done|]); exact Hlinks. }
      intros p Hp. rewrite expand_get. cbv zeta. rewrite (decide_True (P := p ∈ ps)) by done.
      eexists. split; [done|]. apply add_child_children. by right.
    + destruct (Hvis h Hh) as (psh & node & Hd & Hg & Hpar & Hch).
      assert (c ≠ h) as Hne by congruence.
      assert (∀ p, p ∈ psh → ∃ pn, dict_get p (l_graph (expand st c rest ps)) = Some pn
                                  ∧ h ∈ children pn) as Hlinks; cycle 1.
      { exists psh. rewrite expand_get. cbv zeta.
        rewrite (decide_False (P := c = h)), Hg by done.
        destruct (decide (h ∈ ps)); eexists; (split; [done|]); (split; [done|]);
          (split; [done|]); exact Hlinks. }
      intros p Hp. destruct (Hch p Hp) as (pn & Hpn & Hin).
      rewrite expand_get. cbv zeta. unfold node_or_new. rewrite Hpn.
      destruct (decide (c = p)) as [-> |?], (decide (p ∈ ps));
        rewrite ?Hpn; simpl; eexists; split; try done.
      all: try (apply add_child_children; by left).
  - (* pending *)
    intros k. rewrite Hkeys, expand_visited, expand_to_visit, elem_of_union,
      elem_of_singleton, elem_of_app, list_elem_of_filter.
    intros [Hk|[-> |Hk]]; [| by left; left |].
    + destruct (Hpend k Hk) as [|Hin]; [by left; right|].
      rewrite Htv, elem_of_app, list_elem_of_singleton in Hin.
      destruct Hin as [? | ->]; [by right; left| by left; left].
    + destruct (decide (k ∈ visited st)); [by left; right| by right; right].
  - (* heads *)
    intros k Hk. rewrite expand_visited, expand_to_visit, elem_of_union,
      elem_of_singleton, elem_of_app.
    destruct (Hheads k Hk) as [|Hin]; [by left; right|].
    rewrite Htv, elem_of_app, list_elem_of_singleton in Hin.
    destruct Hin as [? | ->]; [by right; left| by left; left].
  - (* children *)
    intros p pn c'. rewrite expand_get, expand_visited, elem_of_union, elem_of_singleton.
    cbv zeta. unfold node_or_new.
    assert (∀ n, dict_get p (l_graph st) = Some n → c' ∈ children n →
                 (c' = c ∨ c' ∈ visited st)
                 ∧ ∃ ps', declared decompress store c' = Some ps' ∧ p ∈ ps') as Hold.
    { intros n Hn Hin. destruct (Hchild p n c' Hn Hin) as [? ?]. auto. }
    destruct (decide (p ∈ ps)) as [Hp|Hp].
    + intros [= <-]. rewrite add_child_children. intros [Hin| ->]; [|by eauto].
      destruct (decide (c = p)) as [-> |?]; simpl in Hin.
      * destruct (dict_get p (l_graph st)) eqn:E; simpl in Hin; [by eapply Hold|].
        by apply elem_of_nil in Hin.
      * destruct (dict_get p (l_graph st)) eqn:E; simpl in Hin; [by eapply Hold|].
        by apply elem_of_nil in Hin.
    + destruct (decide (c = p)) as [-> |?].
      * intros [= <-]. simpl.
        destruct (dict_get p (l_graph st)) eqn:E; simpl; [by eapply Hold|].
        by intros ?%elem_of_nil.
      * intros Hn Hin. by eapply Hold.
  - (* nodes *)
    intros k node. rewrite expand_get. cbv zeta.
    pose proof (node_or_new_hash (l_graph st) c Hnodes) as [Hc1 Hc2].
    destruct (decide (k ∈ ps)), (decide (c = k)) as [-> |?]; simpl.
    + intros [= <-]. split; [done|]. by apply add_child_NoDup.
    + pose proof (node_or_new_hash (l_graph st) k Hnodes) as [Hk1 Hk2].
      intros [= <-]. split; [done|]. by apply add_child_NoDup.
    + by intros [= <-].
    + by apply Hnodes.
  - (* reachable *)
    intros k. rewrite Hkeys, expand_to_visit, elem_of_app, list_elem_of_filter.
    intros [[Hk|[-> |Hk]]|[Hk|[_ Hk]]]; try done.
    + apply Hreach. by left.
    + by eapply reach_parent.
    + apply Hreach. right. rewrite Htv, elem_of_app. by left.
    + by eapply reach_parent.
Qed.
Lemma object_path_inj h1 h2 : object_path h1 = object_path h2 → h1 = h2.
Proof.
  unfold object_path. intros [= Ht Hd].
  by rewrite <- (take_drop 2 h1), <- (take_drop 2 h2), Ht, Hd.
Qed.

Lemma parse_parents_Raise contents e :
  parse_parents decompress contents = Raise e →
  e = ZlibError ∧ decompress contents = None.
Proof.
  unfold parse_parents. destruct (decompress contents) as [raw|]; [|by intros [= <-]].
  by destruct (decode_ignore_is_Some raw) as [text ->].
Qed.

Lemma parse_parents_fuel contents : parse_parents decompress contents ≠ OutOfFuel.
Proof.
  unfold parse_parents. destruct (decompress contents) as [raw|]; [|done].
  by destruct (Utf8.decode Utf8.ignore raw).
Qed.

Lemma declared_Some h ps :
  declared decompress store h = Some ps ↔
  (0%N ∉ h)
  ∧ ∃ contents, store !! object_path h = Some contents
                ∧ parse_parents decompress contents = Ok ps.
Proof.
  unfold declared. case_bool_decide as Hnul; [split; [done|tauto]|].
  destruct (store !! object_path h) as [contents|].
  - split.
    + destruct (parse_parents decompress contents) eqn:E; intros [= <-]; eauto.
    + by intros (_ & ? & [= <-] & ->).
  - split; [done|]. by intros (_ & ? & ? & _).
Qed.

Lemma get_graph_loop_spec (fuel : nat) (st : loader) (opened : list pystr) :
  loader_inv decompress store heads st →
  NoDup opened → (∀ h, h ∈ opened → h ∈ visited st) →
  NoDup (get_graph_loop decompress fuel store st opened).1
  ∧ match (get_graph_loop decompress fuel store st opened).2 with
    | Ok st' => loader_inv decompress store heads st' ∧ to_visit st' = []
    | Raise e => raised_by decompress store (get_graph_loop decompress fuel store st opened).1 e
    | OutOfFuel => True
    end.
Proof.
  revert st opened. induction fuel as [|fuel IH]; intros st opened Hinv Hnd Hop; [done|].
  cbn [get_graph_loop].
  destruct (pop (to_visit st)) as [[c rest]|] eqn:Hpop.
  - apply pop_Some in Hpop. case_bool_decide as Hc.
    + apply IH; [by eapply loader_inv_skip|done|done].
    + assert (NoDup (opened ++ [c])) as Hnd'.
      { apply NoDup_app. split_and!; [done| |apply NoDup_singleton].
        intros h Hh ->%list_elem_of_singleton. auto. }
      case_bool_decide as Hnul.
      { split; [done|]. cbn [fst snd]. exists c. rewrite last_snoc. auto. }
      destruct (store !! object_path c) as [contents|] eqn:Hst.
      * destruct (parse_parents decompress contents) as [ps|e|] eqn:Hparse.
        -- apply IH; [|done|].
           ++ apply loader_inv_expand; [done..|]. apply declared_Some. eauto.
           ++ intros h. rewrite elem_of_app, list_elem_of_singleton, expand_visited.
              intros [?| ->]; [|by apply elem_of_union_l, elem_of_singleton].
              apply elem_of_union_r. auto.
        -- split; [done|]. cbn [fst snd]. exists c. rewrite last_snoc. split; [done|].
           apply parse_parents_Raise in Hparse as [-> ?]. right. right. eauto.
        -- done.
      * split; [done|]. cbn [fst snd]. exists c. rewrite last_snoc.
        split; [done|]. right. left. done.
  - apply pop_None in Hpop. done.
Qed.

(** Termination *)
Lemma store_cost_delete m path contents :
  m !! path = Some contents →
  store_cost decompress m = object_cost decompress (path, contents) + store_cost decompress (delete path m).
Proof.
  intros Hm. unfold store_cost. by rewrite <- (map_to_list_delete m path contents Hm).
Qed.

Lemma filter_length_le {A} (P : A → Prop) `{∀ x, Decision (P x)} (l : list A) :
  length (filter P l) ≤ length l.
Proof. apply length_filter. Qed.

Lemma get_graph_loop_terminates (fuel : nat) (st : loader) (opened : list pystr)
    (rem : gmap (pystr * pystr) (list byte)) :
  (∀ h, h ∉ visited st → rem !! object_path h = store !! object_path h) →
  length (to_visit st) + store_cost decompress rem < fuel →
  (get_graph_loop decompress fuel store st opened).2 ≠ OutOfFuel.
Proof.
  revert st opened rem. induction fuel as [|fuel IH]; intros st opened rem Hrem Hlt; [lia|].
  cbn [get_graph_loop].
  destruct (pop (to_visit st)) as [[c rest]|] eqn:Hpop; [|done].
  apply pop_Some in Hpop. rewrite Hpop, length_app in Hlt. simpl in Hlt.
  case_bool_decide as Hc.
  - apply (IH _ _ rem); [done|]. simpl. lia.
  - case_bool_decide as Hnul; [done|].
    destruct (store !! object_path c) as [contents|] eqn:Hst; [|done].
    destruct (parse_parents decompress contents) as [ps|e|] eqn:Hparse; [|done|].
    + apply (IH _ _ (delete (object_path c) rem)).
      * intros h. rewrite expand_visited, not_elem_of_union, not_elem_of_singleton.
        intros [Hne Hh]. rewrite lookup_delete_ne; [auto|].
        intros ?%object_path_inj. done.
      * rewrite expand_to_visit, length_app.
        pose proof (filter_length_le (λ p, p ∉ visited st) ps).
        rewrite (store_cost_delete rem (object_path c) contents) in Hlt
          by (by rewrite Hrem).
        unfold object_cost in Hlt. cbn [snd] in Hlt. rewrite Hparse in Hlt. lia.
    + by apply parse_parents_fuel in Hparse.
Qed.
End loader.

(** * The sort *)

Section sort.
Variable order : SetOrder.
Variable g0 : graph.
Hypothesis Hwl : well_linked g0.

Lemma settled_keys g l : settled g0 g l → ∀ h, h ∈ hashes l → h ∈ g0.*1.
Proof.
  intros Hs h (n & -> & Hn)%list_elem_of_fmap.
  destruct (Hs n Hn) as (n0 & _ & Hn0 & _). by eapply dict_get_Some_key.
Qed.

Lemma settled_length g l : settled g0 g l → NoDup (hashes l) → length l ≤ length g0.
Proof.
  intros Hs Hnd. rewrite <- (length_fmap commit_hash l), <- (length_fmap fst g0).
  apply submseteq_length, NoDup_submseteq; [done|]. by eapply settled_keys.
Qed.

Lemma release_step (parent : CommitNode) (E : list CommitNode) g R c todo :
  pruned g0 g (hashes E) (Some (commit_hash parent)) (c :: todo) →
  NoDup (hashes (E ++ [parent] ++ R)) →
  settled g0 g (E ++ [parent] ++ R) →
  NoDup (c :: todo) →
  (∃ cn0, dict_get c g0 = Some cn0 ∧ commit_hash parent ∈ parents cn0) →
  ∃ g' R', release parent (g, R) c = Ok (g', R')
    ∧ pruned g0 g' (hashes E) (Some (commit_hash parent)) todo
    ∧ NoDup (hashes (E ++ [parent] ++ R'))
    ∧ settled g0 g' (E ++ [parent] ++ R').
Proof.
  intros [Hkeys Hpr] Hnd Hset Htodo (cn0 & Hcn0 & Hp).
  apply NoDup_cons in Htodo as [Hc Htodo].
  assert (is_Some (dict_get c g)) as [cn Hcn].
  { apply dict_get_is_Some. rewrite Hkeys. by eapply dict_get_Some_key. }
  destruct (Hpr c cn Hcn) as (cn0' & Hcn0' & Hch & Hhash & Hpar).
  assert (cn0' = cn0) as -> by congruence.
  assert (commit_hash parent ∉ hashes E) as HpE.
  { unfold hashes in Hnd. rewrite fmap_app in Hnd. apply NoDup_app in Hnd as (_ & Hd & _).
    intros Hin. apply (Hd _ Hin). rewrite fmap_app. apply elem_of_app. left. by left. }
  assert (commit_hash parent ∈ parents cn) as Hpcn.
  { apply Hpar; [done|done|]. right. by left. }
  assert (c ∉ hashes (E ++ [parent] ++ R)) as Hfresh.
  { intros (n & Hn & Hin)%list_elem_of_fmap.
    destruct (Hset n Hin) as (? & cur & _ & _ & Hcur & Hempty).
    rewrite <- Hn, Hcn in Hcur. injection Hcur as <-.
    rewrite Hempty in Hpcn. by apply not_elem_of_empty in Hpcn. }
  assert (pruned g0 (dict_alter (rm_parent (commit_hash parent)) c g) (hashes E)
            (Some (commit_hash parent)) todo) as Hpr'.
  { split; [by rewrite dict_alter_keys|].
    intros k n. rewrite dict_alter_get. destruct (decide (c = k)) as [<-|Hne].
    - rewrite Hcn. intros [= <-]. exists cn0. split_and!; try done.
      intros q Hq HqE [Hq'|Hq']; [|done].
      apply elem_of_difference. split.
      + apply Hpar; auto.
      + apply not_elem_of_singleton. congruence.
    - intros Hn. destruct (Hpr k n Hn) as (n0 & ? & ? & ? & Hpar').
      exists n0. split_and!; try done. intros q Hq HqE Hor. apply Hpar'; try done.
      destruct Hor as [|Hin]; [by left|right]. by right. }
  assert (∀ l, settled g0 g l → c ∉ hashes l →
               settled g0 (dict_alter (rm_parent (commit_hash parent)) c g) l) as Hkeep.
  { intros l Hl Hcl n Hn. destruct (Hl n Hn) as (n0 & cur & ? & ? & ? & ?).
    exists n0, cur. split_and!; try done. rewrite dict_alter_get, decide_False; [done|].
    intros ->. apply Hcl. by apply list_elem_of_fmap_2. }
  unfold release. cbn [fst snd]. rewrite Hcn.
  case_bool_decide as Hempty; do 2 eexists; (split; [done|]); (split; [done|]).
  - split.
    + rewrite !app_assoc. unfold hashes. rewrite (fmap_app _ _ [_]).
      apply NoDup_app. split_and!.
      * by rewrite <- app_assoc.
      * intros h Hh ->%list_elem_of_singleton. simpl in Hh.
        rewrite Hhash, <- app_assoc in Hh. by apply Hfresh.
      * apply NoDup_singleton.
    + rewrite !app_assoc. intros n [Hn| ->%list_elem_of_singleton]%elem_of_app.
      * rewrite <- app_assoc in Hn. by apply (Hkeep _ Hset Hfresh).
      * simpl. rewrite Hhash. exists cn0, (rm_parent (commit_hash parent) cn).
        split_and!; try done. by rewrite dict_alter_get, decide_True, Hcn.
  - split; [done|]. by apply Hkeep.
Qed.

Lemma for_each_release (parent : CommitNode) (E : list CommitNode) todo g R :
  pruned g0 g (hashes E) (Some (commit_hash parent)) todo →
  NoDup (hashes (E ++ [parent] ++ R)) →
  settled g0 g (E ++ [parent] ++ R) →
  NoDup todo →
  (∀ c, c ∈ todo → ∃ cn0, dict_get c g0 = Some cn0 ∧ commit_hash parent ∈ parents cn0) →
  ∃ g' R', for_each (release parent) todo (g, R) = Ok (g', R')
    ∧ pruned g0 g' (hashes E) (Some (commit_hash parent)) []
    ∧ NoDup (hashes (E ++ [parent] ++ R'))
    ∧ settled g0 g' (E ++ [parent] ++ R').
Proof.
  revert g R. induction todo as [|c todo IH]; intros g R Hpr Hnd Hset Htodo Hlink.
  - exists g, R. done.
  - destruct (release_step parent E g R c todo) as (g1 & R1 & Hrel & Hpr1 & Hnd1 & Hset1);
      try done.
    { apply Hlink. by left. }
    destruct (IH g1 R1) as (g' & R' & Hfor & ?); try done.
    { by apply NoDup_cons in Htodo as [_ ?]. }
    { intros c' Hc'. apply Hlink. by right. }
    exists g', R'. split; [|done]. cbn [for_each]. rewrite Hrel. exact Hfor.
Qed.

Lemma hashes_values :
  hashes g0.*2 = g0.*1.
Proof.
  unfold hashes. rewrite <- list_fmap_compose. apply list_fmap_ext.
  intros i [k n] Hi. simpl. apply (wl_nodes _ Hwl).
  apply dict_elem_get; [apply Hwl|]. by eapply list_elem_of_lookup_2.
Qed.

Lemma sublist_hashes (l1 l2 : list CommitNode) :
  l1 `sublist_of` l2 → hashes l1 `sublist_of` hashes l2.
Proof.
  induction 1; simpl; [done|by apply sublist_skip|by apply sublist_cons].
Qed.

Lemma sort_inv_init :
  sort_inv g0 g0 (filter (λ node, parents node = ∅) g0.*2) [].
Proof.
  split.
  - split; [done|]. intros k n Hn. exists n. split_and!; try done.
    by apply (wl_nodes _ Hwl).
  - simpl. eapply sublist_NoDup; [|apply sublist_hashes, sublist_filter].
    rewrite hashes_values. apply Hwl.
  - intros n [Hempty Hn]%list_elem_of_filter.
    apply list_elem_of_fmap in Hn as ([k n'] & -> & Hin). simpl in *.
    assert (dict_get k g0 = Some n') as Hk by (apply dict_elem_get; [apply Hwl|done]).
    destruct (wl_nodes _ Hwl k n' Hk) as [-> _]. by exists n', n'.
  - intros i n n0 p Hi. done.
Qed.

Lemma sort_loop_spec fuel g R E :
  sort_inv g0 g R E → length g0 < fuel + length E →
  ∃ g' E', sort_loop order fuel g R E = Ok (g', E')
    ∧ sort_inv g0 g' [] E'.
Proof.
  revert g R E. induction fuel as [|fuel IH]; intros g R E Hinv Hfuel.
  { destruct Hinv as [_ Hnd Hset _].
    pose proof (settled_length _ _ Hset Hnd) as Hle. rewrite length_app in Hle. lia. }
  cbn [sort_loop]. destruct (pop R) as [[parent R']|] eqn:Hpop.
  - apply pop_Some in Hpop as ->.
    destruct Hinv as [[Hkeys Hpr] Hnd Hset Hord].
    assert (hashes (E ++ [parent] ++ R') ≡ₚ hashes (E ++ R' ++ [parent])) as Hperm.
    { unfold hashes. apply fmap_Permutation. apply Permutation_app_head, Permutation_app_comm. }
    destruct (Hset parent) as (pn0 & pcur & Hpn0 & Hpch & Hpcur & Hpempty).
    { apply elem_of_app. right. apply elem_of_app. right. by left. }
    destruct (for_each_release parent E (set_iter order (children parent)) g R')
      as (g1 & R1 & Hfor & [Hkeys1 Hpr1] & Hnd1 & Hset1).
    + split; [done|]. intros k n Hn. destruct (Hpr k n Hn) as (n0 & ? & ? & ? & Hpar).
      exists n0. split_and!; try done. intros q Hq HqE _. apply Hpar; try done. by left.
    + by rewrite Hperm.
    + intros n Hn. apply Hset. revert Hn. rewrite !elem_of_app. tauto.
    + rewrite set_iter_perm, Hpch. by apply (wl_nodes _ Hwl _ _ Hpn0).
    + intros c. rewrite set_iter_perm, Hpch. intros Hc.
      by apply (wl_children _ Hwl _ _ _ Hpn0).
    + rewrite Hfor. cbn [mbind result_bind fst snd].
      apply IH; [|rewrite length_app; simpl; lia].
      split.
      * split; [done|]. intros k n Hn. destruct (Hpr1 k n Hn) as (n0 & ? & ? & ? & Hpar).
        exists n0. split_and!; try done. intros q Hq HqE _.
        unfold hashes in HqE. rewrite fmap_app, not_elem_of_app in HqE.
        destruct HqE as [HqE Hqp]. apply Hpar; try done. left.
        intros [= ->]. apply Hqp. by left.
      * by rewrite <- app_assoc.
      * by rewrite <- app_assoc.
      * intros i n n0 p Hi Hn0 Hp.
        destruct (decide (i < length E)) as [Hlt|Hge].
        -- rewrite lookup_app_l in Hi by done.
           destruct (Hord i n n0 p Hi Hn0 Hp) as (j & Hj & Hjp).
           exists j. split; [done|]. unfold hashes. rewrite fmap_app.
           rewrite lookup_app_l; [done|]. rewrite length_fmap. lia.
        -- rewrite lookup_app_r in Hi by lia.
           destruct (i - length E) as [|?] eqn:Hi'; [|done].
           injection Hi as <-. assert (n0 = pn0) as -> by congruence.
           destruct (decide (p ∈ hashes E)) as [Hin|Hnin].
           ++ apply list_elem_of_lookup in Hin as [j Hj]. exists j.
              pose proof (lookup_lt_Some _ _ _ Hj) as Hjl.
              unfold hashes in *. rewrite length_fmap in Hjl.
              split; [lia|]. rewrite fmap_app, lookup_app_l; [done|].
              rewrite length_fmap. lia.
           ++ destruct (Hpr _ _ Hpcur) as (n0' & Hn0' & _ & _ & Hpar).
              assert (n0' = pn0) as -> by congruence.
              assert (p ∈ parents pcur) as Hbad by (apply Hpar; try done; by left).
              rewrite Hpempty in Hbad. by apply not_elem_of_empty in Hbad.
  - apply pop_None in Hpop as ->. by exists g, E.
Qed.

Lemma topo_sort_spec :
  (∃ ts, topo_sort order g0 = Ok ts)
    ∨ topo_sort order g0 = Raise (Exception "Sort is not a bijection").
Proof.
  unfold topo_sort.
  destruct (sort_loop_spec (S (length g0)) g0 _ [] sort_inv_init) as (g' & E' & -> & _);
    [simpl; lia|].
  cbn [mbind result_bind fst snd]. case_bool_decide; eauto.
Qed.

Lemma topo_sort_Ok ts :
  topo_sort order g0 = Ok ts →
  hashes ts ≡ₚ g0.*1
  ∧ (∀ n, n ∈ ts → ∃ n0, dict_get (commit_hash n) g0 = Some n0
                         ∧ children n = children n0)
  ∧ (∀ i n n0 p, ts !! i = Some n → dict_get (commit_hash n) g0 = Some n0 →
       p ∈ parents n0 → ∃ j, i < j ∧ hashes ts !! j = Some p).
Proof.
  unfold topo_sort.
  destruct (sort_loop_spec (S (length g0)) g0 _ [] sort_inv_init)
    as (g' & E' & -> & [[Hkeys _] Hnd Hset Hord]); [simpl; lia|].
  cbn [mbind result_bind fst snd]. case_bool_decide as Hlen; [done|].
  intros [= <-]. rewrite app_nil_r in *.
  assert (length E' = length g0) as Hlen'.
  { rewrite Hlen.
    by rewrite <- (length_fmap fst g'), Hkeys, length_fmap. }
  split_and!.
  - unfold hashes. rewrite fmap_reverse, reverse_Permutation.
    apply submseteq_length_Permutation.
    + apply NoDup_submseteq; [done|]. by eapply settled_keys.
    + rewrite !length_fmap. lia.
  - intros n. rewrite elem_of_reverse. intros Hn. destruct (Hset n Hn) as (n0 & _ & ? & ? & _). eauto.
  - intros i n n0 p [Hi Hlt]%reverse_lookup_Some Hn0 Hp.
    destruct (Hord _ _ _ _ Hi Hn0 Hp) as (j & Hj & Hjp).
    assert (j < length E') as Hjl by lia.
    exists (length E' - S j). split; [lia|].
    unfold hashes in *. rewrite fmap_reverse. apply reverse_lookup_Some.
    rewrite length_fmap. split; [|lia].
    by replace (length E' - S (length E' - S j)) with j by lia.
Qed.
End sort.

(** * The report *)

Section report.
Variable order : SetOrder.

Lemma foldl_write_names out names :
  foldl (λ out name, out ++ (py " " ++ name)) out names
  = out ++ mjoin ((λ name, py " " ++ name) <$> names).
Proof.
  revert out. induction names as [|n names IH]; intros out; simpl.
  - by rewrite app_nil_r.
  - by rewrite IH, <- app_assoc.
Qed.

Lemma branch_names_nil branch_heads node_hash :
  node_hash ∉ branch_heads.*2 → branch_names branch_heads node_hash = [].
Proof.
  unfold branch_names. induction branch_heads as [|[k v] l IH]; [done|].
  rewrite fmap_cons, not_elem_of_cons. simpl. intros [Hne Hl].
  rewrite filter_cons_False by (simpl; congruence). by apply IH.
Qed.

Lemma write_commit_entry branch_heads topo_sorted out node next :
  write_commit order branch_heads topo_sorted out (node, next)
  = out ++ commit_hash node ++ annotation branch_heads (commit_hash node)
      ++ block order topo_sorted node next ++ NL.
Proof.
  unfold write_commit, annotation, block. cbn [fst snd].
  assert ((if bool_decide (commit_hash node ∈ branch_heads.*2)
           then foldl (λ out name, out ++ (py " " ++ name)) (out ++ commit_hash node)
                  (merge_sort str_le (branch_names branch_heads (commit_hash node)))
           else out ++ commit_hash node)
          = out ++ commit_hash node
              ++ mjoin ((λ name, py " " ++ name) <$>
                          merge_sort str_le (branch_names branch_heads (commit_hash node))))
    as ->.
  { case_bool_decide as Hin.
    - by rewrite foldl_write_names, <- app_assoc.
    - rewrite branch_names_nil by done. simpl. by rewrite app_nil_r. }
  destruct next as [next_node|]; [|by rewrite <- !app_assoc].
  destruct (decide (commit_hash node ∈ children next_node)) as [Hin|Hin].
  - rewrite bool_decide_false, bool_decide_true by auto. by rewrite <- !app_assoc.
  - rewrite bool_decide_true, bool_decide_false by auto.
    by rewrite <- !app_assoc.
Qed.

Lemma foldl_write_commit branch_heads all out todo :
  foldl (write_commit order branch_heads all) out
    (zip todo ((Some <$> drop 1 todo) ++ [None]))
  = out ++ mjoin (imap (λ i node,
             commit_hash node ++ annotation branch_heads (commit_hash node)
               ++ block order all node (todo !! S i) ++ NL) todo).
Proof.
  revert out. induction todo as [|n t IH]; intros out.
  - simpl. by rewrite app_nil_r.
  - destruct t as [|m t'].
    + simpl. rewrite write_commit_entry. by rewrite app_nil_r.
    + change (zip (n :: m :: t') ((Some <$> drop 1 (n :: m :: t')) ++ [None]))
        with ((n, Some m) :: zip (m :: t') ((Some <$> drop 1 (m :: t')) ++ [None])).
      cbn [foldl]. rewrite IH, write_commit_entry. clear IH.
      rewrite (imap_cons _ n (m :: t')). cbn [mjoin list_join lookup list_lookup].
      rewrite <- !app_assoc. reflexivity.
Qed.

Lemma print_commits_entries branch_heads topo_sorted :
  print_commits order branch_heads topo_sorted
  = mjoin (imap (entry order branch_heads topo_sorted) topo_sorted).
Proof. unfold print_commits. by rewrite foldl_write_commit. Qed.

Lemma block_starts topo_sorted node next :
  ∃ tail, block order topo_sorted node next ++ NL = NL ++ tail.
Proof.
  unfold block. destruct next as [next_node|]; [|by exists []].
  case_bool_decide; [by exists []|]. rewrite <- app_assoc. eauto.
Qed.

(** C3, amended. The report is the concatenation of one chunk per commit of
    the sequence. For a commit followed by another whose children do not
    hold it, the chunk has a block: a newline, the space-joined hashes of the
    nodes of the sequence whose children hold the commit, in their order in
    the sequence, [=], a newline, a second newline that leaves an empty line,
    then [=] and at once the space-joined children of the following commit,
    in the order of iteration of this run. Otherwise, and after the last
    commit, there is no block. *)
Theorem report_blocks branch_heads topo_sorted :
  ∃ chunks,
    print_commits order branch_heads topo_sorted = mjoin chunks
    ∧ length chunks = length topo_sorted
    ∧ ∀ i node, topo_sorted !! i = Some node →
        chunks !! i = Some (
          commit_hash node ++ annotation branch_heads (commit_hash node)
          ++ match topo_sorted !! S i with
             | Some next_node =>
               if bool_decide (commit_hash node ∈ children next_node) then []
               else NL ++ join (py " ")
                      (commit_hash <$>
                         filter (λ n, commit_hash node ∈ children n) topo_sorted)
                    ++ py "=" ++ NL ++ NL ++ py "="
                    ++ join (py " ") (set_iter order (children next_node))
             | None => []
             end
          ++ NL).
Proof.
  exists (imap (entry order branch_heads topo_sorted) topo_sorted).
  split; [apply print_commits_entries|]. split; [apply length_imap|].
  intros i node Hi. by rewrite list_lookup_imap, Hi.
Qed.

(** C9. In the chunk of each commit the hash is followed, up to the end of
    the line, by the names of the branches mapped to that hash, each after
    one space, in lexicographic order; with no such branch nothing stands
    between the hash and the end of the line. *)
Theorem report_annotations branch_heads topo_sorted :
  ∃ chunks,
    print_commits order branch_heads topo_sorted = mjoin chunks
    ∧ length chunks = length topo_sorted
    ∧ ∀ i node, topo_sorted !! i = Some node →
        ∃ names tail,
          chunks !! i = Some (
            commit_hash node ++ mjoin ((λ name, py " " ++ name) <$> names)
            ++ NL ++ tail)
          ∧ names ≡ₚ (filter (λ kv, kv.2 = commit_hash node) branch_heads).*1
          ∧ StronglySorted str_le names.
Proof.
  exists (imap (entry order branch_heads topo_sorted) topo_sorted).
  split; [apply print_commits_entries|]. split; [apply length_imap|].
  intros i node Hi.
  destruct (block_starts topo_sorted node (topo_sorted !! S i)) as [tail Htail].
  exists (merge_sort str_le (branch_names branch_heads (commit_hash node))), tail.
  split_and!.
  - rewrite list_lookup_imap, Hi. simpl. unfold entry, annotation. by rewrite Htail.
  - apply merge_sort_Permutation.
  - apply StronglySorted_merge_sort; apply _.
Qed.
End report.

(** * The loaded graph *)

Section loaded.
Variable decompress : list byte → option (list byte).
Variable store : gmap (pystr * pystr) (list byte).
Variable heads : list (pystr * pystr).

Lemma loaded_counts st :
  loader_inv decompress store heads st → to_visit st = [] →
  size (visited st) = length (l_graph st).
Proof.
  intros [Hnd Hvis Hpend _ _ _ _] Htv.
  assert (visited st = list_to_set (l_graph st).*1) as ->.
  { apply set_eq. intros k. rewrite elem_of_list_to_set. split.
    - intros (ps & node & _ & Hg & _)%Hvis. by eapply dict_get_Some_key.
    - intros [?|Hk]%Hpend; [done|]. rewrite Htv in Hk. by apply elem_of_nil in Hk. }
  by rewrite size_list_to_set, length_fmap.
Qed.

Lemma loaded_all_visited st k :
  loader_inv decompress store heads st → to_visit st = [] →
  k ∈ (l_graph st).*1 → k ∈ visited st.
Proof.
  intros [_ _ Hpend _ _ _ _] Htv [?|Hk]%Hpend; [done|].
  rewrite Htv in Hk. by apply elem_of_nil in Hk.
Qed.

Lemma loaded_well_linked st :
  loader_inv decompress store heads st → to_visit st = [] →
  well_linked (l_graph st).
Proof.
  intros Hinv Htv. split; [apply Hinv..|].
  intros p pn c Hp Hc.
  destruct (inv_children _ _ _ _ Hinv p pn c Hp Hc) as (Hcv & ps & Hps & Hin).
  destruct (inv_visited _ _ _ _ Hinv c Hcv) as (ps' & node & Hps' & Hg & Hpar & _).
  exists node. split; [done|]. rewrite Hpar. apply elem_of_list_to_set. congruence.
Qed.

Lemma loaded_reachable st k :
  loader_inv decompress store heads st → to_visit st = [] →
  k ∈ (l_graph st).*1 ↔ reachable decompress store heads k.
Proof.
  intros Hinv Htv. split.
  - intros Hk. apply (inv_reach _ _ _ _ Hinv). by left.
  - induction 1 as [tip Htip|c ps p _ IH Hps Hp].
    + destruct (inv_heads _ _ _ _ Hinv tip Htip) as [Hv|Hk].
      * destruct (inv_visited _ _ _ _ Hinv tip Hv) as (? & ? & _ & Hg & _).
        by eapply dict_get_Some_key.
      * rewrite Htv in Hk. by apply elem_of_nil in Hk.
    + apply (loaded_all_visited st c Hinv Htv) in IH.
      destruct (inv_visited _ _ _ _ Hinv c IH) as (ps' & ? & Hps' & _ & _ & Hlinks).
      assert (ps' = ps) as -> by congruence.
      destruct (Hlinks p Hp) as (pn & Hpn & _). by eapply dict_get_Some_key.
Qed.

Lemma get_graph_traced_spec :
  NoDup (get_graph_traced decompress heads store).1
  ∧ match (get_graph_traced decompress heads store).2 with
    | Ok g =>
      ∃ st, (get_graph_loop decompress (loader_fuel decompress heads store) store
               (loader_init heads) []).2 = Ok st
        ∧ l_graph st = g
        ∧ loader_inv decompress store heads st ∧ to_visit st = []
    | Raise e => raised_by decompress store (get_graph_traced decompress heads store).1 e
    | OutOfFuel => False
    end.
Proof.
  unfold get_graph_traced. cbn [fst snd].
  pose proof (get_graph_loop_spec decompress store heads
                (loader_fuel decompress heads store) (loader_init heads) []
                (loader_inv_init decompress store heads) NoDup_nil_2) as [Hnd Hres].
  { intros h Hh. by apply elem_of_nil in Hh. }
  pose proof (get_graph_loop_terminates decompress store
                (loader_fuel decompress heads store) (loader_init heads) [] store) as Hfuel.
  split; [done|].
  destruct (get_graph_loop decompress (loader_fuel decompress heads store) store
              (loader_init heads) []) as [opened [st|e|]]; cbn [fst snd mbind result_bind] in *.
  - destruct Hres as [Hinv Htv].
    rewrite bool_decide_false by (by rewrite (loaded_counts st Hinv Htv); intros []).
    by exists st.
  - done.
  - apply Hfuel; [done| |done].
    unfold loader_fuel, store_cost, loader_init. cbn [to_visit]. rewrite length_fmap. lia.
Qed.
End loaded.

(** * The properties *)

Section claims.
Variable decompress : list byte → option (list byte).
Variable order : SetOrder.

Lemma get_graph_Ok heads git_dir g :
  get_graph decompress heads git_dir = Ok g →
  ∃ st, (get_graph_loop decompress (loader_fuel decompress heads (objects git_dir))
           (objects git_dir) (loader_init heads) []).2 = Ok st
    ∧ l_graph st = g
    ∧ loader_inv decompress (objects git_dir) heads st ∧ to_visit st = [].
Proof.
  unfold get_graph. intros Hg.
  pose proof (get_graph_traced_spec decompress (objects git_dir) heads) as [_ Hspec].
  by rewrite Hg in Hspec.
Qed.

(** C5. When loading completes, every commit of the graph has its object
    decoded, its parents set holds exactly the parents declared there, and
    each declared parent has a node whose children hold the commit; every
    branch tip and every parent of a node has a node; and the visited
    count equals the node count, so the final check passes. *)
Theorem loaded_graph_linked heads git_dir g :
  get_graph decompress heads git_dir = Ok g →
  (∀ c node, dict_get c g = Some node →
     ∃ ps, declared decompress (objects git_dir) c = Some ps
       ∧ parents node = list_to_set ps
       ∧ ∀ p, p ∈ ps →
           p ∈ parents node ∧ ∃ pn, dict_get p g = Some pn ∧ c ∈ children pn)
  ∧ (∀ tip, tip ∈ heads.*2 → is_Some (dict_get tip g))
  ∧ (∀ c node p, dict_get c g = Some node → p ∈ parents node → is_Some (dict_get p g))
  ∧ ∃ st, (get_graph_loop decompress (loader_fuel decompress heads (objects git_dir))
             (objects git_dir) (loader_init heads) []).2 = Ok st
      ∧ l_graph st = g
      ∧ size (visited st) = length g.
Proof.
  intros (st & Hloop & <- & Hinv & Htv)%get_graph_Ok.
  assert (∀ c node, dict_get c (l_graph st) = Some node →
     ∃ ps, declared decompress (objects git_dir) c = Some ps
       ∧ parents node = list_to_set ps
       ∧ ∀ p, p ∈ ps →
           p ∈ parents node ∧ ∃ pn, dict_get p (l_graph st) = Some pn ∧ c ∈ children pn)
    as Hnodes.
  { intros c node Hc.
    assert (c ∈ visited st) as Hv.
    { eapply loaded_all_visited; [done..|]. by eapply dict_get_Some_key. }
    destruct (inv_visited _ _ _ _ Hinv c Hv) as (ps & node' & Hps & Hg & Hpar & Hlinks).
    assert (node' = node) as -> by congruence.
    exists ps. split_and!; try done. intros p Hp. split; [|by apply Hlinks].
    rewrite Hpar. by apply elem_of_list_to_set. }
  split_and!.
  - done.
  - intros tip Htip. apply dict_get_is_Some.
    apply (loaded_reachable decompress (objects git_dir) heads st); [done..|].
    by apply reach_tip.
  - intros c node p Hc Hp.
    destruct (Hnodes c node Hc) as (ps & _ & Hpar & Hlinks).
    rewrite Hpar, elem_of_list_to_set in Hp.
    destruct (Hlinks p Hp) as (_ & pn & -> & _). by eexists.
  - exists st. split_and!; try done. by eapply loaded_counts.
Qed.



(** C10. The loader always comes to an end within its step budget, also
    on parent edges that form a cycle, and opens no object file twice. *)
Theorem loader_terminates heads store :
  (get_graph_traced decompress heads store).2 ≠ OutOfFuel
  ∧ NoDup (get_graph_traced decompress heads store).1.
Proof.
  pose proof (get_graph_traced_spec decompress store heads) as [Hnd Hspec].
  split; [|done]. intros Hfuel. by rewrite Hfuel in Hspec.
Qed.

Lemma find_git_loop_fuel levels chain : find_git_loop levels chain ≠ OutOfFuel.
Proof.
  revert chain. induction levels as [|n IH]; intros [|[git|] up]; simpl; try done.
Qed.

(** [get_branches] returns the mapping, or raises the error of the
    traversal. *)
Lemma get_branches_outcome git_dir :
  (∃ branch_heads, get_branches git_dir = Ok branch_heads
     ∧ ∀ e, refs_heads git_dir ≠ Raises e)
  ∨ ∃ e, refs_heads git_dir = Raises e ∧ get_branches git_dir = Raise e.
Proof.
  unfold get_branches. destruct (refs_heads git_dir) as [entries| |e]; cbn.
  - left. by eexists.
  - left. by eexists.
  - right. by exists e.
Qed.

(** The step budgets of the model are never used up: whatever the
    repository, a run returns or raises. *)
Lemma topo_order_commits_fuel cwd :
  topo_order_commits decompress order cwd ≠ OutOfFuel.
Proof.
  unfold topo_order_commits, find_git.
  pose proof (find_git_loop_fuel (length cwd - 1) cwd) as Hfind.
  destruct (find_git_loop (length cwd - 1) cwd) as [git_dir| |]; [|done..].
  cbn [mbind result_bind].
  destruct (get_branches_outcome git_dir) as [(branch_heads & -> & _)|(e & _ & ->)];
    [|done]. cbn [mbind result_bind].
  destruct (get_graph decompress branch_heads git_dir) as [g| |] eqn:Hg;
    cbn [mbind result_bind]; [|done|].
  - apply get_graph_Ok in Hg as (st & _ & <- & Hinv & Htv).
    pose proof (loaded_well_linked _ _ _ st Hinv Htv) as Hwl.
    destruct (topo_sort_spec order (l_graph st) Hwl) as [[ts ->]| ->]; done.
  - unfold get_graph in Hg.
    pose proof (get_graph_traced_spec decompress (objects git_dir)
                  branch_heads) as [_ Hspec].
    by rewrite Hg in Hspec.
Qed.

(** C6, amended. When [refs/heads] does not exist, nothing is raised: the
    branch mapping is empty, the loader returns the empty graph, and the
    run ends normally with an empty report. When the traversal of
    [refs/heads] raises an error, as it does when the directory cannot be
    reached, [get_branches] lets it through and the run ends with it. *)
Theorem headless_report_empty cwd git_dir :
  find_git cwd = Ok git_dir →
  (refs_heads git_dir = Absent →
     get_branches git_dir = Ok []
     ∧ get_graph decompress [] git_dir = Ok []
     ∧ topo_order_commits decompress order cwd = Ok [])
  ∧ (∀ e, refs_heads git_dir = Raises e →
       get_branches git_dir = Raise e
       ∧ topo_order_commits decompress order cwd = Raise e).
Proof.
  intros Hgit. unfold topo_order_commits. rewrite Hgit. cbn [mbind result_bind].
  unfold get_branches. split.
  - intros ->. cbn [rglob mbind result_bind]. split_and!; reflexivity.
  - intros e ->. cbn [rglob mbind result_bind]. by split.
Qed.
End claims.
(** C8, amended. Decoding with [errors='ignore'] never fails, and it drops
    exactly what is malformed: the text holds the code point of every
    well-formed sequence met from left to right, in order, and nothing for
    a byte at which no well-formed sequence starts, after which decoding
    goes on with the next byte. So the text is the strict decoding of the
    bytes that are left when the malformed ones are taken out, and bytes
    that decode strictly decode to the same text. *)
Theorem decode_ignore_drops (raw : list byte) :
  ∃ text,
    Utf8.decode Utf8.ignore raw = Some text
    ∧ text = Utf8.drop_malformed 0 raw
    ∧ (∃ kept, kept `sublist_of` raw ∧ Utf8.decode Utf8.strict kept = Some text)
    ∧ (∀ t, Utf8.decode Utf8.strict raw = Some t → text = t).
Proof.
  pose proof (decode_ignore_table raw) as Htext.
  exists (Utf8.drop_malformed 0 raw).
  split_and!; [done|done|by apply decode_ignore_sublist|].
  intros t Ht%decode_strict_ignore. congruence.
Qed.

(** C8 as stated fails: the malformed byte [0xFF] between two letters is
    dropped, where substitution would leave U+FFFD. *)
Lemma decode_substitution_refuted :
  Utf8.decode Utf8.ignore [Byte.x61; Byte.xff; Byte.x62] = Some (py "ab")
  ∧ Utf8.decode Utf8.replace [Byte.x61; Byte.xff; Byte.x62]
    = Some [0x61%N; 0xFFFD%N; 0x62%N]
  ∧ Utf8.decode Utf8.ignore [Byte.x61; Byte.xff; Byte.x62]
    ≠ Utf8.decode Utf8.replace [Byte.x61; Byte.xff; Byte.x62].
Proof. by vm_compute. Qed.

(** C4, amended. [findall] yields the groups of the matches in the order of
    their positions in the text; there is a match at a position when it is
    at the beginning of a line and the text goes on with the letters of
    parent in either case, one whitespace character, 40 hexadecimal digits
    in either case and the end of the line; the node keeps the identifiers
    as a set. *)
Theorem recorded_parents (text : pystr) (node : CommitNode) :
  Re.findall text = omap (Re.match_at text) (seq 0 (length text))
  ∧ (∀ i h, Re.match_at text i = Some h ↔ Re.parent_line_at text i h)
  ∧ (∀ h, h ∈ parents (set_parents (Re.findall text) node) ↔ h ∈ Re.findall text).
Proof.
  split_and!.
  - apply findall_positions.
  - apply match_at_parent_line.
  - intros h. simpl. apply elem_of_list_to_set.
Qed.

(** C4 as stated fails: a line with the word in capitals and a tab gives
    the node a parent, and is no line of the form the claim describes. *)
Lemma claimed_parents_refuted :
  Re.claimed_parents Samples.upper_tab_commit = []
  ∧ Re.findall Samples.upper_tab_commit = [Samples.hA]
  ∧ Samples.hA
    ∈ parents (set_parents (Re.findall Samples.upper_tab_commit) (new_node Samples.hC)).
Proof.
  split_and!; [vm_compute; reflexivity..|].
  cbn [parents set_parents]. apply elem_of_list_to_set.
  replace (Re.findall Samples.upper_tab_commit) with [Samples.hA]
    by (vm_compute; reflexivity).
  apply list_elem_of_here.
Qed.

Import Samples.

(** C1. Two runs over the same repository, under two orders of iteration
    over sets, print different reports; the children after the second [=] of
    the last block come in different orders. *)
Theorem set_order_changes_output :
  topo_order_commits stored fwd (at_top diamond)
  = Ok (hA ++ py " main" ++ NL
        ++ hB ++ py " " ++ hD ++ py "=" ++ NL ++ NL ++ py "=" ++ NL
        ++ hC ++ py " feat/x" ++ NL
        ++ hB ++ NL
        ++ py "=" ++ NL ++ NL ++ py "=" ++ hA ++ py " " ++ hC ++ NL
        ++ hD ++ NL)
  ∧ topo_order_commits stored bwd (at_top diamond)
    = Ok (hC ++ py " feat/x" ++ NL
          ++ hB ++ py " " ++ hD ++ py "=" ++ NL ++ NL ++ py "=" ++ NL
          ++ hA ++ py " main" ++ NL
          ++ hB ++ NL
          ++ py "=" ++ NL ++ NL ++ py "=" ++ hC ++ py " " ++ hA ++ NL
          ++ hD ++ NL)
  ∧ topo_order_commits stored fwd (at_top diamond)
    ≠ topo_order_commits stored bwd (at_top diamond).
Proof. by vm_compute. Qed.

(** C3 as stated fails: between the two [=] the report of [fork] has an
    empty line, which the block of the claim lacks. *)
Lemma claimed_block_refuted :
  topo_order_commits stored fwd (at_top fork)
  = Ok (print_commits fwd (branches_at fork) fork_sorted)
  ∧ print_commits fwd (branches_at fork) fork_sorted
    = hA ++ py " main" ++ NL
      ++ hB ++ py "=" ++ NL ++ NL ++ py "=" ++ NL
      ++ hC ++ py " feat/x" ++ NL
      ++ hB ++ NL
  ∧ print_commits fwd (branches_at fork) fork_sorted
    ≠ claimed_report fwd (branches_at fork) fork_sorted.
Proof. by vm_compute. Qed.

(** C6 as stated fails: without [refs/heads] the run ends normally. *)
Lemma missing_heads_not_fatal :
  refs_heads headless = Absent
  ∧ topo_order_commits stored fwd (at_top headless) = Ok [].
Proof. by vm_compute. Qed.

(** A [refs/heads] that cannot be reached ends the run with the error of
    the traversal. *)
Example locked_heads_fatal :
  topo_order_commits stored fwd (at_top locked) = Raise PermissionError.
Proof. by vm_compute. Qed.


(** A name with a NUL character is refused by the open; a name whose
    second part starts with [/] is opened where its path leads, and the run
    ends normally although no file of that name is below [objects]. *)
Example odd_names_opened :
  get_graph_traced stored (branches_at odd) (objects odd)
  = ([nul_name], Raise ValueError)
  ∧ topo_order_commits stored fwd (at_top odd) = Raise ValueError
  ∧ topo_order_commits stored fwd (at_top outside)
    = Ok (outside_name ++ py " main" ++ NL).
Proof. by vm_compute. Qed.

(** A commit that lists itself as a parent is loaded in one step; the sort
    then finds no root. *)
Example self_parent_loads :
  (get_graph_traced stored (branches_at selfish) (objects selfish)).1 = [hA]
  ∧ topo_order_commits stored fwd (at_top selfish)
    = Raise (Exception "Sort is not a bijection").
Proof. by vm_compute. Qed.


(** The repository [fork] loads, and its graph is as C5 says. *)
Lemma loaded_graph_linked_witness :
  get_graph stored (branches_at fork) fork = Ok fork_graph
  ∧ (∀ c node, dict_get c fork_graph = Some node →
       ∃ ps, declared stored (objects fork) c = Some ps
         ∧ parents node = list_to_set ps
         ∧ ∀ p, p ∈ ps →
             p ∈ parents node
             ∧ ∃ pn, dict_get p fork_graph = Some pn ∧ c ∈ children pn)
  ∧ (∀ tip, tip ∈ (branches_at fork).*2 → is_Some (dict_get tip fork_graph))
  ∧ (∀ c node p, dict_get c fork_graph = Some node → p ∈ parents node →
       is_Some (dict_get p fork_graph))
  ∧ ∃ st, (get_graph_loop stored
             (loader_fuel stored (branches_at fork) (objects fork))
             (objects fork) (loader_init (branches_at fork)) []).2 = Ok st
      ∧ l_graph st = fork_graph
      ∧ size (visited st) = length fork_graph.
Proof.
  split; [vm_compute; reflexivity|].
  apply (loaded_graph_linked stored (branches_at fork) fork fork_graph).
  vm_compute. reflexivity.
Defined.

(** The amended C6 at the repository [headless]. *)
Lemma headless_report_empty_witness :
  find_git (at_top headless) = Ok headless
  ∧ refs_heads headless = Absent
  ∧ get_branches headless = Ok []
  ∧ get_graph stored [] headless = Ok []
  ∧ topo_order_commits stored fwd (at_top headless) = Ok [].
Proof.
  destruct (headless_report_empty stored fwd (at_top headless) headless eq_refl)
    as [Habsent _].
  destruct (Habsent eq_refl) as (Hheads & Hgraph & Hrun).
  split_and!; [reflexivity..|exact Hheads|exact Hgraph|exact Hrun].
Defined.


(** * More on [find_git] *)

Lemma find_git_loop_Ok levels chain git :
  find_git_loop levels chain = Ok git ↔
  ∃ i, i < levels ∧ chain !! i = Some (Some git)
       ∧ ∀ j, j < i → chain !! j = Some None.
Proof.
  revert chain. induction levels as [|n IH]; intros chain.
  { split; [done|]. intros (i & Hi & _). lia. }
  destruct chain as [|[g|] up]; cbn [find_git_loop].
  - split; [done|]. by intros (i & _ & Hi & _).
  - split.
    + intros [= ->]. exists 0. split_and!; [lia|done|]. intros j Hj. lia.
    + intros (i & _ & Hi & Hbefore). destruct i as [|i]; [by injection Hi as ->|].
      by specialize (Hbefore 0 ltac:(lia)).
  - rewrite IH. split.
    + intros (i & Hi & Hg & Hbefore). exists (S i). split_and!; [lia|done|].
      intros [|j] Hj; [done|]. apply Hbefore. lia.
    + intros (i & Hi & Hg & Hbefore). destruct i as [|i]; [done|].
      exists i. split_and!; [lia|done|]. intros j Hj. apply (Hbefore (S j)). lia.
Qed.

(** X1. [find_git] returns the [.git] of the nearest directory that has one,
    looking at the working directory and its ancestors but never at the
    last one, the root. *)
Theorem find_git_nearest chain git :
  find_git chain = Ok git ↔
  ∃ i, S i < length chain ∧ chain !! i = Some (Some git)
       ∧ ∀ j, j < i → chain !! j = Some None.
Proof.
  unfold find_git. rewrite find_git_loop_Ok.
  split; intros (i & Hi & ?); exists i; (split; [lia|done]).
Qed.

Lemma find_git_loop_outcome levels chain :
  (∃ git, find_git_loop levels chain = Ok git)
  ∨ find_git_loop levels chain = Raise (SystemExit 1).
Proof.
  revert chain. induction levels as [|n IH]; intros [|[g|] up]; simpl; eauto.
Qed.

(** X2. When no directory but the root has a [.git], [find_git] leaves with
    status 1, whatever the root holds. *)
Theorem find_git_misses_root below root :
  Forall (λ d, d = None) below →
  find_git (below ++ [root]) = Raise (SystemExit 1).
Proof.
  intros Hnone.
  destruct (find_git_loop_outcome (length (below ++ [root]) - 1) (below ++ [root]))
    as [[git Hgit]|Hexit]; [|done].
  apply find_git_loop_Ok in Hgit as (i & Hi & Hg & _).
  rewrite length_app in Hi. simpl in Hi.
  rewrite lookup_app_l in Hg by lia.
  rewrite Forall_lookup in Hnone. by specialize (Hnone i _ Hg).
Qed.

(** * More on [first_line] *)

Lemma lstrip_keep s :
  (∀ c, head s = Some c → is_space c = false) → lstrip s = s.
Proof. destruct s as [|c r]; [done|]. intros H. simpl. by rewrite (H c). Qed.

Lemma lstrip_head s c : head (lstrip s) = Some c → is_space c = false.
Proof.
  induction s as [|x r IH]; [done|]. simpl.
  destruct (is_space x) eqn:Hx; [done|]. by intros [= <-].
Qed.

Lemma readline_no_terminator h rest :
  Forall (λ c, is_space c = false) h →
  (rest = [] ∨ ∃ t rest', rest = t :: rest' ∧ (t = 10%N ∨ t = 13%N)) →
  readline (h ++ rest) = h ++ (if decide (rest = []) then [] else NL).
Proof.
  intros Hh Hrest. induction Hh as [|c h Hc _ IH].
  - simpl. destruct Hrest as [->|(t & rest' & -> & [->| ->])]; done.
  - simpl. rewrite IH.
    assert (((c =? 10) || (c =? 13))%N = false) as ->; [|done].
    destruct (N.eqb_spec c 10) as [->|]; [done|].
    by destruct (N.eqb_spec c 13) as [->|].
Qed.

Lemma strip_trimmed h tail :
  Forall (λ c, is_space c = false) h → Forall (λ c, is_space c = true) tail →
  strip (h ++ tail) = h.
Proof.
  intros Hh Htail. unfold strip.
  destruct h as [|c h].
  - simpl. assert (lstrip tail = []) as ->; [|done].
    induction Htail as [|x t Hx _ IH]; [done|]. simpl. by rewrite Hx.
  - apply Forall_cons_1 in Hh as Hc. destruct Hc as [Hc Hh'].
    cbn [app lstrip]. rewrite Hc. change (c :: h ++ tail) with ((c :: h) ++ tail).
    rewrite reverse_app.
    assert (∀ k, lstrip (reverse tail ++ k) = lstrip k) as ->.
    { intros k. apply Forall_reverse in Htail.
      induction Htail as [|x t Hx _ IH]; [done|]. simpl. by rewrite Hx. }
    rewrite lstrip_keep; [by rewrite reverse_involutive|].
    intros x Hx.
    assert (x ∈ c :: h) as Hin.
    { apply elem_of_reverse. destruct (reverse (c :: h)); [done|].
      injection Hx as ->. by left. }
    rewrite Forall_forall in Hh. by apply Hh.
Qed.

(** X3. A reference file whose first line is an identifier without
    whitespace, ended by a line feed, a carriage return or the end of the
    file, yields that identifier. *)
Theorem first_line_identifier h rest :
  Forall (λ c, is_space c = false) h →
  (rest = [] ∨ ∃ t rest', rest = t :: rest' ∧ (t = 10%N ∨ t = 13%N)) →
  first_line (File (h ++ rest)) = h.
Proof.
  intros Hh Hrest. cbn [first_line]. rewrite readline_no_terminator by done.
  apply strip_trimmed; [done|]. case_decide; [done|]. by apply Forall_singleton.
Qed.

Lemma readline_terminators s :
  Forall (λ c, c ≠ 10%N ∧ c ≠ 13%N) (readline s) ∨
  ∃ l, readline s = l ++ NL ∧ Forall (λ c, c ≠ 10%N ∧ c ≠ 13%N) l.
Proof.
  induction s as [|c r IH]; [by left|]. simpl.
  destruct (N.eqb_spec c 10) as [->|H10]; [right; by exists []|].
  destruct (N.eqb_spec c 13) as [->|H13]; [right; by exists []|]. simpl.
  destruct IH as [IH|(l & -> & IH)].
  - left. by apply Forall_cons.
  - right. exists (c :: l). split; [done|]. by apply Forall_cons.
Qed.

Lemma lstrip_elem s c : c ∈ lstrip s → c ∈ s.
Proof.
  induction s as [|x r IH]; [done|]. simpl.
  destruct (is_space x); [|done]. intros H. right. by apply IH.
Qed.

Lemma strip_elem s c : c ∈ strip s → c ∈ s.
Proof.
  unfold strip. rewrite elem_of_reverse. intros H%lstrip_elem.
  rewrite elem_of_reverse in H. by apply lstrip_elem.
Qed.

Lemma strip_last s c : last (strip s) = Some c → is_space c = false.
Proof.
  unfold strip. rewrite last_reverse. apply lstrip_head.
Qed.

Lemma strip_head s c : head (strip s) = Some c → is_space c = false.
Proof.
  unfold strip. intros Hc.
  assert (c ∈ lstrip (reverse (lstrip s))) as Hin.
  { apply elem_of_reverse. destruct (reverse _); [done|]. injection Hc as ->. by left. }
  destruct (lstrip s) as [|x r] eqn:Hs; [by apply elem_of_nil in Hin|].
  assert (is_space x = false) as Hx by (apply (lstrip_head s); by rewrite Hs).
  rewrite reverse_cons in *.
  assert (∀ k, lstrip (k ++ [x]) = lstrip k ++ [x] ∨ lstrip (k ++ [x]) = [x]) as Hk.
  { intros k. induction k as [|y k IH]; simpl; [rewrite Hx; by left|].
    destruct (is_space y); [|by left]. destruct IH as [->| ->]; [|by right].
    destruct (lstrip k); [by right|by left]. }
  destruct (Hk (reverse r)) as [Heq|Heq]; rewrite Heq in Hc.
  - rewrite reverse_app in Hc. simpl in Hc. by injection Hc as <-.
  - simpl in Hc. by injection Hc as <-.
Qed.

(** X4. What [first_line] returns has no whitespace at either end and no
    line terminator anywhere, whatever the file holds. *)
Theorem first_line_trimmed e :
  (∀ c, head (first_line e) = Some c → is_space c = false)
  ∧ (∀ c, last (first_line e) = Some c → is_space c = false)
  ∧ Forall (λ c, c ≠ 10%N ∧ c ≠ 13%N) (first_line e).
Proof.
  destruct e as [content|]; [|by split_and!]. cbn [first_line].
  split_and!; [apply strip_head|apply strip_last|].
  destruct (readline_terminators content) as [H|(l & Hl & H)].
  - apply Forall_forall. intros c Hc%strip_elem. rewrite Forall_forall in H. auto.
  - assert (strip (readline content) = strip l) as ->.
    { rewrite Hl. unfold strip. f_equal.
      destruct (lstrip l) as [|x r] eqn:Hx.
      - assert (lstrip (l ++ NL) = []) as ->; [|done].
        clear H Hl. induction l as [|y l IH]; [done|]. simpl in *.
        destruct (is_space y); [by apply IH|done].
      - assert (lstrip (l ++ NL) = x :: r ++ NL) as ->.
        { clear H Hl. induction l as [|y l IH]; [done|]. simpl in *.
          destruct (is_space y); [by apply IH|]. by injection Hx as -> ->. }
        rewrite (reverse_cons _ x), reverse_app. simpl. by rewrite <- reverse_cons. }
    apply Forall_forall. intros c Hc%strip_elem. rewrite Forall_forall in H. auto.
Qed.

(** * More on [get_branches] *)

Section lex.
Context {A : Type} (eqb leb : A → A → bool).
Hypothesis eqb_eq : ∀ a b, eqb a b = true ↔ a = b.
Hypothesis leb_total : ∀ a b, leb a b = true ∨ leb b a = true.
Hypothesis leb_trans : ∀ a b c, leb a b = true → leb b c = true → leb a c = true.
Hypothesis leb_antisym : ∀ a b, leb a b = true → leb b a = true → a = b.

Lemma eqb_refl (a : A) : eqb a a = true.
Proof. by apply eqb_eq. Qed.

Lemma eqb_cases (a b : A) : a = b ∨ a ≠ b.
Proof.
  destruct (eqb a b) eqn:E; [left; by apply eqb_eq|right].
  intros ->. by rewrite eqb_refl in E.
Qed.

Lemma eqb_neq (a b : A) : a ≠ b → eqb a b = false.
Proof. intros Hne. destruct (eqb a b) eqn:E; [|done]. by apply eqb_eq in E. Qed.

Lemma lex_leb_total x y : lex_leb eqb leb x y = true ∨ lex_leb eqb leb y x = true.
Proof.
  revert y. induction x as [|a x IH]; intros [|b y]; simpl; auto.
  destruct (eqb_cases a b) as [->|Hne].
  - rewrite eqb_refl. apply IH.
  - rewrite !eqb_neq by done. apply leb_total.
Qed.

Lemma lex_leb_trans x y z :
  lex_leb eqb leb x y = true → lex_leb eqb leb y z = true →
  lex_leb eqb leb x z = true.
Proof.
  revert y z. induction x as [|a x IH]; intros [|b y] [|c z]; simpl; try done.
  destruct (eqb_cases a b) as [->|Hab], (eqb_cases b c) as [->|Hbc].
  - rewrite eqb_refl. apply IH.
  - rewrite eqb_refl, eqb_neq by done. by intros _.
  - rewrite eqb_refl, eqb_neq by done. by intros ? _.
  - rewrite (eqb_neq a b), (eqb_neq b c) by done. intros Hab' Hbc'.
    destruct (eqb_cases a c) as [->|Hac].
    + destruct Hab. by apply leb_antisym.
    + rewrite eqb_neq by done. by eapply leb_trans.
Qed.

Lemma lex_leb_antisym x y :
  lex_leb eqb leb x y = true → lex_leb eqb leb y x = true → x = y.
Proof.
  revert y. induction x as [|a x IH]; intros [|b y]; simpl; try done.
  destruct (eqb_cases a b) as [->|Hne].
  - rewrite eqb_refl. intros. f_equal. by apply IH.
  - rewrite (eqb_neq a b), (eqb_neq b a) by done. intros ? ?. destruct Hne.
    by apply leb_antisym.
Qed.
End lex.

Lemma path_leb_total p q : path_leb p q = true ∨ path_leb q p = true.
Proof.
  apply lex_leb_total; [intros a b; apply bool_decide_eq_true|apply str_leb_total].
Qed.

Lemma path_leb_trans p q r :
  path_leb p q = true → path_leb q r = true → path_leb p r = true.
Proof.
  apply lex_leb_trans;
    [intros a b; apply bool_decide_eq_true|apply str_leb_trans|apply str_leb_antisym].
Qed.

Lemma path_leb_antisym p q : path_leb p q = true → path_leb q p = true → p = q.
Proof.
  apply lex_leb_antisym; [intros a b; apply bool_decide_eq_true|apply str_leb_antisym].
Qed.

Instance path_le_total {A} : Total (@path_le A).
Proof. intros p q. apply path_leb_total. Qed.
Instance path_le_trans {A} : Transitive (@path_le A).
Proof. intros p q r. apply path_leb_trans. Qed.

(** Two sorted lists of entries with the same entries, no path twice, are
    the same list. *)
Lemma sorted_by_path_unique {A} (l1 l2 : list (list pystr * A)) :
  StronglySorted path_le l1 → StronglySorted path_le l2 →
  l1 ≡ₚ l2 → NoDup l1.*1 → l1 = l2.
Proof.
  intros Hs1. revert l2. induction Hs1 as [|x l1 Hs1 IH Hx]; intros l2 Hs2 Hperm Hnd.
  { by apply Permutation_nil_l in Hperm. }
  destruct Hs2 as [|y l2 Hs2 Hy].
  { symmetry in Hperm. by apply Permutation_nil_l in Hperm. }
  rewrite fmap_cons in Hnd. apply NoDup_cons in Hnd as [Hfresh Hnd].
  assert (x = y) as ->.
  { assert (x ∈ y :: l2) as Hin by (rewrite <- Hperm; by left).
    assert (y ∈ x :: l1) as Hin' by (rewrite Hperm; by left).
    apply elem_of_cons in Hin as [?|Hin]; [done|].
    apply elem_of_cons in Hin' as [?|Hin']; [done|].
    rewrite Forall_forall in Hx, Hy.
    assert (x.1 = y.1) as Heq by (apply path_leb_antisym; [by apply Hx|by apply Hy]).
    destruct Hfresh. rewrite Heq. by apply list_elem_of_fmap_2. }
  f_equal. apply IH; [done| |done]. by apply (inj (cons y)).
Qed.

Lemma sublist_map {A B} (f : A → B) (l1 l2 : list A) :
  l1 `sublist_of` l2 → (f <$> l1) `sublist_of` (f <$> l2).
Proof.
  induction 1; simpl; [done|by apply sublist_skip|by apply sublist_cons].
Qed.

(** X5. The branch mapping does not depend on the order in which the file
    system lists the entries below [refs/heads]. *)
Theorem get_branches_listing_order git1 git2 l1 l2 :
  refs_heads git1 = Listed l1 → refs_heads git2 = Listed l2 →
  l1 ≡ₚ l2 → NoDup l1.*1 →
  ∃ branch_heads,
    get_branches git1 = Ok branch_heads ∧ get_branches git2 = Ok branch_heads.
Proof.
  intros H1 H2 Hperm Hnd. unfold get_branches. rewrite H1, H2.
  cbn [rglob mbind result_bind]. eexists. split; [reflexivity|].
  do 2 f_equal. symmetry. apply sorted_by_path_unique.
  - apply StronglySorted_merge_sort; apply _.
  - apply StronglySorted_merge_sort; apply _.
  - by rewrite !merge_sort_Permutation, Hperm.
  - rewrite merge_sort_Permutation.
    eapply sublist_NoDup; [exact Hnd|]. apply sublist_map, sublist_filter.
Qed.

Lemma dict_set_keys {V} k (v : V) d :
  (dict_set k v d).*1 = if decide (k ∈ d.*1) then d.*1 else d.*1 ++ [k].
Proof.
  induction d as [|[k' v'] d IH].
  - cbn [dict_set]. destruct (decide (k ∈ ([] : list (pystr * V)).*1)) as [Hin|]; [|done].
    by apply elem_of_nil in Hin.
  - cbn [dict_set]. rewrite (fmap_cons fst (k', v') d). cbn [fst].
    destruct (decide (k' = k)) as [->|Hne].
    + rewrite fmap_cons. destruct (decide (k ∈ k :: d.*1)) as [|Hnin]; [done|].
      destruct Hnin. by left.
    + rewrite fmap_cons, IH. cbn [fst].
      destruct (decide (k ∈ d.*1)) as [Hin|Hnin],
        (decide (k ∈ k' :: d.*1)) as [Hin'|Hnin']; try done.
      * destruct Hnin'. by right.
      * apply elem_of_cons in Hin' as [?|?]; congruence.
Qed.

Lemma dict_set_NoDup {V} k (v : V) d : NoDup d.*1 → NoDup (dict_set k v d).*1.
Proof.
  rewrite dict_set_keys. case_decide; [done|]. intros Hd.
  apply NoDup_app. split_and!; [done| |apply NoDup_singleton].
  intros x Hx ->%list_elem_of_singleton. done.
Qed.

Lemma foldl_dict_set_NoDup {V B} (f : B → pystr) (g : B → V) items d :
  NoDup d.*1 → NoDup (foldl (λ d p, dict_set (f p) (g p) d) d items).*1.
Proof.
  revert d. induction items as [|p items IH]; intros d Hd; [done|].
  simpl. apply IH. by apply dict_set_NoDup.
Qed.

Lemma foldl_dict_set_fresh {V B} (f : B → pystr) (g : B → V) items d :
  NoDup (d.*1 ++ (f <$> items)) →
  foldl (λ d p, dict_set (f p) (g p) d) d items = d ++ ((λ p, (f p, g p)) <$> items).
Proof.
  revert d. induction items as [|p items IH]; intros d Hnd.
  - simpl. by rewrite app_nil_r.
  - cbn [foldl]. rewrite fmap_cons in Hnd.
    assert (f p ∉ d.*1) as Hfresh.
    { apply NoDup_app in Hnd as (_ & Hd & _). intros Hin. apply (Hd _ Hin). by left. }
    rewrite dict_set_fresh by done. rewrite IH.
    + rewrite <- app_assoc. done.
    + rewrite fmap_app. simpl. by rewrite <- app_assoc.
Qed.

(** X6. A branch name is never mapped twice; and when the files below
    [refs/heads] have distinct names, the mapping holds exactly one entry for
    each file: its path with [/] between the components, and the trimmed
    first line of what it holds. Directories give no entry. *)
Theorem get_branches_entries git entries :
  refs_heads git = Listed entries →
  NoDup (as_posix <$> (filter (λ p, is_file p.2 = true) entries).*1) →
  ∃ branch_heads,
    get_branches git = Ok branch_heads
    ∧ NoDup branch_heads.*1
    ∧ ∀ name hash,
        (name, hash) ∈ branch_heads ↔
        ∃ parts content, (parts, File content) ∈ entries
          ∧ name = as_posix parts ∧ hash = strip (readline content).
Proof.
  intros Hrefs Hnames. unfold get_branches. rewrite Hrefs.
  cbn [rglob mbind result_bind]. eexists. split; [reflexivity|]. split.
  { apply foldl_dict_set_NoDup, NoDup_nil_2. }
  rewrite (foldl_dict_set_fresh (λ p, as_posix p.1) (λ p, first_line p.2)); cycle 1.
  { cbn [fmap list_fmap app]. rewrite merge_sort_Permutation.
    by rewrite <- list_fmap_compose in Hnames. }
  intros name hash. simpl. rewrite list_elem_of_fmap. split.
  - intros ([parts e] & [= -> ->] & Hin). simpl.
    rewrite merge_sort_Permutation in Hin.
    apply list_elem_of_filter in Hin as [Hfile Hin]. simpl in Hfile.
    destruct e as [content|]; [|done]. by exists parts, content.
  - intros (parts & content & Hin & -> & ->). exists (parts, File content).
    split; [done|]. rewrite merge_sort_Permutation. by apply list_elem_of_filter.
Qed.

(** * More on the loader *)

Section loader_more.
Variable decompress : list byte → option (list byte).
Variable store : gmap (pystr * pystr) (list byte).
Variable heads : list (pystr * pystr).

(** Every file the loop opens belongs to a reachable commit, and when the
    loop ends normally the files opened are those of the visited commits. *)
Lemma get_graph_loop_opened (fuel : nat) (st : loader) (opened : list pystr) :
  loader_inv decompress store heads st →
  (∀ h, h ∈ opened → reachable decompress store heads h) →
  (∀ h, h ∈ opened ↔ h ∈ visited st) →
  (∀ h, h ∈ (get_graph_loop decompress fuel store st opened).1 →
        reachable decompress store heads h)
  ∧ ∀ st', (get_graph_loop decompress fuel store st opened).2 = Ok st' →
      ∀ h, h ∈ (get_graph_loop decompress fuel store st opened).1 ↔ h ∈ visited st'.
Proof.
  revert st opened. induction fuel as [|fuel IH]; intros st opened Hinv Hreach Hvis.
  { split; [done|]. by intros st'. }
  cbn [get_graph_loop].
  destruct (pop (to_visit st)) as [[c rest]|] eqn:Hpop.
  - apply pop_Some in Hpop. case_bool_decide as Hc.
    + apply IH; [by eapply loader_inv_skip|done..].
    + assert (reachable decompress store heads c) as Hrc.
      { apply (inv_reach _ _ _ _ Hinv). right. rewrite Hpop, elem_of_app. right. by left. }
      assert (∀ h, h ∈ opened ++ [c] → reachable decompress store heads h) as Hreach'.
      { intros h [?| ->%list_elem_of_singleton]%elem_of_app; auto. }
      case_bool_decide as Hnul; [by split|].
      destruct (store !! object_path c) as [contents|] eqn:Hst; [|by split].
      destruct (parse_parents decompress contents) as [ps|e|] eqn:Hparse;
        [|by split..].
      apply IH; [|done|].
      * apply loader_inv_expand; [done..|]. apply declared_Some. eauto.
      * intros h. rewrite elem_of_app, list_elem_of_singleton, expand_visited,
          elem_of_union, elem_of_singleton, Hvis. tauto.
  - split; [done|]. by intros st' [= <-].
Qed.

Lemma get_graph_traced_opened :
  (∀ h, h ∈ (get_graph_traced decompress heads store).1 →
        reachable decompress store heads h)
  ∧ ∀ g, (get_graph_traced decompress heads store).2 = Ok g →
      (get_graph_traced decompress heads store).1 ≡ₚ g.*1.
Proof.
  pose proof (get_graph_loop_opened (loader_fuel decompress heads store)
                (loader_init heads) [] (loader_inv_init decompress store heads))
    as [Hreach Hvis].
  { intros h Hh. by apply elem_of_nil in Hh. }
  { intros h. simpl. rewrite elem_of_nil. split; [done|]. apply not_elem_of_empty. }
  pose proof (get_graph_traced_spec decompress store heads) as [Hnd Hspec].
  split; [done|]. intros g Hg. rewrite Hg in Hspec.
  destruct Hspec as (st & Hloop & <- & Hinv & Htv).
  apply NoDup_Permutation; [done|apply (inv_nodup _ _ _ _ Hinv)|].
  intros h. unfold get_graph_traced. cbn [fst]. rewrite (Hvis st Hloop). split.
  - intros (ps & node & _ & Hnode & _)%(inv_visited _ _ _ _ Hinv).
    by eapply dict_get_Some_key.
  - by apply (loaded_all_visited decompress store heads st).
Qed.
End loader_more.

Section graph_more.
Variable decompress : list byte → option (list byte).

Lemma loaded_children store heads st p pn :
  loader_inv decompress store heads st → to_visit st = [] →
  dict_get p (l_graph st) = Some pn →
  ∀ c, c ∈ children pn ↔
       reachable decompress store heads c
       ∧ ∃ ps, declared decompress store c = Some ps ∧ p ∈ ps.
Proof.
  intros Hinv Htv Hp c. split.
  - intros Hc. destruct (inv_children _ _ _ _ Hinv p pn c Hp Hc) as [Hv Hps].
    split; [|done]. apply (loaded_reachable _ _ _ st c Hinv Htv).
    destruct (inv_visited _ _ _ _ Hinv c Hv) as (_ & node & _ & Hnode & _).
    by eapply dict_get_Some_key.
  - intros [Hc (ps & Hps & Hin)].
    apply (loaded_reachable _ _ _ st c Hinv Htv), (loaded_all_visited _ _ _ st c Hinv Htv) in Hc.
    destruct (inv_visited _ _ _ _ Hinv c Hc) as (ps' & _ & Hps' & _ & _ & Hlinks).
    assert (ps' = ps) as -> by congruence.
    destruct (Hlinks p Hin) as (pn' & Hpn' & Hin'). congruence.
Qed.

(** X7. In the graph the loader returns, the children of a node are exactly
    the reachable commits that declare it as a parent, each once. *)
Theorem loaded_children_exact heads git_dir g :
  get_graph decompress heads git_dir = Ok g →
  ∀ p pn, dict_get p g = Some pn →
    commit_hash pn = p ∧ NoDup (children pn)
    ∧ ∀ c, c ∈ children pn ↔
           reachable decompress (objects git_dir) heads c
           ∧ ∃ ps, declared decompress (objects git_dir) c = Some ps ∧ p ∈ ps.
Proof.
  intros (st & _ & <- & Hinv & Htv)%get_graph_Ok p pn Hp.
  destruct (inv_nodes _ _ _ _ Hinv p pn Hp) as [Hhash Hnd].
  split_and!; [done..|]. by apply (loaded_children _ _ st).
Qed.








(** X10. When [get_graph] returns a graph, it has opened the object file of
    every commit of the graph, and each of them once. *)
Theorem loader_opens_each_once heads store opened g :
  get_graph_traced decompress heads store = (opened, Ok g) →
  NoDup opened ∧ opened ≡ₚ g.*1.
Proof.
  intros Hrun.
  pose proof (get_graph_traced_spec decompress store heads) as [Hnd _].
  pose proof (get_graph_traced_opened decompress store heads) as [_ Hperm].
  rewrite Hrun in Hnd, Hperm. split; [done|]. by apply Hperm.
Qed.
End graph_more.

(** * More on the sort *)

Section sort_more.
Variable order : SetOrder.
Variable g0 : graph.
Hypothesis Hwl : well_linked g0.
Hypothesis Hpl : parents_linked g0.

Lemma release_kept (parent : CommitNode) (E R : list CommitNode) g c todo s :
  release parent (g, R) c = Ok s →
  c ∉ todo →
  kept g0 g (hashes E) (Some (commit_hash parent)) (c :: todo)
    (hashes (E ++ [parent] ++ R)) →
  kept g0 s.1 (hashes E) (Some (commit_hash parent)) todo
    (hashes (E ++ [parent] ++ s.2)).
Proof.
  unfold release. cbn [fst snd].
  destruct (dict_get c g) as [cn|] eqn:Hcn; [|done]. intros [= <-] Hc Hkept. cbn [fst snd].
  assert (∀ k, k ∈ hashes (E ++ [parent] ++ R) →
    k ∈ hashes (E ++ [parent] ++
                (if bool_decide (parents (rm_parent (commit_hash parent) cn) = ∅)
                 then R ++ [rm_parent (commit_hash parent) cn] else R))) as Hmono.
  { intros k. case_bool_decide; [|done]. unfold hashes. rewrite !fmap_app, !elem_of_app. tauto. }
  intros k n. rewrite dict_alter_get. destruct (decide (c = k)) as [<-|Hne].
  - rewrite Hcn. intros [= <-]. destruct (Hkept c cn Hcn) as (Hhash & Hpar & _).
    split_and!; [done| |].
    + intros q [Hq Hqp]%elem_of_difference. apply not_elem_of_singleton in Hqp.
      destruct (Hpar q Hq) as (? & ? & _). split_and!; [done..|]. intros [= ->]. done.
    + intros Hempty. rewrite bool_decide_true by done.
      unfold hashes. rewrite !fmap_app, !elem_of_app. right. right. right.
      apply list_elem_of_singleton. done.
  - intros Hn. destruct (Hkept k n Hn) as (Hhash & Hpar & Hroot).
    split_and!; [done| |by auto].
    intros q Hq. destruct (Hpar q Hq) as (? & ? & Htodo). split_and!; [done..|].
    intros Hcur. apply Htodo, elem_of_cons in Hcur as [?|?]; [congruence|done].
Qed.

Lemma for_each_release_kept (parent : CommitNode) (E : list CommitNode) todo g R s :
  for_each (release parent) todo (g, R) = Ok s →
  NoDup todo →
  kept g0 g (hashes E) (Some (commit_hash parent)) todo (hashes (E ++ [parent] ++ R)) →
  kept g0 s.1 (hashes E) (Some (commit_hash parent)) [] (hashes (E ++ [parent] ++ s.2)).
Proof.
  revert g R. induction todo as [|c todo IH]; intros g R Hrun Hnd Hkept.
  - by injection Hrun as <-.
  - cbn [for_each] in Hrun. apply NoDup_cons in Hnd as [Hc Hnd].
    destruct (release parent (g, R) c) as [[g1 R1]| |] eqn:Hrel; [|done..].
    cbn [mbind result_bind] in Hrun.
    apply (IH g1 R1 Hrun Hnd).
    by apply (release_kept parent E R g c todo (g1, R1)).
Qed.

(** One turn of the [while root_nodes] loop keeps the invariant. *)
Lemma sort_turn g R parent E :
  sort_inv g0 g (R ++ [parent]) E →
  ∃ g1 R1,
    for_each (release parent) (set_iter order (children parent)) (g, R) = Ok (g1, R1)
    ∧ sort_inv g0 g1 R1 (E ++ [parent]).
Proof.
  intros [[Hkeys Hpr] Hnd Hset Hord].
  assert (hashes (E ++ [parent] ++ R) ≡ₚ hashes (E ++ R ++ [parent])) as Hperm.
  { unfold hashes. apply fmap_Permutation, Permutation_app_head, Permutation_app_comm. }
  destruct (Hset parent) as (pn0 & pcur & Hpn0 & Hpch & Hpcur & Hpempty).
  { rewrite !elem_of_app. right. right. by left. }
  destruct (for_each_release g0 parent E (set_iter order (children parent)) g R)
    as (g1 & R1 & Hfor & [Hkeys1 Hpr1] & Hnd1 & Hset1).
  - split; [done|]. intros k n Hn. destruct (Hpr k n Hn) as (n0 & ? & ? & ? & Hpar).
    exists n0. split_and!; try done. intros q Hq HqE _. apply Hpar; try done. by left.
  - by rewrite Hperm.
  - intros n Hn. apply Hset. revert Hn. rewrite !elem_of_app. tauto.
  - rewrite set_iter_perm, Hpch. by apply (wl_nodes _ Hwl _ _ Hpn0).
  - intros c. rewrite set_iter_perm, Hpch. intros Hc.
    by apply (wl_children _ Hwl _ _ _ Hpn0).
  - exists g1, R1. split; [done|]. split.
    + split; [done|]. intros k n Hn. destruct (Hpr1 k n Hn) as (n0 & ? & ? & ? & Hpar).
      exists n0. split_and!; try done. intros q Hq HqE _.
      unfold hashes in HqE. rewrite fmap_app, not_elem_of_app in HqE.
      destruct HqE as [HqE Hqp]. apply Hpar; try done. left.
      intros [= ->]. apply Hqp. by left.
    + by rewrite <- app_assoc.
    + by rewrite <- app_assoc.
    + intros i n n0 p Hi Hn0 Hp.
      destruct (decide (i < length E)) as [Hlt|Hge].
      * rewrite lookup_app_l in Hi by done.
        destruct (Hord i n n0 p Hi Hn0 Hp) as (j & Hj & Hjp).
        exists j. split; [done|]. unfold hashes. rewrite fmap_app.
        rewrite lookup_app_l; [done|]. rewrite length_fmap. lia.
      * rewrite lookup_app_r in Hi by lia.
        destruct (i - length E) as [|?] eqn:Hi'; [|done].
        injection Hi as <-. assert (n0 = pn0) as -> by congruence.
        destruct (decide (p ∈ hashes E)) as [Hin|Hnin].
        -- apply list_elem_of_lookup in Hin as [j Hj]. exists j.
           pose proof (lookup_lt_Some _ _ _ Hj) as Hjl.
           unfold hashes in *. rewrite length_fmap in Hjl.
           split; [lia|]. rewrite fmap_app, lookup_app_l; [done|].
           rewrite length_fmap. lia.
        -- destruct (Hpr _ _ Hpcur) as (n0' & Hn0' & _ & _ & Hpar).
           assert (n0' = pn0) as -> by congruence.
           assert (p ∈ parents pcur) as Hbad by (apply Hpar; try done; by left).
           rewrite Hpempty in Hbad. by apply not_elem_of_empty in Hbad.
Qed.

Lemma sort_loop_kept fuel g R E s :
  sort_inv g0 g R E →
  kept g0 g (hashes E) None [] (hashes (E ++ R)) →
  sort_loop order fuel g R E = Ok s →
  sort_inv g0 s.1 [] s.2 ∧ kept g0 s.1 (hashes s.2) None [] (hashes s.2).
Proof.
  revert g R E. induction fuel as [|fuel IH]; intros g R E Hinv Hkept Hrun; [done|].
  cbn [sort_loop] in Hrun. destruct (pop R) as [[parent R']|] eqn:Hpop.
  - apply pop_Some in Hpop as ->.
    destruct (sort_turn g R' parent E Hinv) as (g1 & R1 & Hfor & Hinv1).
    rewrite Hfor in Hrun. cbn [mbind result_bind fst snd] in Hrun.
    apply (IH g1 R1 (E ++ [parent]) Hinv1); [|done].
    destruct (si_settled _ _ _ _ Hinv parent) as (pn0 & _ & Hpn0 & Hpch & _).
    { rewrite !elem_of_app. right. right. by left. }
    pose proof (for_each_release_kept parent E _ g R' (g1, R1) Hfor) as Hstep.
    cbn [fst snd] in Hstep.
    assert (kept g0 g1 (hashes E) (Some (commit_hash parent)) []
              (hashes (E ++ [parent] ++ R1))) as Hkept1.
    { apply Hstep.
      - rewrite set_iter_perm, Hpch. by apply (wl_nodes _ Hwl _ _ Hpn0).
      - intros k n Hn. destruct (Hkept k n Hn) as (Hhash & Hpar & Hroot).
        split_and!; [done| |].
        + intros q Hq. destruct (Hpar q Hq) as ((n0 & Hn0 & Hq0) & ? & _).
          split_and!; [by eauto|done|]. intros [= ->].
          destruct (Hpl k n0 _ Hn0 Hq0) as (pn & Hpn & Hin).
          rewrite set_iter_perm, Hpch. congruence.
        + intros Hempty%Hroot. revert Hempty. unfold hashes.
          rewrite !fmap_app, !elem_of_app. tauto. }
    intros k n Hn. destruct (Hkept1 k n Hn) as (Hhash & Hpar & Hroot).
    split_and!; [done| |].
    + intros q Hq. destruct (Hpar q Hq) as (? & HqE & Hcur).
      split_and!; [done| |done].
      unfold hashes. rewrite fmap_app, not_elem_of_app. split; [done|].
      intros ->%list_elem_of_singleton. specialize (Hcur eq_refl).
      by apply elem_of_nil in Hcur.
    + intros Hempty%Hroot. by rewrite <- app_assoc.
  - apply pop_None in Hpop as ->. injection Hrun as <-. cbn [fst snd].
    split; [done|]. by rewrite app_nil_r in Hkept.
Qed.

Lemma kept_init :
  kept g0 g0 [] None [] (hashes (filter (λ node, parents node = ∅) g0.*2)).
Proof.
  intros k n Hn. destruct (wl_nodes _ Hwl k n Hn) as [Hhash _].
  split_and!; [done| |].
  - intros q Hq. split_and!; [by eauto|apply not_elem_of_nil|done].
  - intros Hempty. rewrite <- Hhash. apply list_elem_of_fmap_2.
    apply list_elem_of_filter. split; [done|].
    apply list_elem_of_fmap. exists (k, n). split; [done|]. by apply dict_get_elem.
Qed.

(** With a ranking, the sort leaves no node behind. *)
Lemma sort_covers rank g E k :
  ranked g0 rank → g.*1 = g0.*1 →
  kept g0 g (hashes E) None [] (hashes E) →
  k ∈ g0.*1 → k ∈ hashes E.
Proof.
  intros Hrank Hkeys Hkept. remember (rank k) as r eqn:Hr. revert k Hr.
  induction r as [r IH] using lt_wf_ind. intros k -> Hk.
  rewrite <- Hkeys in Hk. apply dict_get_is_Some in Hk as [n Hn].
  destruct (Hkept k n Hn) as (_ & Hpar & Hroot).
  destruct (decide (parents n = ∅)) as [Hempty|Hne]; [by apply Hroot|].
  apply set_choose_L in Hne as [q Hq].
  destruct (Hpar q Hq) as ((n0 & Hn0 & Hq0) & HqE & _). destruct HqE.
  destruct (Hpl k n0 q Hn0 Hq0) as (pn & Hpn & _).
  apply (IH (rank q)); [by eapply Hrank|done|]. by eapply dict_get_Some_key.
Qed.

Lemma position_rank (l : list pystr) :
  NoDup l →
  ∃ rank : pystr → nat, ∀ i j x y, l !! i = Some x → l !! j = Some y → i < j →
    rank y < rank x.
Proof.
  intros Hnd.
  exists (λ h, length l - from_option fst 0 (list_find (λ x, x = h) l)).
  assert (∀ i x, l !! i = Some x → list_find (λ y, y = x) l = Some (i, x)) as Hfind.
  { intros i x Hi. apply list_find_Some. split_and!; [done..|].
    intros j y Hj Hlt ->. assert (i = j) by (by eapply NoDup_lookup). lia. }
  intros i j x y Hi Hj Hlt. rewrite (Hfind i x Hi), (Hfind j y Hj). simpl.
  apply lookup_lt_Some in Hj. lia.
Qed.

Lemma topo_sort_ranked :
  (∃ ts, topo_sort order g0 = Ok ts) ↔ ∃ rank, ranked g0 rank.
Proof.
  split.
  - intros [ts Hts].
    destruct (topo_sort_Ok order g0 Hwl ts Hts) as (Hperm & Hsnap & Hord).
    assert (NoDup (hashes ts)) as Hnd by (rewrite Hperm; apply Hwl).
    destruct (position_rank (hashes ts) Hnd) as [rank Hrank].
    exists rank. intros c cn p Hc Hp.
    assert (c ∈ hashes ts) as Hin by (rewrite Hperm; by eapply dict_get_Some_key).
    apply list_elem_of_lookup in Hin as [i Hi].
    pose proof Hi as Hi'. unfold hashes in Hi'. rewrite list_lookup_fmap in Hi'.
    destruct (ts !! i) as [n|] eqn:Hn; [|done]. injection Hi' as <-.
    destruct (Hord i n cn p Hn Hc Hp) as (j & Hlt & Hj). by eapply Hrank.
  - intros [rank Hrank]. unfold topo_sort.
    destruct (sort_loop_spec order g0 Hwl (S (length g0)) g0 _ [] (sort_inv_init g0 Hwl))
      as (g' & E' & Hrun & _); [simpl; lia|].
    destruct (sort_loop_kept _ _ _ _ (g', E') (sort_inv_init g0 Hwl) kept_init Hrun)
      as [[[Hkeys _] Hnd Hset _] Hkept]. cbn [fst snd] in *.
    rewrite Hrun. cbn [mbind result_bind fst snd]. rewrite app_nil_r in *.
    rewrite bool_decide_false; [by eexists|]. intros Hne. apply Hne.
    rewrite <- (length_fmap commit_hash E'), <- (length_fmap fst g'), Hkeys.
    apply Permutation_length, NoDup_Permutation; [done|apply Hwl|].
    intros k. split; [by eapply settled_keys|]. by eapply sort_covers.
Qed.
End sort_more.

(** * More on the whole run *)

Section run_more.
Variable decompress : list byte → option (list byte).
Variable order : SetOrder.

Lemma loaded_parents_linked store heads st :
  loader_inv decompress store heads st → to_visit st = [] →
  parents_linked (l_graph st).
Proof.
  intros Hinv Htv c cn p Hc Hp.
  assert (c ∈ visited st) as Hv.
  { eapply loaded_all_visited; [done..|]. by eapply dict_get_Some_key. }
  destruct (inv_visited _ _ _ _ Hinv c Hv) as (ps & node & _ & Hnode & Hpar & Hlinks).
  assert (node = cn) as -> by congruence.
  apply Hlinks. rewrite Hpar in Hp. by apply elem_of_list_to_set in Hp.
Qed.

(** The parent edges of the loaded graph are the declared parents of the
    reachable commits. *)
Lemma loaded_edges store heads st c p :
  loader_inv decompress store heads st → to_visit st = [] →
  (∃ cn, dict_get c (l_graph st) = Some cn ∧ p ∈ parents cn) ↔
  reachable decompress store heads c
  ∧ ∃ ps, declared decompress store c = Some ps ∧ p ∈ ps.
Proof.
  intros Hinv Htv. split.
  - intros (cn & Hc & Hp).
    assert (c ∈ (l_graph st).*1) as Hk by (by eapply dict_get_Some_key).
    split; [by apply (loaded_reachable decompress store heads st)|].
    apply (loaded_all_visited decompress store heads st) in Hk; [|done..].
    destruct (inv_visited _ _ _ _ Hinv c Hk) as (ps & node & Hps & Hnode & Hpar & _).
    assert (node = cn) as -> by congruence. exists ps. split; [done|].
    rewrite Hpar in Hp. by apply elem_of_list_to_set in Hp.
  - intros (Hc & ps & Hps & Hp).
    apply (loaded_reachable decompress store heads st) in Hc; [|done..].
    apply (loaded_all_visited decompress store heads st) in Hc; [|done..].
    destruct (inv_visited _ _ _ _ Hinv c Hc) as (ps' & node & Hps' & Hnode & Hpar & _).
    assert (ps' = ps) as -> by congruence. exists node. split; [done|].
    rewrite Hpar. by apply elem_of_list_to_set.
Qed.

Lemma sort_Ok_iff store heads st :
  loader_inv decompress store heads st → to_visit st = [] →
  (∃ topo_sorted, topo_sort order (l_graph st) = Ok topo_sorted) ↔
  ∃ rank : pystr → nat, ∀ c ps p,
    reachable decompress store heads c →
    declared decompress store c = Some ps → p ∈ ps → rank p < rank c.
Proof.
  intros Hinv Htv.
  pose proof (loaded_well_linked _ _ _ st Hinv Htv) as Hwl.
  pose proof (loaded_parents_linked _ _ st Hinv Htv) as Hpl.
  rewrite (topo_sort_ranked order (l_graph st) Hwl Hpl).
  split; intros [rank Hrank]; exists rank.
  - intros c ps p Hc Hps Hp.
    destruct (proj2 (loaded_edges _ _ st c p Hinv Htv)) as (cn & Hcn & Hin); [by eauto|].
    by eapply Hrank.
  - intros c cn p Hc Hp.
    destruct (proj1 (loaded_edges _ _ st c p Hinv Htv)) as (Hr & ps & Hps & Hin);
      [by eauto|]. by eapply Hrank.
Qed.

(** X11. On the graph the loader returns, the sort ends normally exactly
    when the commits can be numbered so that every declared parent has a
    smaller number than its child, that is, when no commit is its own
    ancestor; otherwise it raises its exception. *)
Theorem sort_succeeds_iff_acyclic heads git_dir g :
  get_graph decompress heads git_dir = Ok g →
  let acyclic := ∃ rank : pystr → nat, ∀ c ps p,
    reachable decompress (objects git_dir) heads c →
    declared decompress (objects git_dir) c = Some ps → p ∈ ps → rank p < rank c in
  ((∃ topo_sorted, topo_sort order g = Ok topo_sorted) ↔ acyclic)
  ∧ (topo_sort order g = Raise (Exception "Sort is not a bijection") ↔ ¬ acyclic).
Proof.
  intros (st & _ & <- & Hinv & Htv)%get_graph_Ok acyclic.
  pose proof (loaded_well_linked _ _ _ st Hinv Htv) as Hwl.
  pose proof (sort_Ok_iff _ _ st Hinv Htv) as Hiff.
  split; [done|]. fold acyclic in Hiff. rewrite <- Hiff.
  destruct (topo_sort_spec order (l_graph st) Hwl) as [[ts Hts]|Hraise].
  - rewrite Hts. split; [done|]. intros Hno. destruct Hno. by exists ts.
  - rewrite Hraise. split; [|done]. by intros _ [ts Hts].
Qed.



(** What a run that ends normally went through. *)
Lemma run_Ok cwd out :
  topo_order_commits decompress order cwd = Ok out →
  ∃ git_dir branch_heads st topo_sorted,
    find_git cwd = Ok git_dir
    ∧ get_branches git_dir = Ok branch_heads
    ∧ get_graph decompress branch_heads git_dir = Ok (l_graph st)
    ∧ loader_inv decompress (objects git_dir) branch_heads st
    ∧ to_visit st = []
    ∧ topo_sort order (l_graph st) = Ok topo_sorted
    ∧ out = print_commits order branch_heads topo_sorted.
Proof.
  unfold topo_order_commits.
  destruct (find_git cwd) as [git_dir| |]; [|done..]. cbn [mbind result_bind].
  destruct (get_branches git_dir) as [branch_heads| |] eqn:Hb; [|done..].
  cbn [mbind result_bind].
  destruct (get_graph decompress branch_heads git_dir) as [g| |] eqn:Hg;
    [|done..]. cbn [mbind result_bind].
  destruct (topo_sort order g) as [ts| |] eqn:Hts; [|done..]. cbn [mbind result_bind].
  intros [= <-]. pose proof Hg as Hg'.
  apply get_graph_Ok in Hg as (st & _ & <- & Hinv & Htv).
  by exists git_dir, branch_heads, st, ts.
Qed.

(** X14. In the report of a run that ends normally, a commit is among the
    children of a printed node exactly when that node is one of the parents
    the commit declares. So a block follows a commit exactly when the next
    commit printed is not one of its declared parents, and the hashes
    before its first [=] are its declared parents, each once, in the order
    in which they are printed. *)
Theorem block_lists_declared_parents cwd out :
  topo_order_commits decompress order cwd = Ok out →
  ∃ git_dir branch_heads topo_sorted,
    find_git cwd = Ok git_dir
    ∧ get_branches git_dir = Ok branch_heads
    ∧ out = print_commits order branch_heads topo_sorted
    ∧ ∀ node, node ∈ topo_sorted →
        ∃ ps, declared decompress (objects git_dir) (commit_hash node) = Some ps
          ∧ (∀ m, m ∈ topo_sorted →
               (commit_hash node ∈ children m ↔ commit_hash m ∈ ps))
          ∧ NoDup (commit_hash <$>
                     filter (λ n, commit_hash node ∈ children n) topo_sorted)
          ∧ ∀ p, p ∈ commit_hash <$>
                       filter (λ n, commit_hash node ∈ children n) topo_sorted
                 ↔ p ∈ ps.
Proof.
  intros (git_dir & branch_heads & st & ts & Hgit & Hb & Hg & Hinv & Htv & Hts & ->)%run_Ok.
  exists git_dir, branch_heads, ts. split_and!; try done.
  pose proof (loaded_well_linked _ _ _ st Hinv Htv) as Hwl.
  destruct (topo_sort_Ok order (l_graph st) Hwl ts Hts) as (Hperm & Hsnap & _).
  assert (NoDup (hashes ts)) as Hnd by (rewrite Hperm; apply Hwl).
  intros node Hnode.
  destruct (Hsnap node Hnode) as (n0 & Hn0 & _).
  assert (commit_hash node ∈ visited st) as Hv.
  { eapply loaded_all_visited; [done..|]. by eapply dict_get_Some_key. }
  destruct (inv_visited _ _ _ _ Hinv _ Hv) as (ps & _ & Hps & _ & _ & Hlinks).
  assert (reachable decompress (objects git_dir) branch_heads (commit_hash node))
    as Hreach.
  { apply (loaded_reachable decompress _ _ st); [done..|]. by eapply dict_get_Some_key. }
  assert (∀ m, m ∈ ts → commit_hash node ∈ children m ↔ commit_hash m ∈ ps) as Hiff.
  { intros m Hm. destruct (Hsnap m Hm) as (m0 & Hm0 & ->).
    rewrite (loaded_children decompress _ _ st _ m0 Hinv Htv Hm0). split.
    - intros (_ & ps' & Hps' & Hin). congruence.
    - intros Hin. split; [done|]. by exists ps. }
  exists ps. split_and!; [done..| |].
  - eapply sublist_NoDup; [exact Hnd|]. apply sublist_map, sublist_filter.
  - intros p. rewrite list_elem_of_fmap. split.
    + intros (m & -> & [Hin Hm]%list_elem_of_filter). by apply Hiff.
    + intros Hp. destruct (Hlinks p Hp) as (pn & Hpn & Hin).
      assert (p ∈ hashes ts) as (m & -> & Hm)%list_elem_of_fmap.
      { rewrite Hperm. by eapply dict_get_Some_key. }
      exists m. split; [done|]. apply list_elem_of_filter. split; [|done].
      by apply Hiff.
Qed.

(** X15. The first commit of the report is a branch tip, and the last one
    declares no parent. *)
Theorem report_from_tip_to_root cwd out :
  topo_order_commits decompress order cwd = Ok out →
  ∃ git_dir branch_heads topo_sorted,
    find_git cwd = Ok git_dir
    ∧ get_branches git_dir = Ok branch_heads
    ∧ out = print_commits order branch_heads topo_sorted
    ∧ (∀ c, hashes topo_sorted !! 0 = Some c → c ∈ branch_heads.*2)
    ∧ (∀ c, last (hashes topo_sorted) = Some c →
            declared decompress (objects git_dir) c = Some []).
Proof.
  intros (git_dir & branch_heads & st & ts & Hgit & Hb & Hg & Hinv & Htv & Hts & ->)%run_Ok.
  exists git_dir, branch_heads, ts. split_and!; [done..| |].
  all: pose proof (loaded_well_linked _ _ _ st Hinv Htv) as Hwl.
  all: destruct (topo_sort_Ok order (l_graph st) Hwl ts Hts) as (Hperm & Hsnap & Hord).
  all: assert (NoDup (hashes ts)) as Hnd by (rewrite Hperm; apply Hwl).
  - intros c Hc.
    assert (reachable decompress (objects git_dir) branch_heads c) as Hr.
    { apply (loaded_reachable decompress _ _ st); [done..|]. rewrite <- Hperm.
      by eapply list_elem_of_lookup_2. }
    destruct Hr as [tip Htip|c' ps p Hc' Hps Hp]; [done|].
    destruct (proj2 (loaded_edges _ _ st c' p Hinv Htv)) as (cn & Hcn & Hin);
      [by eauto|].
    assert (c' ∈ hashes ts) as (n & -> & [i Hi]%list_elem_of_lookup)%list_elem_of_fmap.
    { rewrite Hperm. by eapply dict_get_Some_key. }
    destruct (Hord i n cn p Hi Hcn Hin) as (j & Hlt & Hj).
    assert (j = 0) by (by eapply NoDup_lookup). lia.
  - intros c Hc. rewrite last_lookup in Hc.
    assert (c ∈ hashes ts) as Hin by (by eapply list_elem_of_lookup_2).
    pose proof Hin as (n & -> & Hn)%list_elem_of_fmap.
    rewrite Hperm in Hin.
    apply (loaded_all_visited decompress (objects git_dir) branch_heads st) in Hin; [|done..].
    destruct (inv_visited _ _ _ _ Hinv _ Hin) as (ps & cn & Hps & Hcn & Hpar & _).
    destruct ps as [|p ps]; [done|].
    unfold hashes in Hc. rewrite list_lookup_fmap in Hc.
    destruct (ts !! pred (length (commit_hash <$> ts))) as [n'|] eqn:Hn'; [|done].
    injection Hc as Hc. rewrite <- Hc in Hcn.
    destruct (Hord _ n' cn p Hn' Hcn) as (j & Hlt & Hj).
    { rewrite Hpar. apply elem_of_list_to_set. by left. }
    apply lookup_lt_Some in Hj. unfold hashes in Hj. lia.
Qed.
End run_more.

(** * More on the search for parent lines *)

Section re_more.
Import Re.

Lemma scan_count s : ∀ k b, 47 * length (scan k b s) ≤ length s - k.
Proof.
  induction s as [|c r IH]; intros k b; [simpl; lia|].
  cbn [scan]. destruct k as [|k]; [|apply IH].
  destruct (if b then match_here (c :: r) else None) as [h|] eqn:Hm.
  - destruct b; [|done].
    apply match_here_Some in Hm as (kw & ws & rest & Hs & Hkw & _ & Hlen & _).
    apply (f_equal length) in Hs, Hkw. rewrite length_fmap in Hkw.
    rewrite length_app in Hs. simpl in Hs. rewrite length_app, Hkw, Hlen in Hs.
    change (length (py "parent")) with 6 in Hs.
    specialize (IH 46 (c =? 10)%N). simpl in *. lia.
  - specialize (IH 0 (c =? 10)%N). simpl. lia.
Qed.

Lemma findall_hex text h :
  h ∈ findall text → length h = 40 ∧ Forall (λ c, is_hex c = true) h.
Proof.
  rewrite findall_positions, list_elem_of_omap.
  intros (i & _ & (kw & ws & rest & _ & _ & _ & _ & Hlen & Hhex & _)%match_at_parent_line).
  done.
Qed.

(** X16. Every identifier [findall] returns has 40 characters, all of them
    hexadecimal digits, and the matches do not overlap: each takes 47
    characters of the text. *)
Theorem findall_groups text :
  Forall (λ h, length h = 40 ∧ Forall (λ c, is_hex c = true) h) (findall text)
  ∧ 47 * length (findall text) ≤ length text.
Proof.
  split.
  - apply Forall_forall. intros h. apply findall_hex.
  - pose proof (scan_count text 0 true) as H. unfold findall. lia.
Qed.

Lemma lines_from_acc s : ∀ cur,
  lines_from cur s = (cur ++ hd [] (lines_from [] s)) :: tl (lines_from [] s).
Proof.
  induction s as [|c r IH]; intros cur; cbn [lines_from].
  - by rewrite app_nil_r.
  - destruct (c =? 10)%N; [by rewrite app_nil_r|].
    rewrite (IH (cur ++ [c])), (IH ([] ++ [c])). cbn [hd tl app].
    by rewrite <- app_assoc.
Qed.

Lemma lines_split text :
  ∃ l ls, lines_from [] text = l :: ls
    ∧ Forall (λ c, (c =? 10)%N = false) l
    ∧ ((ls = [] ∧ text = l)
       ∨ ∃ rest, text = l ++ 10%N :: rest ∧ ls = lines_from [] rest).
Proof.
  induction text as [|c r (l & ls & Hl & Hnn & Hcase)]; [exists [], []; by auto|].
  cbn [lines_from]. destruct (N.eqb_spec c 10) as [->|Hc].
  - exists [], (lines_from [] r). split_and!; [done..|]. right. by exists r.
  - rewrite lines_from_acc, Hl. cbn [hd tl app]. exists (c :: l), ls.
    split_and!; [done| |].
    + apply Forall_cons. split; [by apply N.eqb_neq|done].
    + destruct Hcase as [[-> ->]|(rest & -> & ->)]; [by left|right]. by exists rest.
Qed.

Lemma lines_from_no_nl text l :
  l ∈ lines_from [] text → Forall (λ c, (c =? 10)%N = false) l.
Proof.
  revert l. induction text as [text IH] using list_suffix_ind. intros l.
  destruct (lines_split text) as (l0 & ls & -> & Hnn & Hcase).
  intros [-> |Hin]%elem_of_cons; [done|].
  destruct Hcase as [[-> _]|(rest & -> & ->)]; [by apply elem_of_nil in Hin|].
  apply (IH rest); [|done]. rewrite length_app. simpl. lia.
Qed.

Lemma scan_all_line l :
  Forall (λ c, (c =? 10)%N = false) l →
  scan_all true l = option_list (match_here l).
Proof.
  intros Hnn. destruct Hnn as [|c l Hc Hnn]; [done|]. cbn [scan_all].
  rewrite Hc. rewrite <- (app_nil_r l), scan_all_quiet by done. simpl.
  by rewrite !app_nil_r.
Qed.

Lemma scan_all_first_line l rest :
  Forall (λ c, (c =? 10)%N = false) l →
  scan_all true (l ++ 10%N :: rest)
  = option_list (match_here (l ++ 10%N :: rest)) ++ scan_all true rest.
Proof.
  intros Hnn. destruct Hnn as [|c l Hc Hnn]; [done|]. cbn [app scan_all].
  by rewrite Hc, scan_all_quiet.
Qed.

(** A line that is matched as a whole. *)
Lemma match_here_line l h :
  Forall (λ c, (c =? 10)%N = false) l →
  match_here l = Some h ↔
  ∃ kw ws, l = kw ++ ws :: h
    ∧ lower <$> kw = py "parent" ∧ is_space ws = true
    ∧ length h = 40 ∧ Forall (λ c, is_hex c = true) h.
Proof.
  intros Hnn. rewrite match_here_Some. split.
  - intros (kw & ws & rest & -> & Hkw & Hws & Hlen & Hhex & Heol).
    exists kw, ws. split_and!; try done.
    destruct rest as [|c rest]; [by rewrite app_nil_r|].
    rewrite Forall_app, Forall_cons, Forall_app, Forall_cons in Hnn.
    simpl in Heol. destruct Hnn as (_ & _ & _ & Hc & _). congruence.
  - intros (kw & ws & -> & ? & ? & ? & ?). exists kw, ws, [].
    by rewrite app_nil_r.
Qed.

Lemma match_here_first_line l rest :
  Forall (λ c, (c =? 10)%N = false) l →
  lower <$> l ≠ py "parent" →
  match_here (l ++ 10%N :: rest) = match_here l.
Proof.
  intros Hnn Hbare.
  assert (∀ h, match_here (l ++ 10%N :: rest) = Some h ↔ match_here l = Some h) as Hiff.
  { intros h. rewrite (match_here_line l h Hnn), match_here_Some. split.
    - intros (kw & ws & r' & Heq & Hkw & Hws & Hlen & Hhex & Heol).
      exists kw, ws. split_and!; try done.
      assert (length kw = 6) as Hk by (by rewrite <- (length_fmap lower), Hkw).
      destruct (decide (length l < 47)) as [Hlt|Hge].
      + exfalso.
        assert ((kw ++ ws :: h ++ r') !! length l = Some 10%N) as Hat.
        { rewrite <- Heq. by apply list_lookup_middle. }
        destruct (decide (length l < 6)) as [Hl6|Hl6].
        { rewrite lookup_app_l in Hat by lia.
          apply list_elem_of_lookup_2 in Hat.
          pose proof (keyword_no_nl _ Hkw) as Hno.
          rewrite Forall_forall in Hno. by specialize (Hno _ Hat). }
        destruct (decide (length l = 6)) as [Hl6'|Hl6'].
        { apply app_inj_1 in Heq as [-> _]; [done|lia]. }
        rewrite lookup_app_r in Hat by lia.
        destruct (length l - length kw) as [|k] eqn:Hd; [lia|].
        simpl in Hat. rewrite lookup_app_l in Hat by lia.
        apply list_elem_of_lookup_2 in Hat. rewrite Forall_forall in Hhex.
        by specialize (Hhex _ Hat).
      + rewrite <- (take_drop 47 l), <- app_assoc in Heq.
        change (kw ++ ws :: h ++ r') with (kw ++ [ws] ++ h ++ r') in Heq.
        rewrite (app_assoc kw), (app_assoc (kw ++ [ws])) in Heq.
        apply app_inj_1 in Heq as [Ht Hd].
        2:{ rewrite length_take, !length_app. cbn [length]. lia. }
        destruct (drop 47 l) as [|c dl] eqn:Hdl.
        * rewrite <- (take_drop 47 l), Hdl, app_nil_r, Ht. by rewrite <- !app_assoc.
        * exfalso. rewrite <- Hd in Heol. simpl in Heol.
          assert (c ∈ l) as Hc.
          { rewrite <- (take_drop 47 l), Hdl. apply elem_of_app. right. by left. }
          rewrite Forall_forall in Hnn. specialize (Hnn _ Hc). congruence.
    - intros (kw & ws & -> & ? & ? & ? & ?). exists kw, ws, (10%N :: rest).
      split_and!; try done. by rewrite <- !app_assoc. }
  destruct (match_here (l ++ 10%N :: rest)) as [h|] eqn:E1.
  - symmetry. by apply Hiff.
  - destruct (match_here l) as [h|] eqn:E2; [|done].
    assert (@None pystr = Some h) by (by apply Hiff). done.
Qed.

(** X17. On a text none of whose lines is the bare word parent (in either
    case), [findall] works line by line: it returns, in order, the
    identifiers of the lines that the pattern matches as a whole, and such
    a line is the word parent, one whitespace character and 40 hexadecimal
    digits. *)
Theorem findall_by_lines text :
  Forall (λ l, lower <$> l ≠ py "parent") (lines_from [] text) →
  findall text = omap match_here (lines_from [] text)
  ∧ ∀ l h, l ∈ lines_from [] text →
      (match_here l = Some h ↔
       ∃ kw ws, l = kw ++ ws :: h
         ∧ lower <$> kw = py "parent" ∧ is_space ws = true
         ∧ length h = 40 ∧ Forall (λ c, is_hex c = true) h).
Proof.
  intros Hbare. split.
  2:{ intros l h Hl. apply match_here_line. by eapply lines_from_no_nl. }
  unfold findall. rewrite scan_scan_all. revert Hbare.
  induction text as [text IH] using list_suffix_ind.
  destruct (lines_split text) as (l & ls & -> & Hnn & Hcase).
  intros [Hl Hls]%Forall_cons. cbn [omap list_omap].
  change (list_omap _ _ ?f ?x) with (omap f x).
  destruct Hcase as [[-> ->]|(rest & -> & ->)].
  - rewrite scan_all_line by done. by destruct (match_here l).
  - rewrite scan_all_first_line, match_here_first_line by done.
    rewrite IH; [by destruct (match_here l)| |done].
    rewrite length_app. simpl. lia.
Qed.
End re_more.

(** * More on decoding *)

Section decode_more.
Import Utf8.

Lemma decode_ascii handler raw :
  Forall (λ b, (Byte.to_N b <? 0x80)%N = true) raw →
  decode handler raw = Some (Byte.to_N <$> raw).
Proof.
  induction 1 as [|b raw Hb _ IH]; [done|].
  cbn [decode]. cbv zeta. by rewrite Hb, IH.
Qed.

Variable decompress : list byte → option (list byte).

(** X18. The parents of an object whose decompressed bytes are all below
    128 are found in the text that has these bytes as its characters: no
    byte is dropped. *)
Theorem parse_parents_ascii contents raw :
  decompress contents = Some raw →
  Forall (λ b, (Byte.to_N b <? 0x80)%N = true) raw →
  parse_parents decompress contents = Ok (Re.findall (Byte.to_N <$> raw)).
Proof.
  intros Hraw Hascii. unfold parse_parents. by rewrite Hraw, decode_ascii.
Qed.

Variable store : gmap (pystr * pystr) (list byte).
Variable heads : list (pystr * pystr).

(** X19. Whatever the outcome of the loader, every object file it opens is
    named by a branch tip or by 40 hexadecimal digits, which give a
    directory of two characters and a file name of 38. *)
Theorem loader_opens_tips_or_hex :
  Forall (λ h, h ∈ heads.*2
               ∨ (length h = 40 ∧ Forall (λ c, Re.is_hex c = true) h
                  ∧ length (object_path h).1 = 2 ∧ length (object_path h).2 = 38))
         (get_graph_traced decompress heads store).1.
Proof.
  apply Forall_forall. intros h Hh.
  apply (get_graph_traced_opened decompress store heads) in Hh.
  destruct Hh as [tip Htip|c ps p _ Hps Hp]; [by left|right].
  apply declared_Some in Hps as (_ & contents & _ & Hps).
  unfold parse_parents in Hps. destruct (decompress contents) as [raw|]; [|done].
  destruct (decode ignore raw) as [text|]; [|done]. injection Hps as <-.
  destruct (findall_hex text p Hp) as [Hlen Hhex]. split_and!; [done..| |]; unfold object_path; simpl.
  - rewrite length_take. lia.
  - rewrite length_drop. lia.
Qed.
End decode_more.

(** * Linear histories *)

Section sequence.
Variable decompress : list byte → option (list byte).
Variable order : SetOrder.

(** What the sort makes of a loaded graph. *)
Lemma sorted_sequence store heads st ts :
  loader_inv decompress store heads st → to_visit st = [] →
  topo_sort order (l_graph st) = Ok ts →
  NoDup (hashes ts)
  ∧ hashes ts ≡ₚ (l_graph st).*1
  ∧ (∀ h, h ∈ hashes ts ↔ reachable decompress store heads h)
  ∧ (∀ i c ps p, hashes ts !! i = Some c → declared decompress store c = Some ps →
       p ∈ ps → ∃ j, i < j ∧ hashes ts !! j = Some p)
  ∧ (∀ n c, n ∈ ts →
       c ∈ children n ↔
       reachable decompress store heads c
       ∧ ∃ ps, declared decompress store c = Some ps ∧ commit_hash n ∈ ps).
Proof.
  intros Hinv Htv Hts.
  pose proof (loaded_well_linked _ _ _ st Hinv Htv) as Hwl.
  destruct (topo_sort_Ok order (l_graph st) Hwl ts Hts) as (Hperm & Hsnap & Hord).
  split_and!; [rewrite Hperm; apply Hwl|done| | |].
  - intros h. rewrite Hperm. by apply loaded_reachable.
  - intros i c ps p Hi Hps Hp.
    unfold hashes in Hi. rewrite list_lookup_fmap in Hi.
    destruct (ts !! i) as [n|] eqn:Hn; [|done]. injection Hi as <-.
    assert (reachable decompress store heads (commit_hash n)) as Hr.
    { apply (loaded_reachable decompress _ _ st); [done..|]. rewrite <- Hperm.
      apply list_elem_of_fmap_2. by eapply list_elem_of_lookup_2. }
    destruct (proj2 (loaded_edges decompress _ _ st (commit_hash n) p Hinv Htv))
      as (cn & Hcn & Hin); [by eauto|].
    by apply (Hord i n cn p).
  - intros n c Hn. destruct (Hsnap n Hn) as (n0 & Hn0 & ->).
    by apply (loaded_children decompress store heads st).
Qed.
End sequence.

Section linear.
Variable decompress : list byte → option (list byte).
Variable store : gmap (pystr * pystr) (list byte).
Variable heads : list (pystr * pystr).
Hypothesis one_tip : ∀ t t', t ∈ heads.*2 → t' ∈ heads.*2 → t = t'.
Hypothesis one_parent : ∀ c ps p q,
  reachable decompress store heads c → declared decompress store c = Some ps →
  p ∈ ps → q ∈ ps → p = q.

(** With one tip and one parent at most per commit, each commit of the
    sequence is followed by its parent. *)
Lemma linear_next order st ts i c m :
  loader_inv decompress store heads st → to_visit st = [] →
  topo_sort order (l_graph st) = Ok ts →
  hashes ts !! i = Some c → hashes ts !! S i = Some m →
  ∃ ps, declared decompress store c = Some ps ∧ m ∈ ps.
Proof.
  intros Hinv Htv Hts.
  destruct (sorted_sequence decompress order store heads st ts Hinv Htv Hts)
    as (Hnd & _ & Hreach & Hord & _).
  revert c m. induction i as [i IH] using lt_wf_ind. intros c m Hc Hm.
  assert (reachable decompress store heads m) as Hr.
  { apply Hreach. by eapply list_elem_of_lookup_2. }
  destruct Hr as [tip Htip|c' ps p Hc' Hps Hp].
  - exfalso. destruct (hashes ts !! 0) as [f|] eqn:Hf.
    2:{ apply lookup_ge_None in Hf. apply lookup_lt_Some in Hc. lia. }
    assert (reachable decompress store heads f) as Hrf.
    { apply Hreach. by eapply list_elem_of_lookup_2. }
    destruct Hrf as [f Hftip|c' ps f Hc' Hps Hin].
    + assert (f = tip) as -> by (by apply one_tip).
      assert (0 = S i) by (by eapply NoDup_lookup). done.
    + apply Hreach, list_elem_of_lookup in Hc' as [k Hk].
      destruct (Hord k c' ps f Hk Hps Hin) as (j & Hlt & Hj).
      assert (j = 0) by (by eapply NoDup_lookup). lia.
  - pose proof Hc' as Hrc'. apply Hreach, list_elem_of_lookup in Hc' as [k Hk].
    destruct (Hord k c' ps p Hk Hps Hp) as (j & Hlt & Hj).
    assert (j = S i) as -> by (by eapply NoDup_lookup).
    destruct (decide (k = i)) as [->|Hne].
    { assert (c' = c) as -> by congruence. by exists ps. }
    exfalso. assert (k < i) as Hki by lia.
    destruct (hashes ts !! S k) as [m'|] eqn:Hm'.
    2:{ apply lookup_ge_None in Hm'. apply lookup_lt_Some in Hc. lia. }
    destruct (IH k Hki c' m' Hk Hm') as (ps' & Hps' & Hin').
    assert (ps' = ps) as -> by congruence.
    assert (m' = p) as -> by (by eapply one_parent).
    assert (S k = S i) by (by eapply NoDup_lookup). lia.
Qed.

(** The sequence of a linear history does not depend on the order of
    iteration of the sets. *)
Lemma linear_sequence order1 order2 st ts1 ts2 :
  loader_inv decompress store heads st → to_visit st = [] →
  topo_sort order1 (l_graph st) = Ok ts1 →
  topo_sort order2 (l_graph st) = Ok ts2 →
  hashes ts1 = hashes ts2.
Proof.
  intros Hinv Htv Hts1 Hts2.
  destruct (sorted_sequence decompress order1 store heads st ts1 Hinv Htv Hts1)
    as (Hnd1 & Hperm1 & Hreach1 & Hord1 & _).
  destruct (sorted_sequence decompress order2 store heads st ts2 Hinv Htv Hts2)
    as (Hnd2 & Hperm2 & Hreach2 & Hord2 & _).
  assert (length (hashes ts1) = length (hashes ts2)) as Hlen.
  { by rewrite Hperm1, Hperm2. }
  assert (∀ ts o, topo_sort o (l_graph st) = Ok ts →
            ∀ f, hashes ts !! 0 = Some f → f ∈ heads.*2) as Hfirst.
  { intros ts o Hts f Hf.
    destruct (sorted_sequence decompress o store heads st ts Hinv Htv Hts)
      as (Hnd & _ & Hreach & Hord & _).
    assert (reachable decompress store heads f) as Hrf.
    { apply Hreach. by eapply list_elem_of_lookup_2. }
    destruct Hrf as [f Hftip|c' ps f Hc' Hps Hin]; [done|].
    apply Hreach, list_elem_of_lookup in Hc' as [k Hk].
    destruct (Hord k c' ps f Hk Hps Hin) as (j & Hlt & Hj).
    assert (j = 0) by (by eapply NoDup_lookup). lia. }
  apply list_eq. intros i. induction i as [|i IH].
  - destruct (hashes ts1 !! 0) as [f1|] eqn:H1, (hashes ts2 !! 0) as [f2|] eqn:H2.
    + f_equal. apply one_tip; [by apply (Hfirst ts1 order1)|by apply (Hfirst ts2 order2)].
    + apply lookup_ge_None in H2. apply lookup_lt_Some in H1. lia.
    + apply lookup_ge_None in H1. apply lookup_lt_Some in H2. lia.
    + done.
  - destruct (hashes ts1 !! S i) as [m1|] eqn:H1, (hashes ts2 !! S i) as [m2|] eqn:H2.
    + destruct (hashes ts1 !! i) as [c|] eqn:Hc.
      2:{ apply lookup_ge_None in Hc. apply lookup_lt_Some in H1. lia. }
      symmetry in IH.
      destruct (linear_next order1 st ts1 i c m1 Hinv Htv Hts1 Hc H1) as (ps & Hps & Hin1).
      destruct (linear_next order2 st ts2 i c m2 Hinv Htv Hts2 IH H2) as (ps' & Hps' & Hin2).
      assert (ps' = ps) as -> by congruence. f_equal.
      eapply one_parent; [|done..]. apply Hreach1. by eapply list_elem_of_lookup_2.
    + apply lookup_ge_None in H2. apply lookup_lt_Some in H1. lia.
    + apply lookup_ge_None in H1. apply lookup_lt_Some in H2. lia.
    + done.
Qed.

(** The report of a linear history has one line per commit and no block. *)
Lemma linear_report order st ts :
  loader_inv decompress store heads st → to_visit st = [] →
  topo_sort order (l_graph st) = Ok ts →
  print_commits order heads ts
  = mjoin ((λ h, h ++ annotation heads h ++ NL) <$> hashes ts).
Proof.
  intros Hinv Htv Hts.
  destruct (sorted_sequence decompress order store heads st ts Hinv Htv Hts)
    as (Hnd & _ & Hreach & Hord & Hch).
  rewrite print_commits_entries. f_equal. unfold hashes.
  rewrite <- list_fmap_compose, <- imap_const. apply imap_ext.
  intros i n Hn. unfold entry, block, const, compose.
  destruct (ts !! S i) as [m|] eqn:Hm; [|done].
  rewrite bool_decide_true; [done|].
  apply Hch; [by eapply list_elem_of_lookup_2|].
  assert (hashes ts !! i = Some (commit_hash n)) as Hi.
  { unfold hashes. by rewrite list_lookup_fmap, Hn. }
  assert (hashes ts !! S i = Some (commit_hash m)) as HSi.
  { unfold hashes. by rewrite list_lookup_fmap, Hm. }
  split; [apply Hreach; by eapply list_elem_of_lookup_2|].
  by apply (linear_next order st ts i).
Qed.
End linear.

Section linear_run.
Variable decompress : list byte → option (list byte).

(** X20. When all the branches are at one commit and no reachable commit
    declares two different parents, the report has one line per commit
    and no block: each commit is followed by its parent. *)
Theorem linear_history_plain order cwd git_dir branch_heads out :
  find_git cwd = Ok git_dir →
  get_branches git_dir = Ok branch_heads →
  (∀ t t', t ∈ branch_heads.*2 → t' ∈ branch_heads.*2 → t = t') →
  (∀ c ps p q,
     reachable decompress (objects git_dir) branch_heads c →
     declared decompress (objects git_dir) c = Some ps → p ∈ ps → q ∈ ps → p = q) →
  topo_order_commits decompress order cwd = Ok out →
  ∃ printed,
    out = mjoin ((λ h, h ++ annotation branch_heads h ++ NL) <$> printed)
    ∧ ∀ i c m, printed !! i = Some c → printed !! S i = Some m →
        ∃ ps, declared decompress (objects git_dir) c = Some ps ∧ m ∈ ps.
Proof.
  intros Hgit Hb Htip Hpar
    (git_dir' & heads' & st & ts & Hgit' & Hb' & _ & Hinv & Htv & Hts & ->)%run_Ok.
  assert (git_dir' = git_dir) as -> by congruence.
  assert (heads' = branch_heads) as -> by congruence.
  exists (hashes ts). split.
  - by apply (linear_report decompress (objects git_dir) _ Htip Hpar order st).
  - intros i c m. by apply (linear_next decompress (objects git_dir) _ Htip Hpar order st).
Qed.

(** X21. Under the same conditions two runs give the same result, whatever
    the order in which each of them iterates its sets. *)
Theorem linear_history_deterministic order1 order2 cwd git_dir :
  find_git cwd = Ok git_dir →
  (∀ branch_heads, get_branches git_dir = Ok branch_heads →
     (∀ t t', t ∈ branch_heads.*2 → t' ∈ branch_heads.*2 → t = t')
     ∧ (∀ c ps p q,
          reachable decompress (objects git_dir) branch_heads c →
          declared decompress (objects git_dir) c = Some ps →
          p ∈ ps → q ∈ ps → p = q)) →
  topo_order_commits decompress order1 cwd = topo_order_commits decompress order2 cwd.
Proof.
  intros Hgit Hlinear. unfold topo_order_commits. rewrite Hgit.
  cbn [mbind result_bind].
  destruct (get_branches git_dir) as [branch_heads| |] eqn:Hb; [|done..].
  destruct (Hlinear branch_heads eq_refl) as [Htip Hpar].
  cbn [mbind result_bind].
  destruct (get_graph decompress branch_heads git_dir) as [g| |] eqn:Hg;
    [|done..]. cbn [mbind result_bind].
  apply get_graph_Ok in Hg as (st & _ & <- & Hinv & Htv).
  pose proof (loaded_well_linked _ _ _ st Hinv Htv) as Hwl.
  pose proof (sort_Ok_iff decompress order1 _ _ st Hinv Htv) as Hiff1.
  pose proof (sort_Ok_iff decompress order2 _ _ st Hinv Htv) as Hiff2.
  destruct (topo_sort_spec order1 (l_graph st) Hwl) as [[ts1 Hts1]|Hr1],
           (topo_sort_spec order2 (l_graph st) Hwl) as [[ts2 Hts2]|Hr2].
  - rewrite Hts1, Hts2. cbn [mbind result_bind]. f_equal.
    rewrite (linear_report decompress (objects git_dir) _ Htip Hpar order1 st ts1),
            (linear_report decompress (objects git_dir) _ Htip Hpar order2 st ts2)
      by done.
    by rewrite (linear_sequence decompress (objects git_dir) _ Htip Hpar
                  order1 order2 st ts1 ts2).
  - exfalso. assert (∃ ts, topo_sort order2 (l_graph st) = Ok ts) as [ts Hts].
    { apply Hiff2, Hiff1. by exists ts1. }
    congruence.
  - exfalso. assert (∃ ts, topo_sort order1 (l_graph st) = Ok ts) as [ts Hts].
    { apply Hiff1, Hiff2. by exists ts2. }
    congruence.
  - by rewrite Hr1, Hr2.
Qed.
End linear_run.

(** * The further properties at the example repositories *)

Lemma find_git_misses_root_witness :
  Forall (λ d : option GitDir, d = None) [None; None]
  ∧ find_git ([None; None] ++ [Some fork]) = Raise (SystemExit 1).
Proof.
  assert (Forall (λ d : option GitDir, d = None) [None; None]) as Hnone
    by (repeat constructor).
  split; [done|]. exact (find_git_misses_root [None; None] (Some fork) Hnone).
Defined.

Lemma first_line_identifier_witness :
  Forall (λ c, is_space c = false) hA ∧ first_line (File (hA ++ NL)) = hA.
Proof.
  assert (Forall (λ c, is_space c = false) hA) as Hh
    by (apply (bool_decide_unpack _); vm_compute; exact I).
  split; [done|]. apply (first_line_identifier hA NL Hh).
  right. exists 10%N, []. split; [reflexivity|by left].
Defined.

Lemma get_branches_listing_order_witness :
  ∃ branch_heads,
    get_branches fork = Ok branch_heads
    ∧ get_branches {| refs_heads := Listed [ref [py "feat"; py "x"] hC;
                                           ([py "feat"], Dir); ref [py "main"] hA];
                      objects := objects fork |} = Ok branch_heads.
Proof.
  apply (get_branches_listing_order fork _
           [ref [py "main"] hA; ([py "feat"], Dir); ref [py "feat"; py "x"] hC]
           [ref [py "feat"; py "x"] hC; ([py "feat"], Dir); ref [py "main"] hA]).
  - reflexivity.
  - reflexivity.
  - apply (reverse_Permutation [ref [py "feat"; py "x"] hC; ([py "feat"], Dir);
                                ref [py "main"] hA]).
  - apply (bool_decide_unpack _). vm_compute. exact I.
Defined.

Lemma get_branches_entries_witness :
  ∃ branch_heads,
    get_branches fork = Ok branch_heads
    ∧ NoDup branch_heads.*1
    ∧ ∀ name hash,
        (name, hash) ∈ branch_heads ↔
        ∃ parts content,
          (parts, File content)
            ∈ [ref [py "main"] hA; ([py "feat"], Dir); ref [py "feat"; py "x"] hC]
          ∧ name = as_posix parts ∧ hash = strip (readline content).
Proof.
  apply (get_branches_entries fork).
  - reflexivity.
  - apply (bool_decide_unpack _). vm_compute. exact I.
Defined.

Lemma loaded_children_exact_witness :
  get_graph stored (branches_at fork) fork = Ok fork_graph
  ∧ ∀ p pn, dict_get p fork_graph = Some pn →
      commit_hash pn = p ∧ NoDup (children pn)
      ∧ ∀ c, c ∈ children pn ↔
             reachable stored (objects fork) (branches_at fork) c
             ∧ ∃ ps, declared stored (objects fork) c = Some ps ∧ p ∈ ps.
Proof.
  split; [vm_compute; reflexivity|].
  apply (loaded_children_exact stored (branches_at fork) fork fork_graph).
  vm_compute. reflexivity.
Defined.

Lemma loader_opens_each_once_witness :
  get_graph_traced stored (branches_at fork) (objects fork)
  = ([hA; hB; hC], Ok fork_graph)
  ∧ NoDup [hA; hB; hC] ∧ [hA; hB; hC] ≡ₚ fork_graph.*1.
Proof.
  split; [vm_compute; reflexivity|].
  apply (loader_opens_each_once stored (branches_at fork) (objects fork)).
  vm_compute. reflexivity.
Defined.

Lemma sort_succeeds_iff_acyclic_witness :
  get_graph stored (branches_at fork) fork = Ok fork_graph
  ∧ ((∃ topo_sorted, topo_sort fwd fork_graph = Ok topo_sorted) ↔
     ∃ rank : pystr → nat, ∀ c ps p,
       reachable stored (objects fork) (branches_at fork) c →
       declared stored (objects fork) c = Some ps → p ∈ ps → rank p < rank c)
  ∧ (topo_sort fwd fork_graph = Raise (Exception "Sort is not a bijection") ↔
     ¬ ∃ rank : pystr → nat, ∀ c ps p,
       reachable stored (objects fork) (branches_at fork) c →
       declared stored (objects fork) c = Some ps → p ∈ ps → rank p < rank c).
Proof.
  split; [vm_compute; reflexivity|].
  apply (sort_succeeds_iff_acyclic stored fwd (branches_at fork) fork fork_graph).
  vm_compute. reflexivity.
Defined.

Lemma block_lists_declared_parents_witness :
  ∃ git_dir branch_heads topo_sorted,
    find_git (at_top fork) = Ok git_dir
    ∧ get_branches git_dir = Ok branch_heads
    ∧ print_commits fwd (branches_at fork) fork_sorted
      = print_commits fwd branch_heads topo_sorted
    ∧ ∀ node, node ∈ topo_sorted →
        ∃ ps, declared stored (objects git_dir) (commit_hash node) = Some ps
          ∧ (∀ m, m ∈ topo_sorted →
               (commit_hash node ∈ children m ↔ commit_hash m ∈ ps))
          ∧ NoDup (commit_hash <$>
                     filter (λ n, commit_hash node ∈ children n) topo_sorted)
          ∧ ∀ p, p ∈ commit_hash <$>
                       filter (λ n, commit_hash node ∈ children n) topo_sorted
                 ↔ p ∈ ps.
Proof.
  apply (block_lists_declared_parents stored fwd (at_top fork)).
  vm_compute. reflexivity.
Defined.

Lemma report_from_tip_to_root_witness :
  ∃ git_dir branch_heads topo_sorted,
    find_git (at_top fork) = Ok git_dir
    ∧ get_branches git_dir = Ok branch_heads
    ∧ print_commits fwd (branches_at fork) fork_sorted
      = print_commits fwd branch_heads topo_sorted
    ∧ (∀ c, hashes topo_sorted !! 0 = Some c → c ∈ branch_heads.*2)
    ∧ (∀ c, last (hashes topo_sorted) = Some c →
            declared stored (objects git_dir) c = Some []).
Proof.
  apply (report_from_tip_to_root stored fwd (at_top fork)).
  vm_compute. reflexivity.
Defined.

Lemma findall_by_lines_witness :
  Forall (λ l, Re.lower <$> l ≠ py "parent") (Re.lines_from [] upper_tab_commit)
  ∧ Re.findall upper_tab_commit
    = omap Re.match_here (Re.lines_from [] upper_tab_commit)
  ∧ ∀ l h, l ∈ Re.lines_from [] upper_tab_commit →
      (Re.match_here l = Some h ↔
       ∃ kw ws, l = kw ++ ws :: h
         ∧ Re.lower <$> kw = py "parent" ∧ is_space ws = true
         ∧ length h = 40 ∧ Forall (λ c, Re.is_hex c = true) h).
Proof.
  assert (Forall (λ l, Re.lower <$> l ≠ py "parent")
            (Re.lines_from [] upper_tab_commit)) as Hbare
    by (apply (bool_decide_unpack _); vm_compute; exact I).
  split; [done|]. exact (findall_by_lines upper_tab_commit Hbare).
Defined.

Lemma parse_parents_ascii_witness :
  stored (commit [hB]) = Some (commit [hB])
  ∧ Forall (λ b, (Byte.to_N b <? 0x80)%N = true) (commit [hB])
  ∧ parse_parents stored (commit [hB])
    = Ok (Re.findall (Byte.to_N <$> commit [hB])).
Proof.
  assert (Forall (λ b, (Byte.to_N b <? 0x80)%N = true) (commit [hB])) as Hascii
    by (apply (bool_decide_unpack _); vm_compute; exact I).
  assert (stored (commit [hB]) = Some (commit [hB])) as Hraw
    by (vm_compute; reflexivity).
  split_and!; [done..|].
  exact (parse_parents_ascii stored (commit [hB]) (commit [hB]) Hraw Hascii).
Defined.

Lemma straight_one_tip t t' :
  t ∈ (branches_at straight).*2 → t' ∈ (branches_at straight).*2 → t = t'.
Proof.
  assert ((branches_at straight).*2 = [hA]) as -> by (vm_compute; reflexivity).
  intros ->%list_elem_of_singleton ->%list_elem_of_singleton. done.
Qed.

Lemma straight_one_parent c ps p q :
  reachable stored (objects straight) (branches_at straight) c →
  declared stored (objects straight) c = Some ps → p ∈ ps → q ∈ ps → p = q.
Proof.
  intros _ (_ & contents & Hc & Hps)%declared_Some.
  unfold straight, put in Hc. cbn [objects] in Hc.
  apply lookup_insert_Some in Hc as [[_ <-]|[_ Hc]].
  - assert (parse_parents stored (commit [hB]) = Ok [hB]) as Hparse
      by (vm_compute; reflexivity).
    rewrite Hparse in Hps. injection Hps as <-.
    intros ->%list_elem_of_singleton ->%list_elem_of_singleton. done.
  - apply lookup_insert_Some in Hc as [[_ <-]|[_ Hc]]; [|done].
    assert (parse_parents stored (commit []) = Ok []) as Hparse
      by (vm_compute; reflexivity).
    rewrite Hparse in Hps. injection Hps as <-.
    intros Hp. by apply elem_of_nil in Hp.
Qed.

Lemma linear_history_plain_witness :
  ∃ printed,
    print_commits fwd (branches_at straight) [new_node hA; add_child hA (new_node hB)]
    = mjoin ((λ h, h ++ annotation (branches_at straight) h ++ NL) <$> printed)
    ∧ ∀ i c m, printed !! i = Some c → printed !! S i = Some m →
        ∃ ps, declared stored (objects straight) c = Some ps ∧ m ∈ ps.
Proof.
  apply (linear_history_plain stored fwd (at_top straight) straight
           (branches_at straight)).
  - reflexivity.
  - reflexivity.
  - exact straight_one_tip.
  - exact straight_one_parent.
  - vm_compute. reflexivity.
Defined.

Lemma linear_history_deterministic_witness :
  topo_order_commits stored fwd (at_top straight)
  = topo_order_commits stored bwd (at_top straight).
Proof.
  apply (linear_history_deterministic stored fwd bwd (at_top straight) straight).
  - reflexivity.
  - intros branch_heads [= <-]. split.
    + exact straight_one_tip.
    + exact straight_one_parent.
Defined.
